(** * DaCe SDFG states and control-flow regions: a shallow embedding of
      [dace/sdfg/state.py]

    The development follows the layout of the Python module.  Module
    [Dataflow] embeds [DataflowGraphView] and [SDFGState] (memlet paths and
    trees, scope dictionaries, read and write sets, the scope caches);
    module [ControlFlow] embeds [ControlFlowRegion] and [LoopRegion] (start
    block, block and edge insertion, inlining, symbol liveness, traversals).
    Module [MapDimShuffle] embeds the transformation of that name, which
    works on the map of a map entry of a state.

    Python objects are records that carry an identity field ([nid], [eid],
    [bid]), so that two distinct objects are never equal; exceptions are the
    [Raise] results of a small error monad; [while] loops take a fuel
    argument, and each looping function is shown never to exhaust the fuel
    its caller hands over. *)

From Stdlib Require Import String.
From stdpp Require Import base option list gmap sets strings.

Open Scope string_scope.
Open Scope list_scope.
Open Scope nat_scope.

(** ** Results of Python calls *)

Inductive exception :=
| ValueError (msg : string)
| RuntimeError (msg : string)
| TypeError (msg : string)
| IndexError
| AttributeError
| AssertionError
| StopIteration.

Inductive result (A : Type) :=
| Ok (a : A)
| Raise (e : exception)
| OutOfFuel.
Arguments Ok {A} a.
Arguments Raise {A} e.
Arguments OutOfFuel {A}.

#[global] Instance result_bind : MBind result := λ A B k r,
  match r with
  | Ok a => k a
  | Raise e => Raise e
  | OutOfFuel => OutOfFuel
  end.
#[global] Instance result_ret : MRet result := λ A a, Ok a.

Definition returns {A} (r : result A) : Prop := ∃ a, r = Ok a.
Definition raises {A} (r : result A) : Prop := ∃ e, r = Raise e.

#[global] Instance exception_eq_dec : EqDecision exception.
Proof. solve_decision. Defined.

(** Python's [s[n:]] on strings. *)
Fixpoint string_drop (n : nat) (s : string) : string :=
  match n, s with
  | 0, _ => s
  | S n', EmptyString => EmptyString
  | S n', String _ s' => string_drop n' s'
  end.

(** Python's [s.startswith(p)]. *)
Definition startswith (s p : string) : bool := String.prefix p s.

(** ** Dataflow graphs *)

Module Dataflow.

(** The node classes of [dace.sdfg.nodes] that this module dispatches on.
    [Tasklet] and [NestedSDFG] are the [CodeNode] subclasses. *)
Inductive node_class :=
| AccessNode
| Tasklet
| NestedSDFG
| EntryNode
| ExitNode.

#[global] Instance node_class_eq_dec : EqDecision node_class.
Proof. solve_decision. Defined.

(** A node object: [nid] is the object identity; [data] is the container an
    access node names (unused by the other classes). *)
Record Node := mkNode {
  nid : nat;
  cls : node_class;
  data : string
}.

#[global] Instance Node_eq_dec : EqDecision Node.
Proof. solve_decision. Defined.

#[global] Instance node_class_countable : Countable node_class.
Proof.
  refine (inj_countable'
    (λ c, match c with
          | AccessNode => 0 | Tasklet => 1 | NestedSDFG => 2
          | EntryNode => 3 | ExitNode => 4
          end)
    (λ n, match n with
          | 0 => AccessNode | 1 => Tasklet | 2 => NestedSDFG
          | 3 => EntryNode | _ => ExitNode
          end) _).
  intros []; reflexivity.
Defined.

#[global] Instance Node_countable : Countable Node.
Proof.
  refine (inj_countable' (λ n, (nid n, cls n, data n))
                         (λ t, mkNode t.1.1 t.1.2 t.2) _).
  intros []; reflexivity.
Defined.

Definition isinstance_CodeNode (n : Node) : bool :=
  match cls n with Tasklet | NestedSDFG => true | _ => false end.
Definition isinstance_AccessNode (n : Node) : bool :=
  match cls n with AccessNode => true | _ => false end.
Definition isinstance_EntryNode (n : Node) : bool :=
  match cls n with EntryNode => true | _ => false end.
Definition isinstance_ExitNode (n : Node) : bool :=
  match cls n with ExitNode => true | _ => false end.

(** [isinstance(n, (nd.CodeNode, nd.AccessNode))] *)
Definition is_code_or_access (n : Node) : bool :=
  isinstance_CodeNode n || isinstance_AccessNode n.
(** [isinstance(n, (nd.EntryNode, nd.ExitNode))] *)
Definition is_scope_node (n : Node) : bool :=
  isinstance_EntryNode n || isinstance_ExitNode n.

Section WithSubsets.

(** Index sets ([dace.subsets.Subset]) are kept abstract. *)
Context {Subset : Type} `{EqDecision Subset}.

(** A memlet, as far as this module reads it: the container name
    ([None] for an empty memlet), the subset, the subsets on the source and
    destination side, and the answer of [is_empty()]. *)
Record Memlet := mkMemlet {
  m_data : option string;
  subset : Subset;
  src_subset : Subset;
  dst_subset : Subset;
  is_empty : bool
}.

#[global] Instance Memlet_eq_dec : EqDecision Memlet.
Proof. solve_decision. Defined.

(** [MultiConnectorEdge[Memlet]]; [eid] is the object identity. *)
Record Edge := mkEdge {
  eid : nat;
  src : Node;
  src_conn : option string;
  dst : Node;
  dst_conn : option string;
  memlet : Memlet
}.

#[global] Instance Edge_eq_dec : EqDecision Edge.
Proof. solve_decision. Defined.

(** The node and edge store of an [OrderedMultiDiConnectorGraph], in
    insertion order. *)
Record Graph := mkGraph {
  nodes : list Node;
  edges : list Edge
}.

#[global] Instance Graph_eq_dec : EqDecision Graph.
Proof. solve_decision. Defined.

Definition in_edges (g : Graph) (n : Node) : list Edge :=
  filter (λ e, dst e = n) (edges g).
Definition out_edges (g : Graph) (n : Node) : list Edge :=
  filter (λ e, src e = n) (edges g).

(** [next(e for e in l if p(e))] *)
Definition next {A} (p : A → bool) (l : list A) : result A :=
  match List.find p l with
  | Some a => Ok a
  | None => Raise StopIteration
  end.

Definition conn_is (c : option string) (s : string) : bool :=
  bool_decide (c = Some s).

(** *** [memlet_path] *)

(** First loop of [memlet_path]: prepend incoming edges until the source
    is a code or access node. *)
Fixpoint trace_to_source (fuel : nat) (state : Graph) (curedge : Edge)
    (visited : list Edge) (path : list Edge) : result (list Edge) :=
  if is_code_or_access (src curedge) then Ok path
  else match fuel with
  | 0 => OutOfFuel
  | S fuel' =>
    let visited := curedge :: visited in
    if is_scope_node (src curedge) then
      match src_conn curedge with
      | None => Raise (ValueError "Source connector cannot be None")
      | Some c =>
        if negb (startswith c "OUT_") then Raise AssertionError
        else
          next_edge ← next (λ e, conn_is (dst_conn e) ("IN_" +:+ string_drop 4 c))
                           (in_edges state (src curedge));
          if bool_decide (next_edge ∈ visited)
          then Raise (ValueError "Cycle encountered while reading memlet path")
          else trace_to_source fuel' state next_edge visited (next_edge :: path)
      end
    else trace_to_source fuel' state curedge visited path
  end.

(** Second loop of [memlet_path]: append outgoing edges until the
    destination is a code or access node, or a scope node is entered
    through a connector that is not an [IN_] connector. *)
Fixpoint trace_to_sink (fuel : nat) (state : Graph) (curedge : Edge)
    (visited : list Edge) (path : list Edge) : result (list Edge) :=
  if is_code_or_access (dst curedge) then Ok path
  else match fuel with
  | 0 => OutOfFuel
  | S fuel' =>
    let visited := curedge :: visited in
    if is_scope_node (dst curedge) then
      match dst_conn curedge with
      | None => Raise (ValueError "Destination connector cannot be None")
      | Some c =>
        if negb (startswith c "IN_") then Ok path
        else
          next_edge ← next (λ e, conn_is (src_conn e) ("OUT_" +:+ string_drop 3 c))
                           (out_edges state (dst curedge));
          if bool_decide (next_edge ∈ visited)
          then Raise (ValueError "Cycle encountered while reading memlet path")
          else trace_to_sink fuel' state next_edge visited (path ++ [next_edge])
      end
    else trace_to_sink fuel' state curedge visited path
  end.

(** [edge.src_conn is None and edge.dst_conn is None and edge.data.is_empty()] *)
Definition is_bare_empty (e : Edge) : bool :=
  bool_decide (src_conn e = None) && bool_decide (dst_conn e = None)
  && is_empty (memlet e).

Definition memlet_path_fuel (fuel : nat) (state : Graph) (edge : Edge)
  : result (list Edge) :=
  let path := [edge] in
  if is_bare_empty edge then Ok path
  else
    path ← trace_to_source fuel state edge [] path;
    trace_to_sink fuel state edge [] path.

(** Every iteration of either loop puts a new edge of the state (or the
    argument itself) into [visited], so one more than the number of edges
    is enough fuel: see [memlet_path_terminates]. *)
Definition memlet_path (state : Graph) (edge : Edge) : result (list Edge) :=
  memlet_path_fuel (S (length (edges state))) state edge.

(** What the second loop of [memlet_path] stops at: an edge into a code or
    access node, or into a scope node through a connector without the
    [IN_] prefix. *)
Definition sink_reached (e : Edge) : Prop :=
  is_code_or_access (dst e) = true
  ∨ (is_scope_node (dst e) = true
     ∧ ∃ c, dst_conn e = Some c ∧ startswith c "IN_" = false).

(** Two consecutive edges of a memlet path: the first enters a scope
    node through [IN_<k>], the second leaves that node through
    [OUT_<k>]. *)
Definition linked (a b : Edge) : Prop :=
  dst a = src b ∧ is_scope_node (dst a) = true
  ∧ ∃ k, dst_conn a = Some ("IN_" +:+ k) ∧ src_conn b = Some ("OUT_" +:+ k).

Fixpoint chained (path : list Edge) : Prop :=
  match path with
  | a :: ((b :: _) as rest) => linked a b ∧ chained rest
  | _ => True
  end.

(** *** Well-formed states

    The connector naming invariant that path and tree tracing rely on
    (section 3 of the specification), as checks on a state. *)

(** An edge that leaves a scope node does so through an [OUT_] connector
    that has a matching [IN_] connector with an incoming edge, and an
    edge that enters a scope node through an [IN_] connector has a
    matching outgoing edge; only an entry node has other input
    connectors (the ranges of a map); an edge that touches a scope node
    without a connector is a bare empty memlet. *)
Definition edge_connectors_ok (state : Graph) (e : Edge) : bool :=
  (if is_scope_node (src e) then
     match src_conn e with
     | None => is_bare_empty e
     | Some c =>
       startswith c "OUT_"
       && existsb (λ e', conn_is (dst_conn e') ("IN_" +:+ string_drop 4 c))
                  (in_edges state (src e))
     end
   else true)
  && (if is_scope_node (dst e) then
        match dst_conn e with
        | None => is_bare_empty e
        | Some c =>
          if startswith c "IN_" then
            existsb (λ e', conn_is (src_conn e') ("OUT_" +:+ string_drop 3 c))
                    (out_edges state (dst e))
          else isinstance_EntryNode (dst e)
        end
      else true).

Definition scope_connectors_ok (state : Graph) : bool :=
  forallb (edge_connectors_ok state) (edges state).

(** [rank] orders the nodes topologically: the state is acyclic. *)
Definition topological (rank : Node → nat) (state : Graph) : bool :=
  forallb (λ e, rank (src e) <? rank (dst e))%nat (edges state).

(** Every hop of a trace has exactly one candidate: the path through any
    edge is unambiguous. *)
Definition edge_unambiguous (state : Graph) (e : Edge) : bool :=
  (if is_scope_node (src e) then
     match src_conn e with
     | None => true
     | Some c =>
       bool_decide (length (List.filter
         (λ e', conn_is (dst_conn e') ("IN_" +:+ string_drop 4 c))
         (in_edges state (src e))) = 1)
     end
   else true)
  && (if is_scope_node (dst e) then
        match dst_conn e with
        | None => true
        | Some c =>
          if startswith c "IN_" then
            bool_decide (length (List.filter
              (λ e', conn_is (src_conn e') ("OUT_" +:+ string_drop 3 c))
              (out_edges state (dst e))) = 1)
          else true
        end
      else true).

Definition unambiguous (state : Graph) : bool :=
  forallb (edge_unambiguous state) (edges state).

(** *** [memlet_tree] *)

(** [dace.memlet.MemletTree].  The Python object also points to its parent;
    here a node is handed out together with the root it hangs from
    ([TreeRef] below), which determines the parent chain. *)
Unset Elimination Schemes.
Inductive MemletTree := MT {
  edge : Edge;
  downwards : bool;
  children : list MemletTree
}.
Set Elimination Schemes.

(** [mm.MemletTree(edge)]: the constructor's defaults are
    [downwards=True], no parent, no children. *)
Definition MemletTree_of (e : Edge) : MemletTree := MT e true [].

Record TreeRef := mkTreeRef {
  tree_root : MemletTree;
  tree_node : option MemletTree
}.

(** Truthiness of an optional string: [None] and [''] are false. *)
Definition truthy (c : option string) : bool :=
  match c with
  | Some s => negb (bool_decide (s = ""))
  | None => false
  end.

Definition conn_startswith (c : option string) (p : string) : bool :=
  match c with
  | Some s => startswith s p
  | None => false
  end.

Definition conn_drop (n : nat) (c : option string) : string :=
  match c with
  | Some s => string_drop n s
  | None => ""
  end.

Definition propagate_forward (e : Edge) : bool :=
  (isinstance_EntryNode (src e) && bool_decide (src_conn e ≠ None))
  || (isinstance_EntryNode (dst e) && bool_decide (dst_conn e ≠ None)
      && conn_startswith (dst_conn e) "IN_").

Definition propagate_backward (e : Edge) : bool :=
  (isinstance_ExitNode (src e) && bool_decide (src_conn e ≠ None))
  || (isinstance_ExitNode (dst e) && bool_decide (dst_conn e ≠ None)).

(** "Find tree root", forward case. *)
Fixpoint find_root_forward (fuel : nat) (state : Graph) (curedge : Edge)
    (visited : list Edge) : result Edge :=
  if isinstance_EntryNode (src curedge) && bool_decide (src_conn curedge ≠ None)
  then match fuel with
  | 0 => OutOfFuel
  | S fuel' =>
    let visited := curedge :: visited in
    if negb (conn_startswith (src_conn curedge) "OUT_") then Raise AssertionError
    else
      let cname := conn_drop 4 (src_conn curedge) in
      next_edge ← next (λ e, conn_is (dst_conn e) ("IN_" +:+ cname))
                       (in_edges state (src curedge));
      if bool_decide (next_edge ∈ visited)
      then Raise (ValueError "Cycle encountered while reading memlet path")
      else find_root_forward fuel' state next_edge visited
  end
  else Ok curedge.

(** "Find tree root", backward case. *)
Fixpoint find_root_backward (fuel : nat) (state : Graph) (curedge : Edge)
    (visited : list Edge) : result Edge :=
  if isinstance_ExitNode (dst curedge) && bool_decide (dst_conn curedge ≠ None)
  then match fuel with
  | 0 => OutOfFuel
  | S fuel' =>
    let visited := curedge :: visited in
    if negb (conn_startswith (dst_conn curedge) "IN_") then Raise AssertionError
    else
      let cname := conn_drop 3 (dst_conn curedge) in
      next_edge ← next (λ e, conn_is (src_conn e) ("OUT_" +:+ cname))
                       (out_edges state (dst curedge));
      if bool_decide (next_edge ∈ visited)
      then Raise (ValueError "Cycle encountered while reading memlet path")
      else find_root_backward fuel' state next_edge visited
  end
  else Ok curedge.

Fixpoint result_mapM {A B} (f : A → result B) (l : list A) : result (list B) :=
  match l with
  | [] => Ok []
  | a :: l' => b ← f a; bs ← result_mapM f l'; Ok (b :: bs)
  end.

(** The sibling edges below a tree node: the edges that leave the scope
    node through [OUT_<conn>] (forward), or enter it through [IN_<conn>]
    (backward). *)
Definition forward_siblings (state : Graph) (e : Edge) : list Edge :=
  List.filter (λ e', conn_is (src_conn e') ("OUT_" +:+ conn_drop 3 (dst_conn e)))
              (out_edges state (dst e)).
Definition backward_siblings (state : Graph) (e : Edge) : list Edge :=
  List.filter (λ e', conn_is (dst_conn e') ("IN_" +:+ conn_drop 4 (src_conn e)))
              (in_edges state (src e)).

(** The local function [add_children]: it fills in [treenode.children] and
    recurses into each child.  The Python recursion has no visited set; the
    fuel bounds its depth. *)
Fixpoint add_children (fuel : nat) (state : Graph) (fwd bwd : bool)
    (treenode : MemletTree) : result MemletTree :=
  match fuel with
  | 0 => OutOfFuel
  | S fuel' =>
    let e := edge treenode in
    if fwd then
      if negb (isinstance_EntryNode (dst e) && truthy (dst_conn e)
               && conn_startswith (dst_conn e) "IN_")
      then Ok treenode
      else
        cs ← result_mapM (add_children fuel' state fwd bwd)
                         (map (λ e', MT e' true []) (forward_siblings state e));
        Ok (MT e (downwards treenode) cs)
    else if bwd then
      if negb (isinstance_ExitNode (src e)) || bool_decide (src_conn e = None)
      then Ok treenode
      else
        cs ← result_mapM (add_children fuel' state fwd bwd)
                         (map (λ e', MT e' false []) (backward_siblings state e));
        Ok (MT e (downwards treenode) cs)
    else
      cs ← result_mapM (add_children fuel' state fwd bwd) (children treenode);
      Ok (MT e (downwards treenode) cs)
  end.

(** The local function [traverse]: the first node, in preorder, that holds
    the edge. *)
Fixpoint traverse (e : Edge) (node : MemletTree) : option MemletTree :=
  if bool_decide (edge node = e) then Some node
  else
    (fix go (cs : list MemletTree) : option MemletTree :=
       match cs with
       | [] => None
       | c :: cs' =>
         match traverse e c with
         | Some r => Some r
         | None => go cs'
         end
       end) (children node).

Definition memlet_tree_fuel (fuel : nat) (state : Graph) (e : Edge)
  : result TreeRef :=
  let fwd := propagate_forward e in
  let bwd := propagate_backward e in
  if bool_decide (fwd = bwd)
  then Ok (mkTreeRef (MemletTree_of e) (Some (MemletTree_of e)))
  else
    curedge ← (if fwd then find_root_forward fuel state e []
               else if bwd then find_root_backward fuel state e []
               else Ok e);
    tree_root ← add_children fuel state fwd bwd (MT curedge fwd []);
    Ok (mkTreeRef tree_root (traverse e tree_root)).

Definition memlet_tree (state : Graph) (e : Edge) : result TreeRef :=
  memlet_tree_fuel (S (S (length (edges state)))) state e.

(** What [add_children] puts below the node of the edge [x]: the
    siblings that share the connector id of [x] on the far side of the
    scope node, when [x] meets a scope node through a connector, and
    nothing otherwise. *)
Definition scope_children_of (state : Graph) (fwd : bool) (x : Edge) : list Edge :=
  if fwd then
    if isinstance_EntryNode (dst x) && truthy (dst_conn x)
       && conn_startswith (dst_conn x) "IN_"
    then forward_siblings state x else []
  else
    if isinstance_ExitNode (src x) && bool_decide (src_conn x ≠ None)
    then backward_siblings state x else [].

(** The root searches stop at an edge that no scope node hands on. *)
Definition outermost (fwd : bool) (x : Edge) : Prop :=
  if fwd
  then isinstance_EntryNode (src x) && bool_decide (src_conn x ≠ None) = false
  else isinstance_ExitNode (dst x) && bool_decide (dst_conn x ≠ None) = false.

(** A connector of a scope node is fed by at most one edge: at most one
    edge enters an entry node through the [IN_] connector that [y] leaves
    by (forward), at most one edge leaves an exit node through the [OUT_]
    connector that [y] enters by (backward). *)
Definition unique_parent (state : Graph) (fwd : bool) (y : Edge) : bool :=
  if fwd then
    if isinstance_EntryNode (src y) then
      match src_conn y with
      | Some c =>
        bool_decide (length (List.filter
          (λ t, conn_is (dst_conn t) ("IN_" +:+ string_drop 4 c))
          (in_edges state (src y))) ≤ 1)
      | None => true
      end
    else true
  else
    if isinstance_ExitNode (dst y) then
      match dst_conn y with
      | Some c =>
        bool_decide (length (List.filter
          (λ t, conn_is (src_conn t) ("OUT_" +:+ string_drop 3 c))
          (out_edges state (dst y))) ≤ 1)
      | None => true
      end
    else true.

Definition unique_parents (state : Graph) (fwd : bool) : bool :=
  forallb (unique_parent state fwd) (edges state).

(** The tree that grows from the node [t] when every node is given the
    children [kids] of its edge: the shape of what [add_children]
    builds. *)
Fixpoint unfold_tree (fuel : nat) (kids : Edge → list Edge) (d0 : bool)
    (t : MemletTree) : result MemletTree :=
  match fuel with
  | 0 => OutOfFuel
  | S fuel' =>
    cs ← result_mapM (unfold_tree fuel' kids d0)
                     (map (λ e', MT e' d0 []) (kids (edge t)));
    Ok (MT (edge t) (downwards t) cs)
  end.

(** [y] is reached from [x] by going to children. *)
Inductive descends (kids : Edge → list Edge) (x : Edge) : Edge → Prop :=
| descends_refl : descends kids x x
| descends_step p y : descends kids x p → y ∈ kids p → descends kids x y.

(** All edges of a tree, in preorder (the order of [MemletTree.__iter__]
    from the root). *)
Fixpoint tree_edges (t : MemletTree) : list Edge :=
  edge t :: (fix go (cs : list MemletTree) : list Edge :=
               match cs with
               | [] => []
               | c :: cs' => tree_edges c ++ go cs'
               end) (children t).

(** All nodes of a tree, in preorder. *)
Fixpoint tree_nodes (t : MemletTree) : list MemletTree :=
  t :: (fix go (cs : list MemletTree) : list MemletTree :=
          match cs with
          | [] => []
          | c :: cs' => tree_nodes c ++ go cs'
          end) (children t).

(** *** The state object and its scope caches *)

(** [dace.sdfg.scope.ScopeTree], by its entry and exit node, the entry of
    the parent scope and the entries of the child scopes. *)
Record ScopeTree := mkScopeTree {
  st_entry : option Node;
  st_exit : option Node;
  st_parent : option (option Node);
  st_children : list (option Node)
}.

Record SDFGState := mkState {
  label : string;
  graph : Graph;
  _scope_dict_toparent_cached : option (gmap Node (option Node));
  _scope_dict_tochildren_cached : option (gmap (option Node) (list Node));
  _scope_tree_cached : option (gmap (option Node) ScopeTree);
  _scope_leaves_cached : option (list ScopeTree)
}.

Definition _clear_scopedict_cache (self : SDFGState) : SDFGState :=
  {| label := label self;
     graph := graph self;
     _scope_dict_toparent_cached := None;
     _scope_dict_tochildren_cached := None;
     _scope_tree_cached := None;
     _scope_leaves_cached := None |}.

(** All four scope caches are empty. *)
Definition caches_clear (self : SDFGState) : Prop :=
  _scope_dict_toparent_cached self = None
  ∧ _scope_dict_tochildren_cached self = None
  ∧ _scope_tree_cached self = None
  ∧ _scope_leaves_cached self = None.

Definition with_graph (self : SDFGState) (g : Graph) : SDFGState :=
  {| label := label self;
     graph := g;
     _scope_dict_toparent_cached := _scope_dict_toparent_cached self;
     _scope_dict_tochildren_cached := _scope_dict_tochildren_cached self;
     _scope_tree_cached := _scope_tree_cached self;
     _scope_leaves_cached := _scope_leaves_cached self |}.

(** Modelled from the spec: the ordered multigraph store that [SDFGState]
    inherits ([dace/sdfg/graph.py] is not among the sources).  Section 3
    describes a multigraph of nodes and data-movement edges; nodes and
    edges are kept in insertion order, an edge insertion makes a new edge
    object and registers its endpoints, a node removal takes the incident
    edges along. *)
Definition graph_add_node (g : Graph) (n : Node) : Graph :=
  if bool_decide (n ∈ nodes g) then g else mkGraph (nodes g ++ [n]) (edges g).

Definition graph_remove_node (g : Graph) (n : Node) : Graph :=
  mkGraph (filter (λ n', n' ≠ n) (nodes g))
          (filter (λ e, src e ≠ n ∧ dst e ≠ n) (edges g)).

Definition fresh_eid (g : Graph) : nat :=
  S (foldr Nat.max 0 (map eid (edges g))).

Definition graph_add_edge (g : Graph) (u : Node) (u_connector : option string)
    (v : Node) (v_connector : option string) (m : Memlet) : Edge * Graph :=
  let e := mkEdge (fresh_eid g) u u_connector v v_connector m in
  let g' := graph_add_node (graph_add_node g u) v in
  (e, mkGraph (nodes g') (edges g' ++ [e])).

Definition graph_remove_edge (g : Graph) (e : Edge) : Graph :=
  mkGraph (nodes g) (filter (λ e', e' ≠ e) (edges g)).

Definition number_of_nodes (g : Graph) : nat := length (nodes g).
Definition in_degree (g : Graph) (n : Node) : nat := length (in_edges g n).
Definition out_degree (g : Graph) (n : Node) : nat := length (out_edges g n).
Definition source_nodes (g : Graph) : list Node :=
  filter (λ n, in_degree g n = 0) (nodes g).

(** The mutation methods of [SDFGState].  The [isinstance] checks that
    raise [TypeError] are discharged by the types of the arguments; the
    connector tables of the endpoint objects and the back-pointers of a
    nested SDFG are attributes of the node objects, outside this record. *)
Definition add_node (self : SDFGState) (node : Node) : SDFGState :=
  let self := _clear_scopedict_cache self in
  with_graph self (graph_add_node (graph self) node).

Definition remove_node (self : SDFGState) (node : Node) : SDFGState :=
  let self := _clear_scopedict_cache self in
  with_graph self (graph_remove_node (graph self) node).

Definition add_edge (self : SDFGState) (u : Node) (u_connector : option string)
    (v : Node) (v_connector : option string) (m : Memlet) : Edge * SDFGState :=
  let self := _clear_scopedict_cache self in
  let '(e, g) := graph_add_edge (graph self) u u_connector v v_connector m in
  (e, with_graph self g).

Definition remove_edge (self : SDFGState) (e : Edge) : SDFGState :=
  let self := _clear_scopedict_cache self in
  with_graph self (graph_remove_edge (graph self) e).

Definition remove_edge_and_connectors (self : SDFGState) (e : Edge) : SDFGState :=
  let self := _clear_scopedict_cache self in
  with_graph self (graph_remove_edge (graph self) e).

(** *** [scope_dict] and [scope_children] *)

Section Scopes.

(** The traversal [dace.sdfg.scope._scope_dict_inner] and the cycle search
    [find_cycles] are not among the sources; they are parameters.  The
    traversal is given the graph and the queue of source nodes and yields
    the queue of nodes it left over together with the dictionary it filled
    (node to parent, or scope to children).  [find_cycles] yields an
    iterable: [cycles_list] is [list(...)] of it, [cycles_truth] its truth
    value. *)
Context {Cycles : Type}.
Variable _scope_dict_inner_toparent :
  Graph → list Node → list Node * gmap Node (option Node).
Variable _scope_dict_inner_tochildren :
  Graph → list Node → list Node * gmap (option Node) (list Node).
Variable find_cycles : Graph → Cycles.
Variable cycles_list : Cycles → list (list Node).
Variable cycles_truth : Cycles → bool.
(** [str()] of the values that the messages print. *)
Variable str_cycles : list (list Node) → string.
Variable str_queue : list Node → string.
Variable str_nodes : gset Node → string.
Variable str_scopes : gset (option Node) → string.

Definition found_cycles_msg (self : SDFGState) (cycles : list (list Node)) : string :=
  "Found cycles in state " +:+ label self +:+ ": " +:+ str_cycles cycles.

(** [scope_dict(return_ids=False, validate)]: the result and the state
    object afterwards. *)
Definition scope_dict (self : SDFGState) (validate : bool)
  : result (gmap Node (option Node)) * SDFGState :=
  match _scope_dict_toparent_cached self with
  | Some cached => (Ok cached, self)
  | None =>
    let node_queue := source_nodes (graph self) in
    let '(eq, res) := _scope_dict_inner_toparent (graph self) node_queue in
    if validate && bool_decide (length eq ≠ 0) then
      let cycles := cycles_list (find_cycles (graph self)) in
      if negb (bool_decide (cycles = [])) then
        (Raise (ValueError (found_cycles_msg self cycles)), self)
      else
        (Raise (RuntimeError ("Leftover nodes in queue: " +:+ str_queue eq)), self)
    else if validate && bool_decide (size res ≠ number_of_nodes (graph self)) then
      let cycles := cycles_list (find_cycles (graph self)) in
      if negb (bool_decide (cycles = [])) then
        (Raise (ValueError (found_cycles_msg self cycles)), self)
      else
        let leftover_nodes := list_to_set (nodes (graph self)) ∖ dom res in
        (Raise (RuntimeError ("Some nodes were not processed: "
                              +:+ str_nodes leftover_nodes)), self)
    else
      (Ok res,
       {| label := label self;
          graph := graph self;
          _scope_dict_toparent_cached := Some res;
          _scope_dict_tochildren_cached := _scope_dict_tochildren_cached self;
          _scope_tree_cached := _scope_tree_cached self;
          _scope_leaves_cached := _scope_leaves_cached self |})
  end.

(** [scope_children(return_ids=False, validate)]. *)
Definition scope_children (self : SDFGState) (validate : bool)
  : result (gmap (option Node) (list Node)) * SDFGState :=
  match _scope_dict_tochildren_cached self with
  | Some cached => (Ok cached, self)
  | None =>
    let node_queue := source_nodes (graph self) in
    let '(eq, res) := _scope_dict_inner_tochildren (graph self) node_queue in
    if validate && bool_decide (length eq ≠ 0) then
      let cycles := find_cycles (graph self) in
      if cycles_truth cycles then
        (Raise (ValueError (found_cycles_msg self (cycles_list cycles))), self)
      else
        (Raise (RuntimeError ("Leftover nodes in queue: " +:+ str_queue eq)), self)
    else
      let entry_nodes : gset (option Node) :=
        list_to_set (map Some (filter (λ n, isinstance_EntryNode n = true)
                                      (nodes (graph self)))) ∪ {[ None ]} in
      if validate && bool_decide (size res ≠ size entry_nodes) then
        let cycles := find_cycles (graph self) in
        if cycles_truth cycles then
          (Raise (ValueError (found_cycles_msg self (cycles_list cycles))), self)
        else
          (Raise (RuntimeError ("Some nodes were not processed: "
                                +:+ str_scopes (entry_nodes ∖ dom res))), self)
      else
        (Ok res,
         {| label := label self;
            graph := graph self;
            _scope_dict_toparent_cached := _scope_dict_toparent_cached self;
            _scope_dict_tochildren_cached := Some res;
            _scope_tree_cached := _scope_tree_cached self;
            _scope_leaves_cached := _scope_leaves_cached self |})
  end.

End Scopes.

(** *** [read_and_write_sets] *)

Section ReadWriteSets.

(** [a.covers(b)] of [dace.subsets], and the two graph utilities of
    [dace.sdfg.utils] that [_read_and_write_sets] calls, are parameters:
    [concurrent_subgraphs] yields the subgraph views of the state,
    [dfs_topological_sort] the nodes of a view in topological order from
    the given sources. *)
Variable covers : Subset → Subset → bool.
Variable concurrent_subgraphs : Graph → list Graph.
Variable dfs_topological_sort : Graph → list Node → list Node.

(** [l.remove(x)]: drops the first occurrence.  It is only called on an
    element of the list. *)
Fixpoint list_remove (x : Edge) (l : list Edge) : list Edge :=
  match l with
  | [] => []
  | y :: l' => if bool_decide (y = x) then l' else y :: list_remove x l'
  end.

(** The condition under which an incoming edge masks an outgoing one. *)
Definition written_by (in_edge out_edge : Edge) : bool :=
  bool_decide (m_data (memlet in_edge) = m_data (memlet out_edge))
  && covers (dst_subset (memlet in_edge)) (src_subset (memlet out_edge)).

(** The double loop that filters [out_edges] in place: an outgoing edge is
    removed at the first incoming edge that masks it. *)
Definition drop_masked (in_edges out_edges : list Edge) : list Edge :=
  fold_left (λ outs out_edge,
               if existsb (λ in_edge, written_by in_edge out_edge) in_edges
               then list_remove out_edge outs else outs)
            out_edges out_edges.

(** [d[k].append(v)] on a [defaultdict(list)]. *)
Definition dd_append (k : string) (v : Subset) (d : gmap string (list Subset))
  : gmap string (list Subset) :=
  <[k := default [] (d !! k) ++ [v]]> d.

(** [for e in es: if e.data.is_empty(): continue; d[n.data].append(e.data.subset)] *)
Definition record_accesses (n : Node) (es : list Edge)
    (d : gmap string (list Subset)) : gmap string (list Subset) :=
  fold_left (λ d e, if is_empty (memlet e) then d
                    else dd_append (data n) (subset (memlet e)) d)
            es d.

(** The body of the loop over the nodes of one subgraph. *)
Definition visit_node (sg : Graph) (n : Node)
    (acc : gmap string (list Subset) * gmap string (list Subset))
  : gmap string (list Subset) * gmap string (list Subset) :=
  let '(rs, ws) := acc in
  if isinstance_AccessNode n then
    let ins := in_edges sg n in
    let outs := drop_masked ins (out_edges sg n) in
    let ws := record_accesses n ins ws in
    let rs := record_accesses n outs rs in
    (rs, ws)
  else (rs, ws).

Definition subgraph_sets (sg : Graph)
  : gmap string (list Subset) * gmap string (list Subset) :=
  fold_left (λ acc n, visit_node sg n acc)
            (dfs_topological_sort sg (source_nodes sg)) (∅, ∅).

(** [for data, accesses in d.items(): total[data] += accesses] *)
Definition dd_extend (total d : gmap string (list Subset))
  : gmap string (list Subset) :=
  union_with (λ old accesses, Some (old ++ accesses)) total d.

Definition _read_and_write_sets (self : Graph)
  : gmap string (list Subset) * gmap string (list Subset) :=
  fold_left (λ '(read_set, write_set) sg,
               let '(rs, ws) := subgraph_sets sg in
               (dd_extend read_set rs, dd_extend write_set ws))
            (concurrent_subgraphs self) (∅, ∅).

Definition read_and_write_sets (self : Graph) : gset string * gset string :=
  let '(read_set, write_set) := _read_and_write_sets self in
  (dom read_set, dom write_set).




End ReadWriteSets.

(** *** [used_symbols] of a state *)

Section UsedSymbols.

(** What the nodes, the data descriptors and the memlets answer when
    asked for their symbols; these classes are not among the sources. *)
Variable sdfg_symbols : gset string.
Variable sdfg_constants : gset string.
(** [n.new_symbols(sdfg, self, {}).keys()] of an entry node *)
Variable new_symbols : Node → gset string.
(** [map(str, n.desc(sdfg).used_symbols(all_symbols))] of an access node *)
Variable desc_used_symbols : Node → bool → gset string.
(** tasklets: the language, the names called in Python code, and
    [symbolic.symbols_in_code] of other code given the symbols to look
    for *)
Variable language_is_Python : Node → bool.
Variable called_names : Node → gset string.
Variable symbols_in_code : Node → gset string → gset string.
(** [n.used_symbols(all_symbols)] if the node has the method, else
    [n.free_symbols] *)
Variable node_used_symbols : Node → bool → gset string.
(** [e.data.used_symbols(all_symbols, e)] *)
Variable memlet_used_symbols : Edge → bool → gset string.

Definition is_leaf_memlet (e : Edge) : bool :=
  if isinstance_ExitNode (src e) && truthy (src_conn e)
     && conn_startswith (src_conn e) "OUT_" then false
  else if isinstance_EntryNode (dst e) && truthy (dst_conn e)
          && conn_startswith (dst_conn e) "IN_" then false
  else true.

(** One round of the loop over the nodes: the pair is
    [(new_symbols, freesyms)]. *)
Definition node_symbols (all_symbols : bool) (n : Node)
    (acc : gset string * gset string) : gset string * gset string :=
  let '(new_syms, freesyms) := acc in
  match cls n with
  | EntryNode =>
    (new_syms ∪ new_symbols n, freesyms ∪ node_used_symbols n all_symbols)
  | AccessNode =>
    (new_syms,
     freesyms ∪ desc_used_symbols n all_symbols ∪ node_used_symbols n all_symbols)
  | Tasklet =>
    if language_is_Python n then
      (new_syms,
       freesyms ∪ (called_names n ∩ sdfg_symbols) ∪ node_used_symbols n all_symbols)
    else
      (new_syms, freesyms ∪ symbols_in_code n sdfg_symbols)
  | _ => (new_syms, freesyms ∪ node_used_symbols n all_symbols)
  end.

Definition edge_symbols (self : Graph) (all_symbols : bool) (e : Edge)
    (freesyms : gset string) : gset string :=
  if negb all_symbols && negb (is_leaf_memlet e) then freesyms
  else freesyms ∪ memlet_used_symbols e all_symbols.

Definition used_symbols (self : Graph) (all_symbols : bool) : gset string :=
  let '(new_syms, freesyms) :=
    fold_left (λ acc n, node_symbols all_symbols n acc) (nodes self) (∅, ∅) in
  let freesyms :=
    fold_left (λ fs e, edge_symbols self all_symbols e fs) (edges self) freesyms in
  let new_syms := new_syms ∪ sdfg_constants in
  freesyms ∖ new_syms.

End UsedSymbols.

End WithSubsets.

Arguments Memlet : clear implicits.
Arguments Edge : clear implicits.
Arguments Graph : clear implicits.
Arguments MemletTree : clear implicits.
Arguments TreeRef : clear implicits.
Arguments SDFGState : clear implicits.

End Dataflow.

(** ** Control-flow regions *)

Module ControlFlow.

(** *** Code blocks and inter-state edges *)

(** Python expressions and statements, as far as loop headers use them. *)
Inductive expr :=
| Num (n : Z)
| Name (id : string)
| BinOp (left : expr) (op : string) (right : expr)
| Compare (left : expr) (op : string) (right : expr)
| UnaryNot (operand : expr).

#[global] Instance expr_eq_dec : EqDecision expr.
Proof. solve_decision. Defined.

(** The first target of an assignment: a name, or anything else
    (a subscript, an attribute, a tuple). *)
Inductive assign_target :=
| TName (id : string)
| TOther.

Inductive stmt :=
| Assign (target : assign_target) (value : expr)
| AugAssign (target : assign_target) (op : string) (value : expr)
| Expr (value : expr)
| Pass.

(** [CodeBlock.code]: a list of statements for Python code, a string for
    any other language. *)
Inductive CodeBlock :=
| PyCode (stmts : list stmt)
| TextCode (text : string).

(** An [InterstateEdge]: the condition, and the assignments keyed by the
    assigned symbol.  An assigned value is kept as the expression that
    [astutils.unparse] prints. *)
Record InterstateEdge := mkInterstateEdge {
  condition : expr;
  assignments : gmap string expr
}.

(** [dace.InterstateEdge()]: the condition [1], no assignments. *)
Definition InterstateEdge_default : InterstateEdge :=
  mkInterstateEdge (Num 1) ∅.

(** Modelled from the spec: [astutils.negate_expr], which
    [dace/frontend/python/astutils.py] defines; section 4.3 has the guard
    leave the loop "under its negation". *)
Definition negate_expr (e : expr) : expr := UnaryNot e.

(** *** Blocks *)

(** What a state answers to [used_symbols(all_symbols)], for both values
    of the flag. *)
Record StateSymbols := mkStateSymbols {
  used_all : gset string;
  used_args : gset string
}.

Record LoopAttrs := mkLoopAttrs {
  init_statement : option CodeBlock;
  update_statement : option CodeBlock;
  loop_condition : expr;
  inverted : bool;
  loop_variable : string
}.

(** The classes of regions.  An [SDFG] carries its symbol table and, when
    it is nested, the keys of the symbol mapping of its node. *)
Inductive region_class :=
| SDFG (symbols : gset string) (symbol_mapping : option (gset string))
| ControlFlowRegion
| LoopRegion (attrs : LoopAttrs).

(** An edge object of a region; the endpoints are block identities. *)
Record Edge := mkEdge {
  eid : nat;
  e_src : nat;
  e_dst : nat;
  e_data : InterstateEdge
}.

#[global] Instance InterstateEdge_eq_dec : EqDecision InterstateEdge.
Proof. solve_decision. Defined.

#[global] Instance Edge_eq_dec : EqDecision Edge.
Proof. solve_decision. Defined.

(** A region object over blocks of type [B]: identity, label, class, the
    blocks and edges in insertion order, the label cache, the index of a
    manually chosen start block, and the cached start block (by
    identity). *)
Record region_of (B : Type) := mkRegion {
  r_bid : nat;
  r_label : string;
  r_cls : region_class;
  nodes : list B;
  edges : list Edge;
  _labels : gset string;
  _start_block : option nat;
  _cached_start_block : option nat
}.
Arguments mkRegion {B}.
Arguments r_bid {B}.
Arguments r_label {B}.
Arguments r_cls {B}.
Arguments nodes {B}.
Arguments edges {B}.
Arguments _labels {B}.
Arguments _start_block {B}.
Arguments _cached_start_block {B}.

Unset Elimination Schemes.
Inductive ControlFlowBlock :=
| SDFGState (bid : nat) (label : string) (syms : StateSymbols)
| BreakBlock (bid : nat) (label : string)
| ContinueBlock (bid : nat) (label : string)
| ReturnBlock (bid : nat) (label : string)
| RegionBlock (r : region_of ControlFlowBlock).
Set Elimination Schemes.

Abbreviation Region := (region_of ControlFlowBlock).

Definition block_id (b : ControlFlowBlock) : nat :=
  match b with
  | SDFGState i _ _ | BreakBlock i _ | ContinueBlock i _ | ReturnBlock i _ => i
  | RegionBlock r => r_bid r
  end.

Definition block_label (b : ControlFlowBlock) : string :=
  match b with
  | SDFGState _ l _ | BreakBlock _ l | ContinueBlock _ l | ReturnBlock _ l => l
  | RegionBlock r => r_label r
  end.

Definition with_nodes_edges (r : Region) (ns : list ControlFlowBlock)
    (es : list Edge) : Region :=
  mkRegion (r_bid r) (r_label r) (r_cls r) ns es
           (_labels r) (_start_block r) (_cached_start_block r).

Definition with_labels (r : Region) (ls : gset string) : Region :=
  mkRegion (r_bid r) (r_label r) (r_cls r) (nodes r) (edges r)
           ls (_start_block r) (_cached_start_block r).

Definition with_start (r : Region) (sb cached : option nat) : Region :=
  mkRegion (r_bid r) (r_label r) (r_cls r) (nodes r) (edges r)
           (_labels r) sb cached.

(** [node.label = l] *)
Definition set_label (b : ControlFlowBlock) (l : string) : ControlFlowBlock :=
  match b with
  | SDFGState i _ s => SDFGState i l s
  | BreakBlock i _ => BreakBlock i l
  | ContinueBlock i _ => ContinueBlock i l
  | ReturnBlock i _ => ReturnBlock i l
  | RegionBlock r =>
    RegionBlock (mkRegion (r_bid r) l (r_cls r) (nodes r) (edges r)
                          (_labels r) (_start_block r) (_cached_start_block r))
  end.

Definition isinstance_SDFG (r : Region) : bool :=
  match r_cls r with SDFG _ _ => true | _ => false end.
Definition isinstance_LoopRegion (r : Region) : bool :=
  match r_cls r with LoopRegion _ => true | _ => false end.
Definition isinstance_ReturnBlock (b : ControlFlowBlock) : bool :=
  match b with ReturnBlock _ _ => true | _ => false end.
Definition isinstance_BreakBlock (b : ControlFlowBlock) : bool :=
  match b with BreakBlock _ _ => true | _ => false end.
Definition isinstance_ContinueBlock (b : ControlFlowBlock) : bool :=
  match b with ContinueBlock _ _ => true | _ => false end.

(** *** The graph store of a region *)

(** Modelled from the spec: the ordered directed graph that
    [ControlFlowRegion] inherits ([OrderedDiGraph] of [dace/sdfg/graph.py],
    not among the sources).  Section 3 describes "a directed graph of
    control blocks connected by inter-state edges"; blocks and edges are
    kept in insertion order, a block removal takes the incident edges
    along, and none of these generic operations knows of the caches of a
    region. *)
Definition in_edges (g : Region) (b : nat) : list Edge :=
  filter (λ e, e_dst e = b) (edges g).
Definition out_edges (g : Region) (b : nat) : list Edge :=
  filter (λ e, e_src e = b) (edges g).
Definition in_degree (g : Region) (b : nat) : nat := length (in_edges g b).
Definition out_degree (g : Region) (b : nat) : nat := length (out_edges g b).
Definition number_of_nodes (g : Region) : nat := length (nodes g).
Definition source_nodes (g : Region) : list ControlFlowBlock :=
  filter (λ b, in_degree g (block_id b) = 0) (nodes g).
(** [g.node(i)] *)
Definition node (g : Region) (i : nat) : result ControlFlowBlock :=
  match nodes g !! i with
  | Some b => Ok b
  | None => Raise IndexError
  end.
Definition fresh_eid (g : Region) : nat :=
  S (foldr Nat.max 0 (map eid (edges g))).
Definition graph_add_node (g : Region) (b : ControlFlowBlock) : Region :=
  with_nodes_edges g (nodes g ++ [b]) (edges g).
Definition graph_add_edge (g : Region) (src dst : nat) (d : InterstateEdge)
  : Region :=
  with_nodes_edges g (nodes g) (edges g ++ [mkEdge (fresh_eid g) src dst d]).
Definition remove_edge (g : Region) (e : Edge) : Region :=
  with_nodes_edges g (nodes g) (filter (λ e', eid e' ≠ eid e) (edges g)).
Definition remove_node (g : Region) (b : nat) : Region :=
  with_nodes_edges g (filter (λ b', block_id b' ≠ b) (nodes g))
                   (filter (λ e, e_src e ≠ b ∧ e_dst e ≠ b) (edges g)).

(** *** [start_block] *)

Definition dquote : string := String (Ascii.ascii_of_nat 34) EmptyString.

Definition ambiguous_start_block : string :=
  "Ambiguous or undefined starting block for ControlFlowGraph, "
  +:+ "please use " +:+ dquote +:+ "is_start_block=True" +:+ dquote
  +:+ " when adding the starting block with "
  +:+ dquote +:+ "add_state" +:+ dquote +:+ " or "
  +:+ dquote +:+ "add_node" +:+ dquote.

(** The getter: the block's identity, and the region with its cache. *)
Definition start_block (self : Region) : result nat * Region :=
  match _cached_start_block self with
  | Some b => (Ok b, self)
  | None =>
    match source_nodes self with
    | [b] => (Ok (block_id b), with_start self (_start_block self) (Some (block_id b)))
    | _ =>
      match _start_block self with
      | Some i =>
        match node self i with
        | Ok b => (Ok (block_id b), with_start self (_start_block self) (Some (block_id b)))
        | Raise e => (Raise e, self)
        | OutOfFuel => (OutOfFuel, self)
        end
      | None => (Raise (ValueError ambiguous_start_block), self)
      end
    end
  end.

(** The setter. *)
Definition set_start_block (self : Region) (block_id' : Z) : result Region :=
  if (block_id' <? 0)%Z || (Z.of_nat (number_of_nodes self) <=? block_id')%Z
  then Raise (ValueError "Invalid state ID")
  else
    b ← node self (Z.to_nat block_id');
    Ok (with_start self (Some (Z.to_nat block_id')) (Some (block_id b))).

(** *** A heap for the rewriting of graphs *)

(** The objects an inlining call works on: the graph that receives the
    blocks, and the identity of the next object to be created.  A call
    that raises leaves the graph as far as it had been rewritten. *)
Record Heap := mkHeap {
  graph : Region;
  next_id : nat
}.

Definition M (A : Type) : Type := Heap → result A * Heap.

#[global] Instance M_ret : MRet M := λ A a h, (Ok a, h).
#[global] Instance M_bind : MBind M := λ A B k m h,
  match m h with
  | (Ok a, h') => k a h'
  | (Raise e, h') => (Raise e, h')
  | (OutOfFuel, h') => (OutOfFuel, h')
  end.

Definition lift {A} (r : result A) : M A := λ h, (r, h).
Definition get_graph : M Region := λ h, (Ok (graph h), h).
Definition update (f : Region → Region) : M unit :=
  λ h, (Ok (), mkHeap (f (graph h)) (next_id h)).

(** [for a in l: body(a)]; an exception ends the loop. *)
Fixpoint for_each_from {A} (body : A → M unit) (l : list A) (h : Heap)
  : result unit * Heap :=
  match l with
  | [] => (Ok (), h)
  | a :: l' =>
    match body a h with
    | (Ok _, h') => for_each_from body l' h'
    | (Raise e, h') => (Raise e, h')
    | (OutOfFuel, h') => (OutOfFuel, h')
    end
  end.

Definition for_each {A} (l : list A) (body : A → M unit) : M unit :=
  for_each_from body l.

(** *** Adding blocks and edges *)

Section WithNames.

(** [dace.data.find_new_name(name, existing)] is not among the sources. *)
Variable find_new_name : string → gset string → string.

(** [_ensure_unique_block_name(proposed)]: the name, and the region with
    its label cache. *)
Definition _ensure_unique_block_name (self : Region) (proposed : option string)
  : string * Region :=
  let self :=
    if bool_decide (size (_labels self) ≠ number_of_nodes self)
    then with_labels self (list_to_set (map block_label (nodes self)))
    else self in
  let name := match proposed with
              | Some s => if bool_decide (s = "") then "block" else s
              | None => "block"
              end in
  (find_new_name name (_labels self), self).

(** [ControlFlowRegion.add_node]: the block as it was added (its label may
    have been made unique) and the region.  The index handed to the
    [start_block] setter is that of the block just appended, which is in
    range. *)
Definition add_node (self : Region) (node' : ControlFlowBlock)
    (is_start_block ensure_unique_name : bool) (is_start_state : option bool)
  : ControlFlowBlock * Region :=
  let '(node', self) :=
    if ensure_unique_name then
      let '(l, self) := _ensure_unique_block_name self (Some (block_label node')) in
      (set_label node' l, self)
    else (node', self) in
  let self := graph_add_node self node' in
  let self := with_start self (_start_block self) None in
  let start := match is_start_state with
               | Some b => b
               | None => is_start_block
               end in
  if start then
    (node', with_start self (Some (length (nodes self) - 1)) (Some (block_id node')))
  else (node', self).

(** [ControlFlowRegion.add_edge] *)
Definition add_edge (self : Region) (src dst : nat) (d : InterstateEdge)
  : Region :=
  let self :=
    if bool_decide (_cached_start_block self = Some dst)
    then with_start self (_start_block self) None
    else self in
  graph_add_edge self src dst d.

(** [SDFGState(label)]: a new, empty state. *)
Definition new_state (id : nat) (l : string) : ControlFlowBlock :=
  SDFGState id l (mkStateSymbols ∅ ∅).

(** [ControlFlowRegion.add_state]; [id] is the identity of the new
    object. *)
Definition add_state (self : Region) (l : option string)
    (is_start_block : bool) (is_start_state : option bool) (id : nat)
  : ControlFlowBlock * Region :=
  let '(l, self) := _ensure_unique_block_name self l in
  let state := new_state id l in
  let self := with_labels self ({[ l ]} ∪ _labels self) in
  let start := match is_start_state with
               | Some b => b
               | None => is_start_block
               end in
  add_node self state start false None.

(** Modelled from the spec: [dace.sdfg.InterstateEdge(condition,
    assignments)], the constructor of [dace/sdfg/sdfg.py]; section 3 has
    inter-state edges carry "a condition and symbol assignments", and an
    edge made without either is the unconditional edge without
    assignments. *)
Definition InterstateEdge_new (condition : option expr)
    (assignments : option (gmap string expr)) : InterstateEdge :=
  mkInterstateEdge (default (Num 1) condition) (default ∅ assignments).

(** [ControlFlowRegion.add_state_before]: [state] is the identity of the
    existing state, [id] that of the new one.  The incoming edges are
    those the state has when the loop starts. *)
Definition add_state_before (self : Region) (state : nat) (l : option string)
    (is_start_block : bool) (condition : option expr)
    (assignments : option (gmap string expr)) (is_start_state : option bool)
    (id : nat) : ControlFlowBlock * Region :=
  let '(new_state, self) := add_state self l is_start_block is_start_state id in
  let self :=
    foldl (λ self e,
             let self := remove_edge self e in
             add_edge self (e_src e) (block_id new_state) (e_data e))
          self (in_edges self state) in
  let self := add_edge self (block_id new_state) state
                       (InterstateEdge_new condition assignments) in
  (new_state, self).

(** [ControlFlowRegion.add_state_after] *)
Definition add_state_after (self : Region) (state : nat) (l : option string)
    (is_start_block : bool) (condition : option expr)
    (assignments : option (gmap string expr)) (is_start_state : option bool)
    (id : nat) : ControlFlowBlock * Region :=
  let '(new_state, self) := add_state self l is_start_block is_start_state id in
  let self :=
    foldl (λ self e,
             let self := remove_edge self e in
             add_edge self (block_id new_state) (e_dst e) (e_data e))
          self (out_edges self state) in
  let self := add_edge self state (block_id new_state)
                       (InterstateEdge_new condition assignments) in
  (new_state, self).

(** *** Inlining *)

(** [parent.add_state(label)] *)
Definition parent_add_state (l : string) : M nat := λ h,
  let '(b, g) := add_state (graph h) (Some l) false None (next_id h) in
  (Ok (block_id b), mkHeap g (S (next_id h))).

(** [parent.add_node(node, ensure_unique_name=True)] *)
Definition parent_add_node (b : ControlFlowBlock) : M ControlFlowBlock := λ h,
  let '(b', g) := add_node (graph h) b false true None in
  (Ok b', mkHeap g (next_id h)).

Definition parent_add_edge (src dst : nat) (d : InterstateEdge) : M unit :=
  update (λ g, add_edge g src dst d).

(** [m[b] if b in m else b] *)
Definition mapped (m : gmap nat nat) (b : nat) : nat := default b (m !! b).

(** [ControlFlowRegion.inline], for a region that has a parent graph (the
    graph of the heap).  The set [to_connect] is walked in insertion
    order. *)
Definition ControlFlowRegion_inline (self : Region) : M (bool * option nat) :=
  end_state ← parent_add_state (r_label self +:+ "_end");
  parent ← get_graph;
  let parent_is_sdfg := isinstance_SDFG parent in
  acc ← (fix loop (ns : list ControlFlowBlock) (to_connect : list nat)
             (block_to_state_map : gmap nat nat)
           : M (list nat * gmap nat nat) :=
           match ns with
           | [] => mret (to_connect, block_to_state_map)
           | n :: ns' =>
             let n := set_label n (r_label self +:+ "_" +:+ block_label n) in
             n ← parent_add_node n;
             if isinstance_ReturnBlock n && parent_is_sdfg then
               newnode ← parent_add_state (block_label n);
               loop ns' to_connect (<[block_id n := newnode]> block_to_state_map)
             else if bool_decide (out_degree self (block_id n) = 0) then
               loop ns' (to_connect ++ [block_id n]) block_to_state_map
             else loop ns' to_connect block_to_state_map
           end) (nodes self) [] ∅;
  let '(to_connect, block_to_state_map) := acc in
  _ ← for_each (edges self) (λ e,
         parent_add_edge (mapped block_to_state_map (e_src e))
                         (mapped block_to_state_map (e_dst e)) (e_data e));
  parent ← get_graph;
  _ ← for_each (in_edges parent (r_bid self)) (λ b_edge,
         sb ← lift (start_block self).1;
         _ ← parent_add_edge (e_src b_edge) sb (e_data b_edge);
         update (λ g, remove_edge g b_edge));
  parent ← get_graph;
  _ ← for_each (out_edges parent (r_bid self)) (λ a_edge,
         _ ← parent_add_edge end_state (e_dst a_edge) (e_data a_edge);
         update (λ g, remove_edge g a_edge));
  _ ← for_each to_connect (λ n, parent_add_edge n end_state InterstateEdge_default);
  _ ← update (λ g, remove_node g (r_bid self));
  mret (true, Some end_state).

(** [block] put back in place of the object of the same identity. *)
Definition replace_block (g : Region) (b : ControlFlowBlock) : Region :=
  with_nodes_edges g
    (map (λ b', if bool_decide (block_id b' = block_id b) then b else b') (nodes g))
    (edges g).

(** The local function [recursive_inline_cf_regions] of
    [LoopRegion.inline]: every nested region that is not a loop is first
    treated recursively and then inlined into [region].  The result is
    the region object after the walk and the next free identity. *)
Fixpoint recursive_inline_cf_regions (region : ControlFlowBlock) (next : nat)
  : result unit * ControlFlowBlock * nat :=
  match region with
  | RegionBlock r =>
    let '(res, h) :=
      for_each (nodes r) (λ block,
        match block with
        | RegionBlock br =>
          if isinstance_LoopRegion br then mret ()
          else λ h,
            let '(res, block', next') :=
              recursive_inline_cf_regions block (next_id h) in
            let h := mkHeap (replace_block (graph h) block') next' in
            match res, block' with
            | Ok _, RegionBlock br' =>
              (_ ← ControlFlowRegion_inline br'; mret ()) h
            | Ok _, _ => (Ok (), h)
            | Raise e, _ => (Raise e, h)
            | OutOfFuel, _ => (OutOfFuel, h)
            end
        | _ => mret ()
        end) (mkHeap r next) in
    (res, RegionBlock (graph h), next_id h)
  | _ => (Ok (), region, next)
  end.

Definition is_Assign (s : stmt) : bool :=
  match s with Assign _ _ => true | _ => false end.

(** The check on one statement block: it fails on the first statement of
    a Python block that is not an [ast.Assign]. *)
Definition only_assignments (c : option CodeBlock) : bool :=
  match c with
  | Some (PyCode stmts) => forallb is_Assign stmts
  | _ => true
  end.

(** [for stmt in code: edge.assignments[stmt.targets[0].id] = unparse(stmt.value)] *)
Definition statement_assignments (c : CodeBlock) : result (gmap string expr) :=
  match c with
  | PyCode stmts =>
    foldl (λ acc s,
             a ← acc;
             match s with
             | Assign (TName id) v => Ok (<[id := v]> a)
             | _ => Raise AttributeError
             end) (Ok ∅) stmts
  | TextCode t => if bool_decide (t = "") then Ok ∅ else Raise AttributeError
  end.

Definition header_edge (c : option CodeBlock) : result InterstateEdge :=
  match c with
  | Some c => a ← statement_assignments c; Ok (mkInterstateEdge (Num 1) a)
  | None => Ok InterstateEdge_default
  end.

(** The part of [LoopRegion.inline] that rewrites the parent (the graph
    of the heap), once the statements have been checked and the nested
    regions inlined into [self]. *)
Definition LoopRegion_restructure (self : Region) (attrs : LoopAttrs)
  : M (bool * option (nat * nat * nat)) :=
  init_state ← parent_add_state (r_label self +:+ "_init");
  guard_state ← parent_add_state (r_label self +:+ "_guard");
  end_state ← parent_add_state (r_label self +:+ "_end");
  loop_latch_state ← parent_add_state (r_label self +:+ "_latch");
  parent ← get_graph;
  let parent_is_sdfg := isinstance_SDFG parent in
  acc ← (fix loop (ns : list ControlFlowBlock) (connect_to_latch connect_to_end : list nat)
             (block_to_state_map : gmap nat nat)
           : M (list nat * list nat * gmap nat nat) :=
           match ns with
           | [] => mret (connect_to_latch, connect_to_end, block_to_state_map)
           | n :: ns' =>
             let n := set_label n (r_label self +:+ "_" +:+ block_label n) in
             if isinstance_BreakBlock n then
               newnode ← parent_add_state (block_label n);
               loop ns' connect_to_latch (connect_to_end ++ [newnode])
                    (<[block_id n := newnode]> block_to_state_map)
             else if isinstance_ContinueBlock n then
               newnode ← parent_add_state (block_label n);
               loop ns' (connect_to_latch ++ [newnode]) connect_to_end
                    (<[block_id n := newnode]> block_to_state_map)
             else if isinstance_ReturnBlock n && parent_is_sdfg then
               newnode ← parent_add_state (block_label n);
               loop ns' connect_to_latch connect_to_end
                    (<[block_id n := newnode]> block_to_state_map)
             else
               let connect_to_latch :=
                 if bool_decide (out_degree self (block_id n) = 0)
                 then connect_to_latch ++ [block_id n] else connect_to_latch in
               _ ← parent_add_node n;
               loop ns' connect_to_latch connect_to_end block_to_state_map
           end) (nodes self) [] [] ∅;
  let '(connect_to_latch, connect_to_end, block_to_state_map) := acc in
  _ ← for_each (edges self) (λ e,
         parent_add_edge (mapped block_to_state_map (e_src e))
                         (mapped block_to_state_map (e_dst e)) (e_data e));
  parent ← get_graph;
  _ ← for_each (in_edges parent (r_bid self)) (λ b_edge,
         _ ← parent_add_edge (e_src b_edge) init_state (e_data b_edge);
         update (λ g, remove_edge g b_edge));
  parent ← get_graph;
  _ ← for_each (out_edges parent (r_bid self)) (λ a_edge,
         _ ← parent_add_edge end_state (e_dst a_edge) (e_data a_edge);
         update (λ g, remove_edge g a_edge));
  init_edge ← lift (header_edge (init_statement attrs));
  _ ← (if inverted attrs then
         sb ← lift (start_block self).1;
         parent_add_edge init_state sb init_edge
       else parent_add_edge init_state guard_state init_edge);
  update_edge ← lift (header_edge (update_statement attrs));
  _ ← parent_add_edge loop_latch_state guard_state update_edge;
  let cond_expr := loop_condition attrs in
  _ ← parent_add_edge guard_state end_state
        (mkInterstateEdge (negate_expr cond_expr) ∅);
  sb ← lift (start_block self).1;
  _ ← parent_add_edge guard_state sb (mkInterstateEdge cond_expr ∅);
  _ ← for_each connect_to_latch (λ n,
         parent_add_edge n loop_latch_state InterstateEdge_default);
  _ ← for_each connect_to_end (λ n,
         parent_add_edge n end_state InterstateEdge_default);
  _ ← update (λ g, remove_node g (r_bid self));
  mret (true, Some (init_state, guard_state, end_state)).

(** An edge without its identity. *)
Definition edge_triple (e : Edge) : nat * nat * InterstateEdge :=
  (e_src e, e_dst e, e_data e).


(** [LoopRegion.inline]: [parent] is [self.parent_graph], [next] the
    identity of the next object to be created.  The answer is the result
    of the call, the parent graph afterwards, and the next identity. *)
Definition LoopRegion_inline (self : Region) (attrs : LoopAttrs)
    (parent : option Region) (next : nat)
  : result (bool * option (nat * nat * nat)) * option Region * nat :=
  match parent with
  | None =>
    (Raise (RuntimeError "No top-level SDFG present to inline into"), None, next)
  | Some p =>
    if negb (only_assignments (init_statement attrs)) then
      (Ok (false, None), Some p, next)
    else if negb (only_assignments (update_statement attrs)) then
      (Ok (false, None), Some p, next)
    else
      let '(res, self', next) :=
        recursive_inline_cf_regions (RegionBlock self) next in
      let p := replace_block p self' in
      match res, self' with
      | Ok _, RegionBlock self' =>
        let '(res, h) := LoopRegion_restructure self' attrs (mkHeap p next) in
        (res, Some (graph h), next_id h)
      | Ok _, _ => (Ok (false, None), Some p, next)
      | Raise e, _ => (Raise e, Some p, next)
      | OutOfFuel, _ => (OutOfFuel, Some p, next)
      end
  end.

End WithNames.

(** *** Traversals *)

(** [all_control_flow_regions(recursive=False)] of the region of a block:
    the region itself, then the regions of its blocks in order.  (With
    [recursive=True] the walk also enters the nested SDFGs of the
    dataflow nodes of states, which this record of a state does not
    hold.) *)
Fixpoint block_regions (b : ControlFlowBlock) : list Region :=
  match b with
  | RegionBlock r => r :: flat_map block_regions (nodes r)
  | _ => []
  end.

Definition all_control_flow_regions (self : Region) : list Region :=
  self :: flat_map block_regions (nodes self).

(** [all_states] *)
Fixpoint block_states (b : ControlFlowBlock) : list ControlFlowBlock :=
  match b with
  | SDFGState _ _ _ => [b]
  | RegionBlock r => flat_map block_states (nodes r)
  | _ => []
  end.

Definition all_states (self : Region) : list ControlFlowBlock :=
  flat_map block_states (nodes self).

(** [all_control_flow_blocks(recursive=False)] and
    [all_interstate_edges(recursive=False)] *)
Definition all_control_flow_blocks (self : Region) : list ControlFlowBlock :=
  flat_map nodes (all_control_flow_regions self).

Definition all_interstate_edges (self : Region) : list Edge :=
  flat_map edges (all_control_flow_regions self).

Definition isinstance_SDFGState (b : ControlFlowBlock) : bool :=
  match b with SDFGState _ _ _ => true | _ => false end.

Definition isinstance_LoopRegion_block (b : ControlFlowBlock) : bool :=
  match b with RegionBlock r => isinstance_LoopRegion r | _ => false end.

(** [ControlGraphView.all_nodes_recursive()] of a block, without a
    predicate, as far as control flow blocks go: a break, continue or
    return block has no nodes; the nodes of a state are dataflow nodes
    (and what their nested SDFGs hold), which are not control flow
    blocks and are left out. *)
Fixpoint block_nodes_recursive (b : ControlFlowBlock) : list ControlFlowBlock :=
  match b with
  | RegionBlock r => flat_map (λ n, n :: block_nodes_recursive n) (nodes r)
  | _ => []
  end.

(** [ControlGraphView.all_nodes_recursive(predicate)]: the predicate is
    asked about the blocks of [self] only; the call on a block that it
    admits passes no predicate on. *)
Definition all_nodes_recursive (self : Region)
    (predicate : option (ControlFlowBlock → bool)) : list ControlFlowBlock :=
  flat_map (λ n,
              n :: if match predicate with
                      | None => true
                      | Some p => p n
                      end
                   then block_nodes_recursive n else [])
           (nodes self).

(** The predicate of [has_continue], [has_break] and [has_return]. *)
Definition not_loop_or_state (n : ControlFlowBlock) : bool :=
  negb (isinstance_LoopRegion_block n || isinstance_SDFGState n).

(** [LoopRegion.has_continue], [has_break] and [has_return] *)
Definition has_continue (self : Region) : bool :=
  existsb isinstance_ContinueBlock (all_nodes_recursive self (Some not_loop_or_state)).
Definition has_break (self : Region) : bool :=
  existsb isinstance_BreakBlock (all_nodes_recursive self (Some not_loop_or_state)).
Definition has_return (self : Region) : bool :=
  existsb isinstance_ReturnBlock (all_nodes_recursive self (Some not_loop_or_state)).

(** *** Vocabulary of the statements about blocks *)

(** The labels of the blocks of a region, in order. *)
Definition labels_of (r : Region) : list string := block_label <$> nodes r.

(** The label cache of the region will be right when it is next used:
    it holds the labels of the blocks, or its size gives it away. *)
Definition labels_in_sync (r : Region) : Prop :=
  _labels r = list_to_set (labels_of r) ∨ size (_labels r) ≠ number_of_nodes r.

(** The name that [_ensure_unique_block_name] starts from. *)
Definition proposed_name (l : option string) : string :=
  match l with
  | Some s => if bool_decide (s = "") then "block" else s
  | None => "block"
  end.

(** *** Vocabulary of the inlining statements *)

(** Two graphs with the same blocks, edges, identity and class. *)
Definition same_graph (g g' : Region) : Prop :=
  nodes g' = nodes g ∧ edges g' = edges g
  ∧ r_bid g' = r_bid g ∧ r_cls g' = r_cls g.

(** No edge of the graph starts or ends at the block [i]. *)
Definition edge_free (g : Region) (i : nat) : Prop :=
  ∀ e, e ∈ edges g → e_src e ≠ i ∧ e_dst e ≠ i.

(** The loop header of the scenario. *)
Definition counting_loop (inv : bool) (lv : string) : LoopAttrs :=
  mkLoopAttrs (Some (PyCode [Assign (TName "i") (Num 0)]))
              (Some (PyCode [Assign (TName "i") (BinOp (Name "i") "+" (Num 1))]))
              (Compare (Name "i") "<" (Num 3))
              inv lv.

(** The loop of the scenario: the header above around the single state
    [S]. *)
Definition counting_region (rid : nat) (rlabel : string) (inv : bool)
    (lv : string) (S : ControlFlowBlock) (labels : gset string)
    (sb : option nat) (cached : bool) : Region :=
  mkRegion rid rlabel (LoopRegion (counting_loop inv lv)) [S] [] labels sb
           (if cached then Some (block_id S) else None).

(** *** Symbol liveness *)

Section Symbols.

(** What code blocks, inter-state edges, data descriptors and the graph
    traversal answer; their classes are not among the sources.
    [bfs_nodes g b] is the breadth-first order of the blocks of [g] from
    the block [b], by identity. *)
Variable get_free_symbols : CodeBlock → gset string.
Variable condition_free_symbols : expr → gset string.
Variable edge_used_symbols : InterstateEdge → bool → gset string.
Variable sdfg_arrays : gset string.
Variable array_used_symbols : string → bool → gset string.
Variable bfs_nodes : Region → nat → list nat.

(** The three sets that [_used_symbols_internal] updates in place and
    returns. *)
Record SymbolSets := mkSets {
  free_syms : gset string;
  defined_syms : gset string;
  used_before_assignment : gset string
}.

Definition no_symbols : SymbolSets := mkSets ∅ ∅ ∅.

(** [state_symbols] is a set of its own after a plain block, and the very
    object [free_syms] after a nested region (which was handed the sets
    of the caller and returns them). *)
Inductive state_symbols :=
| OwnSet (s : gset string)
| SameAsFree.

Definition state_symbols_now (ss : state_symbols) (s : SymbolSets) : gset string :=
  match ss with
  | OwnSet x => x
  | SameAsFree => free_syms s
  end.

(** The body of the loop over the outgoing edges of a block. *)
Definition edge_symbols (all_symbols : bool) (ss : state_symbols)
    (s : SymbolSets) (e : Edge) : SymbolSets :=
  let efsyms := edge_used_symbols (e_data e) all_symbols in
  let dsyms := filter (λ sym, sym ∈ sdfg_arrays) efsyms in
  let efsyms := efsyms ∪ ⋃ ((λ d, array_used_symbols d all_symbols) <$> elements dsyms) in
  let defined := defined_syms s
                 ∪ (dom (assignments (e_data e)) ∖ (efsyms ∪ state_symbols_now ss s)) in
  let used_before := used_before_assignment s ∪ (efsyms ∖ defined) in
  mkSets (free_syms s ∪ efsyms) defined used_before.

(** The symbols that the loop over the outgoing edges reads off an edge:
    those of the edge itself and those of the data containers among
    them. *)
Definition interstate_symbols (all_symbols : bool) (e : Edge) : gset string :=
  let efsyms := edge_used_symbols (e_data e) all_symbols in
  let dsyms := filter (λ sym, sym ∈ sdfg_arrays) efsyms in
  efsyms ∪ ⋃ ((λ d, array_used_symbols d all_symbols) <$> elements dsyms).

(** [block.used_symbols(all_symbols, keep_defined_in_mapping)] of a block
    that is not a region. *)
Definition plain_block_symbols (b : ControlFlowBlock) (all_symbols : bool)
  : gset string :=
  match b with
  | SDFGState _ _ sy => if all_symbols then used_all sy else used_args sy
  | _ => ∅
  end.

Definition is_region (b : ControlFlowBlock) : bool :=
  match b with RegionBlock _ => true | _ => false end.

(** The blocks in the order of the walk: breadth-first from the start
    block, or all blocks when the start block is ambiguous (the
    [ValueError] of [start_block] is caught, any other exception is
    not). *)
Definition ordered_blocks {X} (self : Region)
    (table : list (ControlFlowBlock * X)) : result (list (ControlFlowBlock * X)) :=
  match (start_block self).1 with
  | Ok b =>
    Ok (omap (λ i, List.find (λ p, bool_decide (block_id p.1 = i)) table)
             (bfs_nodes self b))
  | Raise (ValueError _) => Ok table
  | Raise e => Raise e
  | OutOfFuel => OutOfFuel
  end.

(** One round of the loop over the blocks in
    [ControlFlowRegion._used_symbols_internal]: the symbols of the block,
    then those of its outgoing edges. *)
Definition block_symbols (self : Region) (all_symbols : bool)
    (acc : result SymbolSets)
    (p : ControlFlowBlock * (SymbolSets → result SymbolSets))
  : result SymbolSets :=
  s ← acc;
  let '(block, nested) := p in
  r ← (if is_region block then
         s ← nested s; Ok (SameAsFree, s)
       else
         let state_syms := plain_block_symbols block all_symbols in
         Ok (OwnSet state_syms,
             mkSets (free_syms s ∪ state_syms) (defined_syms s)
                    (used_before_assignment s)));
  let '(ss, s) := r in
  Ok (foldl (edge_symbols all_symbols ss) s (out_edges self (block_id block))).

(** [ControlFlowRegion._used_symbols_internal], given for each block of
    the region the function that a nested region computes on the sets. *)
Definition region_symbols (self : Region) (all_symbols keep_defined_in_mapping : bool)
    (table : list (ControlFlowBlock * (SymbolSets → result SymbolSets)))
    (s : SymbolSets) : result SymbolSets :=
  blocks ← ordered_blocks self table;
  s ← foldl (block_symbols self all_symbols) (Ok s) blocks;
  let defined := defined_syms s ∖ used_before_assignment s in
  let '(defined, free) :=
    match r_cls self with
    | SDFG symbols mapping =>
      let defined :=
        match mapping with
        | Some keys => if keep_defined_in_mapping then defined ∖ keys else defined
        | None => defined
        end in
      (defined, if all_symbols then free_syms s ∪ symbols else free_syms s)
    | _ => (defined, free_syms s)
    end in
  Ok (mkSets (free ∖ defined) defined (used_before_assignment s)).

Definition statement_free_symbols (c : option CodeBlock) : gset string :=
  match c with
  | Some c => get_free_symbols c
  | None => ∅
  end.

(** [LoopRegion._used_symbols_internal], given the function [body] that
    the inherited method computes for the loop body. *)
Definition loop_symbols (attrs : LoopAttrs)
    (body : SymbolSets → result SymbolSets) (s : SymbolSets) : result SymbolSets :=
  let defined := defined_syms s ∪ {[ loop_variable attrs ]} in
  let free := free_syms s ∪ statement_free_symbols (init_statement attrs) in
  let free := free ∪ statement_free_symbols (update_statement attrs) in
  let free := free ∪ condition_free_symbols (loop_condition attrs) in
  b ← body no_symbols;
  let outside_defined := defined ∖ used_before_assignment s in
  let used_before :=
    used_before_assignment s
    ∪ ((used_before_assignment b ∖ {[ loop_variable attrs ]}) ∖ outside_defined) in
  let free := free ∪ free_syms b in
  let defined := defined ∪ defined_syms b in
  let defined := defined ∖ used_before in
  let free := free ∖ defined in
  Ok (mkSets free defined used_before).

(** [_used_symbols_internal] of a block, by the class of the block. *)
Fixpoint _used_symbols_internal (b : ControlFlowBlock)
    (all_symbols keep_defined_in_mapping : bool) (s : SymbolSets)
  : result SymbolSets :=
  match b with
  | RegionBlock r =>
    let table :=
      map (λ c, (c, _used_symbols_internal c all_symbols keep_defined_in_mapping))
          (nodes r) in
    match r_cls r with
    | LoopRegion attrs =>
      loop_symbols attrs
        (region_symbols r all_symbols keep_defined_in_mapping table) s
    | _ => region_symbols r all_symbols keep_defined_in_mapping table s
    end
  | _ => Raise (TypeError "not a control flow region")
  end.

(** [ControlGraphView.used_symbols] *)
Definition used_symbols (self : Region) (all_symbols keep_defined_in_mapping : bool)
  : result (gset string) :=
  s ← _used_symbols_internal (RegionBlock self) all_symbols
                             keep_defined_in_mapping no_symbols;
  Ok (free_syms s).

End Symbols.

End ControlFlow.

(** ** The map-dimension shuffle: [dace/transformation/dataflow/map_dim_shuffle.py]

    [MapDimShuffle] reorders the dimensions of the map of a map entry of
    a state so that the parameters come in a given order. *)

Module MapDimShuffle.

Section WithRanges.

(** What a dimension of the map range, a tile size and a component of a
    doacross offset are does not matter to the transformation. *)
Context {Range TileSize Offset : Type}.

(** [map_entry.map]: the parameters, [range.ranges] and
    [range.tile_sizes], and whether the schedule is
    [CPU_Multicore_Doacross]. *)
Record Map := mkMap {
  params : list string;
  ranges : list Range;
  tile_sizes : list TileSize;
  schedule_is_doacross : bool
}.

(** The memlet of an edge of the scope of the map: whether its schedule
    is [Doacross_Sink], and its [doacross_dependency_offset]. *)
Record ScopeMemlet := mkScopeMemlet {
  schedule_is_doacross_sink : bool;
  doacross_dependency_offset : list Offset
}.

(** Python's [l.index(x)]: the first position of [x]. *)
Fixpoint index (x : string) (l : list string) : result nat :=
  match l with
  | [] => Raise (ValueError ("'" +:+ x +:+ "' is not in list"))
  | y :: l' =>
    if bool_decide (y = x) then Ok 0
    else i ← index x l'; Ok (S i)
  end.

(** Python's [l[i]] for an index that is not negative. *)
Definition getitem {A} (l : list A) (i : nat) : result A :=
  match l !! i with
  | Some a => Ok a
  | None => Raise IndexError
  end.

(** [[f(a) for a in l]] *)
Fixpoint comprehension {A B} (f : A → result B) (l : list A) : result (list B) :=
  match l with
  | [] => Ok []
  | a :: l' => b ← f a; bs ← comprehension f l'; Ok (b :: bs)
  end.

(** [MapDimShuffle.can_be_applied]; [parameters] is the property of
    that name, [None] by default. *)
Definition can_be_applied (parameters : option (list string)) (m : Map) : bool :=
  match parameters with
  | None => false
  | Some ps =>
    if bool_decide (length ps ≠ length (params m)) then false
    else if bool_decide ((list_to_set ps : gset string) ≠ list_to_set (params m))
         then false
         else true
  end.

(** The loop of [apply] over the edges of the scope: the memlets as far
    as they have been rewritten when the loop ends or raises. *)
Fixpoint shuffle_offsets (new_map_order : list nat) (scope : list ScopeMemlet)
  : result unit * list ScopeMemlet :=
  match scope with
  | [] => (Ok (), [])
  | memlet :: scope' =>
    if schedule_is_doacross_sink memlet then
      match comprehension (getitem (doacross_dependency_offset memlet))
                          new_map_order with
      | Ok new_offset =>
        let '(res, scope') := shuffle_offsets new_map_order scope' in
        (res, mkScopeMemlet (schedule_is_doacross_sink memlet) new_offset :: scope')
      | Raise e => (Raise e, memlet :: scope')
      | OutOfFuel => (OutOfFuel, memlet :: scope')
      end
    else
      let '(res, scope') := shuffle_offsets new_map_order scope' in
      (res, memlet :: scope')
  end.

(** [MapDimShuffle.apply]: [m] is the map of the map entry, [scope] the
    memlets of the edges of [graph.scope_subgraph(map_entry)].  The
    answer is the result of the call and the objects as the call leaves
    them; a call that raises has rewritten what came before. *)
Definition apply (parameters : option (list string)) (m : Map)
    (scope : list ScopeMemlet) : result unit * (Map * list ScopeMemlet) :=
  match parameters with
  | None => (Raise (TypeError "'NoneType' object is not iterable"), (m, scope))
  | Some ps =>
    match comprehension (λ param, index param (params m)) ps with
    | Ok new_map_order =>
      match comprehension (getitem (ranges m)) new_map_order with
      | Ok rs =>
        let m := mkMap (params m) rs (tile_sizes m) (schedule_is_doacross m) in
        match comprehension (getitem (tile_sizes m)) new_map_order with
        | Ok ts =>
          let m := mkMap (params m) (ranges m) ts (schedule_is_doacross m) in
          match comprehension (getitem (params m)) new_map_order with
          | Ok ps' =>
            let m := mkMap ps' (ranges m) (tile_sizes m) (schedule_is_doacross m) in
            if schedule_is_doacross m then
              let '(res, scope) := shuffle_offsets new_map_order scope in
              (res, (m, scope))
            else (Ok (), (m, scope))
          | Raise e => (Raise e, (m, scope))
          | OutOfFuel => (OutOfFuel, (m, scope))
          end
        | Raise e => (Raise e, (m, scope))
        | OutOfFuel => (OutOfFuel, (m, scope))
        end
      | Raise e => (Raise e, (m, scope))
      | OutOfFuel => (OutOfFuel, (m, scope))
      end
    | Raise e => (Raise e, (m, scope))
    | OutOfFuel => (OutOfFuel, (m, scope))
    end
  end.

(** The dimensions of a map as a whole: parameter, range and tile size. *)
Definition dimensions (m : Map) : list (string * (Range * TileSize)) :=
  zip (params m) (zip (ranges m) (tile_sizes m)).

(** Ranges, tile sizes and the offsets of the doacross sinks have one
    entry for each parameter. *)
Definition well_sized (m : Map) (scope : list ScopeMemlet) : Prop :=
  length (ranges m) = length (params m)
  ∧ length (tile_sizes m) = length (params m)
  ∧ (schedule_is_doacross m = true →
     ∀ memlet, memlet ∈ scope → schedule_is_doacross_sink memlet = true →
               length (doacross_dependency_offset memlet) = length (params m)).

(** What the loop over the scope does to one memlet, for the positions
    [order]: the offset of a doacross sink is picked from the old one,
    any other memlet is left alone. *)
Definition shuffled (order : list nat) (doacross : bool)
    (old new : ScopeMemlet) : Prop :=
  schedule_is_doacross_sink new = schedule_is_doacross_sink old
  ∧ if doacross && schedule_is_doacross_sink old
    then length (doacross_dependency_offset new) = length order
         ∧ ∀ k j, order !! k = Some j →
                  doacross_dependency_offset new !! k
                  = doacross_dependency_offset old !! j
    else new = old.

End WithRanges.

Arguments Map : clear implicits.
Arguments ScopeMemlet : clear implicits.

End MapDimShuffle.

(** ** Example graphs *)

Module Examples.

Import Dataflow.

(** Index sets of the examples: closed integer intervals. *)
Definition interval : Type := Z * Z.

Definition interval_covers (a b : interval) : bool :=
  (a.1 <=? b.1)%Z && (b.2 <=? a.2)%Z.

Definition whole : interval := (0%Z, 9%Z).

Definition mem (d : string) : Memlet interval :=
  mkMemlet (Some d) whole whole whole false.
Definition empty_memlet : Memlet interval :=
  mkMemlet None whole whole whole true.

(** A map scope: [A] is read through the map entry, [N] feeds the map
    range through the connector [n], a tasklet without inputs hangs off
    the entry by an empty memlet, and both tasklets write through the map
    exit. *)
Definition nA : Node := mkNode 0 AccessNode "A".
Definition nN : Node := mkNode 1 AccessNode "N".
Definition map_entry : Node := mkNode 2 EntryNode "".
Definition tasklet1 : Node := mkNode 3 Tasklet "".
Definition tasklet2 : Node := mkNode 4 Tasklet "".
Definition map_exit : Node := mkNode 5 ExitNode "".
Definition nB : Node := mkNode 6 AccessNode "B".
Definition nC : Node := mkNode 7 AccessNode "C".

Definition e_A_entry : Edge interval :=
  mkEdge 0 nA None map_entry (Some "IN_A") (mem "A").
Definition e_N_entry : Edge interval :=
  mkEdge 1 nN None map_entry (Some "n") (mem "N").
Definition e_entry_t1 : Edge interval :=
  mkEdge 2 map_entry (Some "OUT_A") tasklet1 (Some "a") (mem "A").
Definition e_entry_t2 : Edge interval :=
  mkEdge 3 map_entry None tasklet2 None empty_memlet.
Definition e_t1_exit : Edge interval :=
  mkEdge 4 tasklet1 (Some "b") map_exit (Some "IN_B") (mem "B").
Definition e_t2_exit : Edge interval :=
  mkEdge 5 tasklet2 (Some "c") map_exit (Some "IN_C") (mem "C").
Definition e_exit_B : Edge interval :=
  mkEdge 6 map_exit (Some "OUT_B") nB None (mem "B").
Definition e_exit_C : Edge interval :=
  mkEdge 7 map_exit (Some "OUT_C") nC None (mem "C").

Definition map_state : Graph interval :=
  mkGraph [nA; nN; map_entry; tasklet1; tasklet2; map_exit; nB; nC]
          [e_A_entry; e_N_entry; e_entry_t1; e_entry_t2;
           e_t1_exit; e_t2_exit; e_exit_B; e_exit_C].

(** A map scope with fan-out and fan-in: the map entry hands [A] to two
    tasklets, both write [B] through the same connector of the map exit;
    a tasklet outside the scope produces [A]. *)
Definition bX : Node := mkNode 0 AccessNode "X".
Definition b_producer : Node := mkNode 1 Tasklet "".
Definition bA : Node := mkNode 2 AccessNode "A".
Definition b_entry : Node := mkNode 3 EntryNode "".
Definition b_t1 : Node := mkNode 4 Tasklet "".
Definition b_t2 : Node := mkNode 5 Tasklet "".
Definition b_exit : Node := mkNode 6 ExitNode "".
Definition bB : Node := mkNode 7 AccessNode "B".

Definition f_X_producer : Edge interval :=
  mkEdge 0 bX None b_producer (Some "x") (mem "X").
Definition f_producer_A : Edge interval :=
  mkEdge 1 b_producer (Some "a") bA None (mem "A").
Definition f_A_entry : Edge interval :=
  mkEdge 2 bA None b_entry (Some "IN_A") (mem "A").
Definition f_entry_t1 : Edge interval :=
  mkEdge 3 b_entry (Some "OUT_A") b_t1 (Some "a") (mem "A").
Definition f_entry_t2 : Edge interval :=
  mkEdge 4 b_entry (Some "OUT_A") b_t2 (Some "a") (mem "A").
Definition f_t1_exit : Edge interval :=
  mkEdge 5 b_t1 (Some "b") b_exit (Some "IN_B") (mem "B").
Definition f_t2_exit : Edge interval :=
  mkEdge 6 b_t2 (Some "b") b_exit (Some "IN_B") (mem "B").
Definition f_exit_B : Edge interval :=
  mkEdge 7 b_exit (Some "OUT_B") bB None (mem "B").

Definition broadcast_state : Graph interval :=
  mkGraph [bX; b_producer; bA; b_entry; b_t1; b_t2; b_exit; bB]
          [f_X_producer; f_producer_A; f_A_entry; f_entry_t1; f_entry_t2;
           f_t1_exit; f_t2_exit; f_exit_B].

(** Two data-independent subgraphs of one state.  In the first, a
    tasklet writes all of [A] and a second tasklet reads all of [A] from
    the same access node; in the second, [A] is read without having been
    written and [B] is written. *)
Definition w_writer : Node := mkNode 0 Tasklet "".
Definition w_A : Node := mkNode 1 AccessNode "A".
Definition w_reader : Node := mkNode 2 Tasklet "".
Definition r_A : Node := mkNode 3 AccessNode "A".
Definition r_reader : Node := mkNode 4 Tasklet "".
Definition r_B : Node := mkNode 5 AccessNode "B".

Definition g_write_A : Edge interval :=
  mkEdge 0 w_writer (Some "out") w_A None (mem "A").
Definition g_read_A : Edge interval :=
  mkEdge 1 w_A None w_reader (Some "in") (mem "A").
Definition g_read_A' : Edge interval :=
  mkEdge 2 r_A None r_reader (Some "in") (mem "A").
Definition g_write_B : Edge interval :=
  mkEdge 3 r_reader (Some "out") r_B None (mem "B").

Definition write_then_read : Graph interval :=
  mkGraph [w_writer; w_A; w_reader] [g_write_A; g_read_A].
Definition read_only : Graph interval :=
  mkGraph [r_A; r_reader; r_B] [g_read_A'; g_write_B].
Definition two_subgraphs : Graph interval :=
  mkGraph (nodes write_then_read ++ nodes read_only)
          (edges write_then_read ++ edges read_only).

(** A stand-in for the symbols of a memlet: the memlet of the edge from
    [A] to the reader of [read_only] is indexed by [i]. *)
Definition example_memlet_symbols (e : Edge interval) (all_symbols : bool)
  : gset string :=
  if bool_decide (eid e = 2) then {[ "i" ]} else ∅.

(** The decomposition of the two example states into concurrent
    subgraphs, and a topological order of each subgraph (its nodes are
    listed in such an order). *)
Definition example_subgraphs (g : Graph interval) : list (Graph interval) :=
  if bool_decide (length (nodes g) ≤ 3) then [write_then_read]
  else [write_then_read; read_only].
Definition example_order (sg : Graph interval) (sources : list Node) : list Node :=
  nodes sg.

(** A state whose two tasklets feed each other: it has no source node. *)
Definition c_t1 : Node := mkNode 0 Tasklet "".
Definition c_t2 : Node := mkNode 1 Tasklet "".
Definition cyclic_graph : Graph interval :=
  mkGraph [c_t1; c_t2]
          [mkEdge 0 c_t1 (Some "o") c_t2 (Some "i") (mem "A");
           mkEdge 1 c_t2 (Some "o") c_t1 (Some "i") (mem "A")].
Definition cyclic_state : SDFGState interval :=
  mkState "loop" cyclic_graph None None None None.

(** Stand-ins for the parameters of [scope_dict].  The traversal is given
    an empty queue on a state without source nodes, and a walk that is
    driven by its queue then assigns no node and leaves nothing over; the
    cycle search reports the one cycle of [cyclic_graph]. *)
Definition idle_traversal {K V} `{Countable K} (g : Graph interval)
    (queue : list Node) : list Node * gmap K V :=
  (queue, ∅).
Definition example_cycles (g : Graph interval) : list (list Node) :=
  if bool_decide (g = cyclic_graph) then [[c_t1; c_t2]] else [].
Definition example_str {A} (a : A) : string := "...".

(** *** Control-flow examples *)

Import ControlFlow.

(** A stand-in for [find_new_name]: a name that is taken gets a suffix. *)
Definition example_find_new_name (name : string) (existing : gset string) : string :=
  if bool_decide (name ∈ existing) then name +:+ "_0" else name.

Definition no_state_symbols : StateSymbols := mkStateSymbols ∅ ∅.
Definition block_A : ControlFlowBlock := SDFGState 1 "A" no_state_symbols.
Definition block_B : ControlFlowBlock := SDFGState 2 "B" no_state_symbols.
Definition empty_region : Region :=
  mkRegion 0 "cfg" ControlFlowRegion [] [] ∅ None None.

(** [A] and [B] are added, then the edge from [A] to [B]. *)
Definition region_A_to_B : Region :=
  add_edge
    (add_node example_find_new_name
       (add_node example_find_new_name empty_region block_A false false None).2
       block_B false false None).2
    1 2 InterstateEdge_default.

(** A region that holds the single block [A]. *)
Definition region_A : Region :=
  (add_node example_find_new_name empty_region block_A false false None).2.

(** A region whose label cache is stale: the state [A] is added and
    removed again, then the block [X] is added without a name check. *)
Definition stale_region : Region :=
  (add_node example_find_new_name
     (remove_node
        (add_state example_find_new_name empty_region (Some "A") false None 1).2 1)
     (SDFGState 2 "X" no_state_symbols) false false None).2.

(** The loop of the scenario: [for i = 0; i < 3; i = i + 1] around the
    single state [S], in a parent graph that holds the loop alone. *)
Definition counting_attrs (inverted : bool) : LoopAttrs :=
  counting_loop inverted "i".
Definition block_S : ControlFlowBlock :=
  SDFGState 2 "S" (mkStateSymbols {[ "i" ]} ∅).
Definition loop_R (inverted : bool) : Region :=
  counting_region 1 "R" inverted "i" block_S ∅ None false.
Definition parent_P (inverted : bool) : Region :=
  mkRegion 0 "P" (SDFG ∅ None) [RegionBlock (loop_R inverted)] [] ∅ None None.

(** A region in which a state that uses [i] comes before the loop over
    [i], and a walk that takes the blocks in the order of the region. *)
Definition block_before : ControlFlowBlock :=
  SDFGState 5 "before" (mkStateSymbols {[ "i" ]} ∅).
Definition region_before_loop : Region :=
  mkRegion 0 "P" ControlFlowRegion [block_before; RegionBlock (loop_R false)]
           [mkEdge 1 5 1 InterstateEdge_default] ∅ None None.
Definition example_bfs_nodes (r : Region) (b : nat) : list nat :=
  block_id <$> nodes r.

(** A region [C] around the state [S] between the states [A] and [B]. *)
Definition inner_region : Region :=
  mkRegion 3 "C" ControlFlowRegion [SDFGState 4 "S" no_state_symbols] []
           ∅ None None.
Definition outer_region : Region :=
  mkRegion 0 "P" ControlFlowRegion [block_A; RegionBlock inner_region; block_B]
           [mkEdge 1 1 3 InterstateEdge_default; mkEdge 2 3 2 InterstateEdge_default]
           ∅ None None.


(** *** A map to shuffle *)

(** A map over [i], [j], [k] with ranges and tile sizes given as numbers,
    and a doacross sink in its scope. *)
Definition map_ijk : MapDimShuffle.Map nat nat :=
  MapDimShuffle.mkMap ["i"; "j"; "k"] [10; 20; 30] [1; 2; 4] true.
Definition scope_ijk : list (MapDimShuffle.ScopeMemlet Z) :=
  [MapDimShuffle.mkScopeMemlet true [1%Z; 0%Z; (-1)%Z];
   MapDimShuffle.mkScopeMemlet false []].

End Examples.

(** ** Facts shared by the proofs about dataflow states *)

Module CommonFacts.
Import Dataflow.

#[local] Arguments string_drop : simpl never.
#[local] Arguments startswith : simpl never.

Lemma code_or_access_not_scope (n : Node) :
  is_code_or_access n = negb (is_scope_node n).
Proof.
  unfold is_code_or_access, is_scope_node, isinstance_CodeNode,
    isinstance_AccessNode, isinstance_EntryNode, isinstance_ExitNode.
  destruct (cls n); reflexivity.
Qed.

Lemma next_Ok {A} (p : A → bool) (l : list A) (a : A) :
  next p l = Ok a → a ∈ l ∧ p a = true.
Proof.
  unfold next. destruct (List.find p l) eqn:E; [|discriminate].
  intros [= <-]. apply List.find_some in E as [Hin Hp].
  split; [by apply list_elem_of_In | done].
Qed.

Lemma next_of_existsb {A} (p : A → bool) (l : list A) :
  existsb p l = true → ∃ a, next p l = Ok a.
Proof.
  intros Hex. unfold next. destruct (List.find p l) eqn:E; [eauto|].
  apply existsb_exists in Hex as (a & Hin & Hp).
  eapply List.find_none in E; [|exact Hin]. congruence.
Qed.

Lemma next_never_out_of_fuel {A} (p : A → bool) (l : list A) :
  next p l ≠ OutOfFuel.
Proof. unfold next. destruct (List.find p l); discriminate. Qed.

Lemma startswith_split (p c : string) :
  startswith c p = true → c = p +:+ string_drop (String.length p) c.
Proof.
  unfold startswith. revert c.
  induction p as [|a p IH]; intros c Hp; [done|].
  destruct c as [|b c]; [done|]. simpl in Hp.
  destruct (Ascii.ascii_dec a b) as [->|]; [|done].
  change (String b c = String b (p +:+ string_drop (String.length p) c)).
  f_equal. by apply IH.
Qed.

Lemma string_drop_app (p s : string) :
  string_drop (String.length p) (p +:+ s) = s.
Proof. induction p as [|c p IH]; [done|]. exact IH. Qed.

Lemma drop_OUT (s : string) : string_drop 4 ("OUT_" +:+ s) = s.
Proof. done. Qed.

Lemma drop_IN (s : string) : string_drop 3 ("IN_" +:+ s) = s.
Proof. done. Qed.

Lemma split_OUT (c : string) :
  startswith c "OUT_" = true → "OUT_" +:+ string_drop 4 c = c.
Proof. intros Hp. by rewrite (startswith_split "OUT_" c) at 2. Qed.

Lemma split_IN (c : string) :
  startswith c "IN_" = true → "IN_" +:+ string_drop 3 c = c.
Proof. intros Hp. by rewrite (startswith_split "IN_" c) at 2. Qed.

Lemma startswith_app (p s : string) : startswith (p +:+ s) p = true.
Proof.
  unfold startswith. induction p as [|c p IH]; simpl.
  - by destruct s.
  - by destruct (Ascii.ascii_dec c c).
Qed.

Lemma conn_is_spec (c : option string) s : conn_is c s = true ↔ c = Some s.
Proof. unfold conn_is. apply bool_decide_eq_true. Qed.

Lemma exit_is_scope (v : Node) :
  isinstance_ExitNode v = true → is_scope_node v = true.
Proof. unfold is_scope_node. intros ->. apply orb_true_r. Qed.

Lemma entry_is_scope (v : Node) :
  isinstance_EntryNode v = true → is_scope_node v = true.
Proof. unfold is_scope_node. by intros ->. Qed.

Lemma entry_not_exit (v : Node) :
  isinstance_EntryNode v = true → isinstance_ExitNode v = false.
Proof.
  unfold isinstance_EntryNode, isinstance_ExitNode. by destruct (cls v).
Qed.

Lemma elem_of_List_filter {A} (p : A → bool) (l : list A) (a : A) :
  a ∈ List.filter p l ↔ a ∈ l ∧ p a = true.
Proof. rewrite !list_elem_of_In. apply filter_In. Qed.

Section WithSubsets.
Context {Subset : Type} `{EqDecision Subset}.
Implicit Types (state : Graph Subset) (e cur : Edge Subset)
  (visited path : list (Edge Subset)).

Lemma in_edges_spec state (v : Node) e :
  e ∈ in_edges state v ↔ e ∈ edges state ∧ dst e = v.
Proof. unfold in_edges. rewrite list_elem_of_filter. tauto. Qed.

Lemma out_edges_spec state (v : Node) e :
  e ∈ out_edges state v ↔ e ∈ edges state ∧ src e = v.
Proof. unfold out_edges. rewrite list_elem_of_filter. tauto. Qed.

Lemma visited_bound state e0 visited cur :
  NoDup (cur :: visited) →
  (∀ v, v ∈ cur :: visited → v ∈ e0 :: edges state) →
  length visited ≤ length (edges state).
Proof.
  intros Hnd Hsub.
  pose proof (submseteq_length _ _ (NoDup_submseteq _ _ Hnd Hsub)) as Hlen.
  simpl in Hlen. lia.
Qed.

Lemma bare_empty_spec e :
  is_bare_empty e = true ↔
  src_conn e = None ∧ dst_conn e = None ∧ is_empty (memlet e) = true.
Proof.
  unfold is_bare_empty.
  rewrite !andb_true_iff, !bool_decide_eq_true. tauto.
Qed.

Lemma edge_ok_of_state state e :
  scope_connectors_ok state = true → e ∈ edges state →
  edge_connectors_ok state e = true.
Proof.
  unfold scope_connectors_ok. rewrite forallb_forall.
  intros Hall Hin. apply Hall. by apply list_elem_of_In.
Qed.

Lemma rank_of_edge rank state e :
  topological rank state = true → e ∈ edges state →
  rank (src e) < rank (dst e).
Proof.
  unfold topological. rewrite forallb_forall.
  intros Hall Hin. apply Nat.ltb_lt. apply Hall. by apply list_elem_of_In.
Qed.

(** The connector of an edge that leaves a scope node of a well-formed
    state starts with [OUT_]. *)
Lemma out_connector_ok state e c :
  scope_connectors_ok state = true → e ∈ edges state →
  is_scope_node (src e) = true → src_conn e = Some c →
  startswith c "OUT_" = true
  ∧ existsb (λ e', conn_is (dst_conn e') ("IN_" +:+ string_drop 4 c))
            (in_edges state (src e)) = true.
Proof.
  intros Hwf Hin Hscope Hc.
  pose proof (edge_ok_of_state _ _ Hwf Hin) as Hok.
  unfold edge_connectors_ok in Hok. apply andb_true_iff in Hok as [Hok _].
  rewrite Hscope, Hc in Hok. by apply andb_true_iff in Hok.
Qed.

(** The connector of an edge that enters an exit node of a well-formed
    state starts with [IN_]. *)
Lemma exit_connector_ok state e c :
  scope_connectors_ok state = true → e ∈ edges state →
  isinstance_ExitNode (dst e) = true → dst_conn e = Some c →
  startswith c "IN_" = true
  ∧ existsb (λ e', conn_is (src_conn e') ("OUT_" +:+ string_drop 3 c))
            (out_edges state (dst e)) = true.
Proof.
  intros Hwf Hin Hexit Hc.
  pose proof (edge_ok_of_state _ _ Hwf Hin) as Hok.
  unfold edge_connectors_ok in Hok. apply andb_true_iff in Hok as [_ Hok].
  rewrite (exit_is_scope _ Hexit), Hc in Hok.
  destruct (startswith c "IN_"); [done|].
  unfold isinstance_EntryNode, isinstance_ExitNode in *.
  by destruct (cls (dst e)).
Qed.

End WithSubsets.
End CommonFacts.

(** ** Memlet paths *)

Module PathFacts.
Import Dataflow CommonFacts.

#[local] Arguments string_drop : simpl never.
#[local] Arguments startswith : simpl never.

Section WithSubsets.
Context {Subset : Type} `{EqDecision Subset}.
Implicit Types (state : Graph Subset) (e cur : Edge Subset)
  (visited path : list (Edge Subset)).

Lemma trace_to_source_terminates fuel state e0 cur visited path :
  NoDup visited → cur ∉ visited →
  (∀ v, v ∈ cur :: visited → v ∈ e0 :: edges state) →
  S (length (edges state)) ≤ fuel + length visited →
  trace_to_source fuel state cur visited path ≠ OutOfFuel.
Proof.
  revert cur visited path.
  induction fuel as [|fuel IH]; intros cur visited path Hnd Hcur Hsub Hfuel; simpl.
  - destruct (is_code_or_access (src cur)); [discriminate|].
    assert (length visited ≤ length (edges state)) as Hb
      by (eapply visited_bound; [by constructor | done]).
    exfalso. lia.
  - destruct (is_code_or_access (src cur)) eqn:Hca; [discriminate|].
    rewrite code_or_access_not_scope in Hca.
    apply negb_false_iff in Hca. rewrite Hca.
    destruct (src_conn cur) as [c|]; [|discriminate].
    destruct (negb (startswith c "OUT_")); [discriminate|].
    destruct (next _ _) as [next_edge| |] eqn:Hnext; simpl;
      [|discriminate|by apply next_never_out_of_fuel in Hnext].
    case_bool_decide as Hvis; [discriminate|].
    apply IH.
    + by constructor.
    + done.
    + intros v Hv. apply elem_of_cons in Hv as [->|Hv]; [|by apply Hsub].
      apply next_Ok in Hnext as [Hin _]. apply in_edges_spec in Hin as [Hin _].
      by right.
    + simpl. lia.
Qed.

Lemma trace_to_sink_terminates fuel state e0 cur visited path :
  NoDup visited → cur ∉ visited →
  (∀ v, v ∈ cur :: visited → v ∈ e0 :: edges state) →
  S (length (edges state)) ≤ fuel + length visited →
  trace_to_sink fuel state cur visited path ≠ OutOfFuel.
Proof.
  revert cur visited path.
  induction fuel as [|fuel IH]; intros cur visited path Hnd Hcur Hsub Hfuel; simpl.
  - destruct (is_code_or_access (dst cur)); [discriminate|].
    assert (length visited ≤ length (edges state)) as Hb
      by (eapply visited_bound; [by constructor | done]).
    exfalso. lia.
  - destruct (is_code_or_access (dst cur)) eqn:Hca; [discriminate|].
    rewrite code_or_access_not_scope in Hca.
    apply negb_false_iff in Hca. rewrite Hca.
    destruct (dst_conn cur) as [c|]; [|discriminate].
    destruct (negb (startswith c "IN_")); [discriminate|].
    destruct (next _ _) as [next_edge| |] eqn:Hnext; simpl;
      [|discriminate|by apply next_never_out_of_fuel in Hnext].
    case_bool_decide as Hvis; [discriminate|].
    apply IH.
    + by constructor.
    + done.
    + intros v Hv. apply elem_of_cons in Hv as [->|Hv]; [|by apply Hsub].
      apply next_Ok in Hnext as [Hin _]. apply out_edges_spec in Hin as [Hin _].
      by right.
    + simpl. lia.
Qed.

(** [memlet_path] always comes to an end: with a result or with an
    exception. *)
Lemma memlet_path_terminates state e : memlet_path state e ≠ OutOfFuel.
Proof.
  unfold memlet_path, memlet_path_fuel.
  destruct (is_bare_empty e); [discriminate|].
  assert (∀ v, v ∈ [e] → v ∈ e :: edges state) as Hsub.
  { intros v Hv. apply list_elem_of_singleton in Hv as ->. by left. }
  remember (S (length (edges state))) as fuel eqn:Hfuel.
  destruct (trace_to_source _ _ _ _ _) as [p| |] eqn:Hsrc; simpl.
  - apply (trace_to_sink_terminates _ _ e);
      [constructor | apply not_elem_of_nil | done | simpl; lia].
  - discriminate.
  - exfalso. revert Hsrc. apply (trace_to_source_terminates _ _ e);
      [constructor | apply not_elem_of_nil | done | simpl; lia].
Qed.

(** On a well-formed acyclic state the first loop raises nothing, and
    stops at an edge that leaves a code or access node. *)
Lemma trace_to_source_ok fuel state rank cur visited path :
  scope_connectors_ok state = true → topological rank state = true →
  cur ∈ edges state → is_bare_empty cur = false →
  (∀ v, v ∈ visited → rank (src cur) < rank (src v)) →
  head path = Some cur →
  trace_to_source fuel state cur visited path ≠ OutOfFuel →
  ∃ first path',
    trace_to_source fuel state cur visited path = Ok path'
    ∧ head path' = Some first ∧ is_code_or_access (src first) = true
    ∧ ∃ pre, path' = pre ++ path.
Proof.
  intros Hwf Htopo. revert cur visited path.
  induction fuel as [|fuel IH]; intros cur visited path Hin Hbare Hrank Hhead; simpl.
  - destruct (is_code_or_access (src cur)) eqn:Hca; [|done].
    intros _. exists cur, path. repeat split; [done..|]. by exists [].
  - destruct (is_code_or_access (src cur)) eqn:Hca.
    { intros _. exists cur, path. repeat split; [done..|]. by exists []. }
    pose proof (edge_ok_of_state _ _ Hwf Hin) as Hok.
    unfold edge_connectors_ok in Hok. apply andb_true_iff in Hok as [Hok _].
    rewrite code_or_access_not_scope in Hca.
    apply negb_false_iff in Hca. rewrite Hca in Hok |- *.
    destruct (src_conn cur) as [c|]; [|congruence].
    apply andb_true_iff in Hok as [Hpre Hex]. rewrite Hpre. simpl.
    destruct (next_of_existsb _ _ Hex) as [next_edge Hnext].
    rewrite Hnext. simpl.
    apply next_Ok in Hnext as [Hnin Hconn].
    apply in_edges_spec in Hnin as [Hnin Hdst].
    apply conn_is_spec in Hconn.
    pose proof (rank_of_edge _ _ _ Htopo Hnin) as Hlt. rewrite Hdst in Hlt.
    rewrite bool_decide_eq_false_2.
    2:{ intros Hv. apply elem_of_cons in Hv as [->|Hv]; [lia|].
        specialize (Hrank _ Hv). lia. }
    intros Hfuel.
    destruct (IH next_edge (cur :: visited) (next_edge :: path))
      as (first & path' & Heq & Hfirst & Hsrc & pre & Hpre'); try done.
    + apply not_true_iff_false. rewrite bare_empty_spec. rewrite Hconn.
      intros (_ & ? & _). done.
    + intros v Hv. apply elem_of_cons in Hv as [->|Hv]; [done|].
      specialize (Hrank _ Hv). lia.
    + exists first, path'. repeat split; [done..|].
      exists (pre ++ [next_edge]). by rewrite <- app_assoc.
Qed.

Lemma trace_to_sink_ok fuel state rank cur visited path :
  scope_connectors_ok state = true → topological rank state = true →
  cur ∈ edges state → is_bare_empty cur = false →
  (∀ v, v ∈ visited → rank (dst v) < rank (dst cur)) →
  last path = Some cur →
  trace_to_sink fuel state cur visited path ≠ OutOfFuel →
  ∃ lst path',
    trace_to_sink fuel state cur visited path = Ok path'
    ∧ last path' = Some lst ∧ sink_reached lst
    ∧ ∃ suf, path' = path ++ suf.
Proof.
  intros Hwf Htopo. revert cur visited path.
  induction fuel as [|fuel IH]; intros cur visited path Hin Hbare Hrank Hlast; simpl.
  - destruct (is_code_or_access (dst cur)) eqn:Hca; [|done].
    intros _. exists cur, path. repeat split; [done|by left|].
    exists []. by rewrite app_nil_r.
  - destruct (is_code_or_access (dst cur)) eqn:Hca.
    { intros _. exists cur, path. repeat split; [done|by left|].
      exists []. by rewrite app_nil_r. }
    pose proof (edge_ok_of_state _ _ Hwf Hin) as Hok.
    unfold edge_connectors_ok in Hok. apply andb_true_iff in Hok as [_ Hok].
    rewrite code_or_access_not_scope in Hca.
    apply negb_false_iff in Hca. rewrite Hca in Hok |- *.
    destruct (dst_conn cur) as [c|] eqn:Hc; [|congruence].
    destruct (startswith c "IN_") eqn:Hpre; simpl.
    2:{ intros _. exists cur, path. repeat split; [done| |].
        - right. split; [done|]. by exists c.
        - exists []. by rewrite app_nil_r. }
    destruct (next_of_existsb _ _ Hok) as [next_edge Hnext].
    rewrite Hnext. simpl.
    apply next_Ok in Hnext as [Hnin Hconn].
    apply out_edges_spec in Hnin as [Hnin Hsrc].
    apply conn_is_spec in Hconn.
    pose proof (rank_of_edge _ _ _ Htopo Hnin) as Hlt. rewrite Hsrc in Hlt.
    rewrite bool_decide_eq_false_2.
    2:{ intros Hv. apply elem_of_cons in Hv as [->|Hv]; [lia|].
        specialize (Hrank _ Hv). lia. }
    intros Hfuel.
    destruct (IH next_edge (cur :: visited) (path ++ [next_edge]))
      as (lst & path' & Heq & Hlst & Hsink & suf & Hsuf); try done.
    + apply not_true_iff_false. rewrite bare_empty_spec. rewrite Hconn.
      intros (? & _). done.
    + intros v Hv. apply elem_of_cons in Hv as [->|Hv]; [done|].
      specialize (Hrank _ Hv). lia.
    + by rewrite last_snoc.
    + exists lst, path'. repeat split; [done..|].
      exists (next_edge :: suf). by rewrite Hsuf, <- app_assoc.
Qed.

(** C10: an edge without connectors that carries an empty memlet is its
    own memlet path.  No loop of [memlet_path] is entered (no fuel is
    needed), whatever the classes of the two endpoints, scope entry and
    exit nodes included. *)
Theorem memlet_path_bare_empty state e :
  src_conn e = None → dst_conn e = None → is_empty (memlet e) = true →
  (∀ fuel, memlet_path_fuel fuel state e = Ok [e])
  ∧ memlet_path state e = Ok [e].
Proof.
  intros Hs Hd Hm.
  assert (is_bare_empty e = true) as Hbare by (by apply bare_empty_spec).
  unfold memlet_path, memlet_path_fuel. rewrite Hbare. by split.
Qed.

(** C5 (amended): on a well-formed acyclic state, [memlet_path] of an edge
    of the state returns a path through that edge.  For a bare empty edge
    the path is the edge alone.  Otherwise the first edge leaves a code or
    access node, and the last edge enters a code or access node or enters
    a scope node through a connector that does not start with [IN_]. *)
Theorem memlet_path_endpoints state rank e :
  scope_connectors_ok state = true → topological rank state = true →
  e ∈ edges state →
  ∃ path,
    memlet_path state e = Ok path ∧ e ∈ path
    ∧ if is_bare_empty e then path = [e]
      else ∃ first lst,
          head path = Some first ∧ last path = Some lst
          ∧ is_code_or_access (src first) = true ∧ sink_reached lst.
Proof.
  intros Hwf Htopo Hin.
  pose proof (memlet_path_terminates state e) as Hterm.
  unfold memlet_path, memlet_path_fuel in *.
  destruct (is_bare_empty e) eqn:Hbare.
  { exists [e]. split; [done|]. split; [by left | done]. }
  remember (S (length (edges state))) as fuel eqn:Hfuel.
  destruct (trace_to_source_ok fuel state rank e [] [e])
    as (first & p1 & Hsrc & Hfirst & Hcode & pre & Hpre); try done.
  { intros v Hv. by apply not_elem_of_nil in Hv. }
  { intros Hout. by rewrite Hout in Hterm. }
  rewrite Hsrc in Hterm |- *. simpl in Hterm |- *.
  destruct (trace_to_sink_ok fuel state rank e [] p1)
    as (lst & p2 & Hsnk & Hlst & Hsink & suf & Hsuf); try done.
  { intros v Hv. by apply not_elem_of_nil in Hv. }
  { by rewrite Hpre, last_snoc. }
  exists p2. split; [done|]. split.
  - rewrite Hsuf, Hpre. rewrite !elem_of_app. left. right. by left.
  - exists first, lst. repeat split; [|done..].
    rewrite Hsuf. destruct p1; [done|]. simpl in *. done.
Qed.

End WithSubsets.

Import Examples.

Lemma memlet_path_bare_empty_witness :
  isinstance_EntryNode (src e_entry_t2) = true
  ∧ memlet_path map_state e_entry_t2 = Ok [e_entry_t2].
Proof.
  split; [reflexivity|].
  apply (memlet_path_bare_empty map_state e_entry_t2); reflexivity.
Defined.

Lemma memlet_path_endpoints_witness :
  ∃ path,
    memlet_path map_state e_entry_t1 = Ok path ∧ e_entry_t1 ∈ path
    ∧ if is_bare_empty e_entry_t1 then path = [e_entry_t1]
      else ∃ first lst,
          head path = Some first ∧ last path = Some lst
          ∧ is_code_or_access (src first) = true ∧ sink_reached lst.
Proof.
  apply (memlet_path_endpoints map_state nid e_entry_t1);
    [reflexivity | reflexivity | by vm_compute; repeat constructor].
Defined.

(** C5 as stated fails: the state is well formed, acyclic and
    unambiguous; the path of the edge into the map-range connector [n]
    ends at the map entry, and the path of the empty memlet that leaves
    the map entry starts at the map entry. *)
Lemma memlet_path_endpoints_counterexample :
  scope_connectors_ok map_state = true
  ∧ topological nid map_state = true
  ∧ unambiguous map_state = true
  ∧ (e_N_entry ∈ edges map_state
     ∧ memlet_path map_state e_N_entry = Ok [e_N_entry]
     ∧ is_code_or_access (dst e_N_entry) = false
     ∧ isinstance_EntryNode (dst e_N_entry) = true)
  ∧ (e_entry_t2 ∈ edges map_state
     ∧ memlet_path map_state e_entry_t2 = Ok [e_entry_t2]
     ∧ is_code_or_access (src e_entry_t2) = false
     ∧ isinstance_EntryNode (src e_entry_t2) = true).
Proof.
  repeat split; try reflexivity; vm_compute; repeat constructor.
Qed.

End PathFacts.

(** ** Memlet trees *)

Module TreeFacts.
Import Dataflow CommonFacts.

#[local] Arguments string_drop : simpl never.
#[local] Arguments startswith : simpl never.

Lemma result_mapM_Ok {A B} (f : A → result B) (l : list A) (bs : list B) :
  result_mapM f l = Ok bs → Forall2 (λ a b, f a = Ok b) l bs.
Proof.
  revert bs. induction l as [|a l IH]; intros bs; simpl.
  - intros [= <-]. constructor.
  - destruct (f a) as [b| |] eqn:Hfa; simpl; [|done..].
    destruct (result_mapM f l) as [bs'| |]; simpl; [|done..].
    intros [= <-]. constructor; [done|by apply IH].
Qed.

Lemma result_mapM_returns {A B} (f : A → result B) (l : list A) :
  (∀ a, a ∈ l → returns (f a)) → returns (result_mapM f l).
Proof.
  induction l as [|a l IH]; intros Hall; simpl.
  - by eexists.
  - destruct (Hall a) as [b Hb]; [by left|]. rewrite Hb. simpl.
    destruct IH as [bs Hbs]; [intros; apply Hall; by right|].
    rewrite Hbs. simpl. by eexists.
Qed.

Lemma result_mapM_ext {A B} (f g : A → result B) (l : list A) :
  (∀ a, a ∈ l → f a = g a) → result_mapM f l = result_mapM g l.
Proof.
  induction l as [|a l IH]; intros Hall; simpl; [done|].
  rewrite (Hall a) by (by left). rewrite IH; [done|].
  intros; apply Hall; by right.
Qed.

Section WithSubsets.
Context {Subset : Type} `{EqDecision Subset}.
Implicit Types (state : Graph Subset) (e x y : Edge Subset)
  (t n : MemletTree Subset).

(** Induction on a tree, with the property known for all children. *)
Fixpoint MemletTree_induction (P : MemletTree Subset → Prop)
    (step : ∀ e d cs, Forall P cs → P (MT e d cs)) t : P t :=
  match t with
  | MT e d cs =>
    step e d cs
      ((fix go (cs : list (MemletTree Subset)) : Forall P cs :=
          match cs with
          | [] => @List.Forall_nil _ P
          | c :: cs' =>
            @List.Forall_cons _ P c cs' (MemletTree_induction P step c) (go cs')
          end) cs)
  end.

Lemma tree_edges_eq t :
  tree_edges t = edge t :: concat (map tree_edges (children t)).
Proof.
  destruct t as [e d cs]. simpl. f_equal.
  induction cs as [|c cs IH]; [done|]. simpl. by rewrite IH.
Qed.

Lemma tree_nodes_eq t :
  tree_nodes t = t :: concat (map tree_nodes (children t)).
Proof.
  destruct t as [e d cs]. simpl. f_equal.
  induction cs as [|c cs IH]; [done|]. simpl. by rewrite IH.
Qed.

Lemma tree_edges_nodes t : tree_edges t = map edge (tree_nodes t).
Proof.
  induction t as [e d cs IH] using MemletTree_induction.
  rewrite tree_edges_eq, tree_nodes_eq. simpl. f_equal.
  induction IH as [|c cs Hc _ IHcs]; [done|].
  simpl. rewrite map_app. by rewrite Hc, IHcs.
Qed.

Lemma elem_of_concat_map {A B} (f : A → list B) (l : list A) (b : B) :
  b ∈ concat (map f l) ↔ ∃ a, a ∈ l ∧ b ∈ f a.
Proof.
  induction l as [|a l IH]; simpl.
  - split; [by intros ?%not_elem_of_nil|]. by intros (a & ?%not_elem_of_nil & _).
  - rewrite elem_of_app, IH. split.
    + intros [Hb|(a' & Ha' & Hb)]; [exists a; split; [by left|done]|].
      exists a'. split; [by right|done].
    + intros (a' & Ha' & Hb). apply elem_of_cons in Ha' as [->|Ha']; [by left|].
      right. by exists a'.
Qed.

Lemma tree_nodes_self t : t ∈ tree_nodes t.
Proof. rewrite tree_nodes_eq. by left. Qed.

(** The nodes of a tree are closed under going to a child. *)
Lemma tree_nodes_child t n c :
  n ∈ tree_nodes t → c ∈ children n → c ∈ tree_nodes t.
Proof.
  induction t as [e d cs IH] using MemletTree_induction.
  rewrite tree_nodes_eq. simpl. intros Hn Hc.
  apply elem_of_cons in Hn as [->|Hn].
  - right. apply elem_of_concat_map. exists c. split; [done|apply tree_nodes_self].
  - right. apply elem_of_concat_map in Hn as (c' & Hc' & Hn).
    apply elem_of_concat_map. exists c'. split; [done|].
    rewrite Forall_forall in IH. by apply (IH c').
Qed.

(** [traverse], with the loop over the children written as a search in
    the list of their results. *)
Lemma traverse_eq e t :
  traverse e t =
  if bool_decide (edge t = e) then Some t
  else (list_find is_Some (map (traverse e) (children t))) ≫= snd.
Proof.
  destruct t as [e' d cs]. simpl. case_bool_decide; [done|].
  induction cs as [|c cs IH]; [done|]. simpl.
  destruct (traverse e c) as [r|] eqn:Htr; simpl; [done|].
  rewrite IH.
  by destruct (list_find is_Some (map (traverse e) cs)) as [[i o]|].
Qed.

Lemma traverse_Some e t r :
  traverse e t = Some r → edge r = e ∧ r ∈ tree_nodes t.
Proof.
  revert r. induction t as [e' d cs IH] using MemletTree_induction.
  intros r. rewrite traverse_eq, tree_nodes_eq.
  case_bool_decide as Hedge.
  { intros [= <-]. split; [done|by left]. }
  cbn [children edge].
  destruct (list_find _ _) as [[i o]|] eqn:Hfind; [|done]. simpl. intros ->.
  apply list_find_Some in Hfind as (Hi & _ & _).
  apply list_lookup_fmap_Some in Hi as (c & Hc & Htr).
  rewrite Forall_forall in IH.
  assert (c ∈ cs) as Hin by (by eapply list_elem_of_lookup_2).
  destruct (IH c Hin r) as [? ?]; [done|].
  split; [done|]. right. apply elem_of_concat_map. by exists c.
Qed.

Lemma traverse_None e t : traverse e t = None → e ∉ tree_edges t.
Proof.
  induction t as [e' d cs IH] using MemletTree_induction.
  rewrite traverse_eq, tree_edges_eq.
  case_bool_decide as Hedge; [done|].
  cbn [children edge].
  destruct (list_find _ _) as [[i o]|] eqn:Hfind.
  { apply list_find_Some in Hfind as (_ & [r ->] & _). done. }
  intros _ He. apply elem_of_cons in He as [->|He]; [done|].
  apply elem_of_concat_map in He as (c & Hc & He).
  rewrite Forall_forall in IH.
  apply (IH c Hc); [|done].
  destruct (traverse e c) as [r|] eqn:Htr; [|done].
  apply list_find_None in Hfind. rewrite Forall_forall in Hfind.
  exfalso. apply (Hfind (Some r)); [|by eexists].
  apply list_elem_of_fmap. exists c. by rewrite Htr.
Qed.

(** [traverse] finds a node that holds the edge, if any does. *)
Lemma traverse_finds e t :
  e ∈ tree_edges t →
  ∃ n, traverse e t = Some n ∧ edge n = e ∧ n ∈ tree_nodes t.
Proof.
  intros He. destruct (traverse e t) as [n|] eqn:Htr.
  - exists n. split; [done|]. by apply traverse_Some.
  - by apply traverse_None in Htr.
Qed.

(** *** Trees unfolded from a children function *)

Section Unfolding.

Variable kids : Edge Subset → list (Edge Subset).
Variable d0 : bool.
(** The edges the children are taken from, and a strict order that every
    step to a child follows. *)
Variable E : list (Edge Subset).
Variable before : Edge Subset → Edge Subset → Prop.
Hypothesis before_irrefl : ∀ x, ¬ before x x.
Hypothesis before_trans : ∀ x y z, before x y → before y z → before x z.
Hypothesis kids_in : ∀ x y, y ∈ kids x → y ∈ E.
Hypothesis kids_before : ∀ x y, y ∈ kids x → before x y.

Lemma descends_before x y : descends kids x y → x = y ∨ before x y.
Proof.
  induction 1 as [|p y _ [->|IH] Hy]; [by left|right; by apply kids_before|].
  right. eapply before_trans; [done|by apply kids_before].
Qed.

Lemma descends_in x y : x ∈ E → descends kids x y → y ∈ E.
Proof. intros Hx. induction 1 as [|p y _ _ Hy]; [done|by eapply kids_in]. Qed.

(** A branch of the tree is a list of distinct edges of [E], so the
    unfolding comes to an end when there is more fuel than edges. *)
Lemma unfold_tree_returns fuel t (anc : list (Edge Subset)) :
  NoDup anc → (∀ a, a ∈ anc → a ∈ E ∧ before a (edge t)) → edge t ∈ E →
  S (length E) ≤ fuel + length anc →
  returns (unfold_tree fuel kids d0 t).
Proof.
  revert t anc.
  induction fuel as [|fuel IH]; intros t anc Hnd Hanc Ht Hfuel.
  - exfalso.
    assert (length anc ≤ length E) as Hlen.
    { apply submseteq_length, NoDup_submseteq; [done|]. intros a Ha. by apply Hanc. }
    lia.
  - simpl.
    destruct (result_mapM_returns (unfold_tree fuel kids d0)
                (map (λ e', MT e' d0 []) (kids (edge t)))) as [cs Hcs].
    { intros c Hc. apply list_elem_of_fmap in Hc as (y & -> & Hy).
      apply (IH _ (edge t :: anc)).
      - constructor; [|done]. intros Hin. apply Hanc in Hin as [_ Hb].
        by apply before_irrefl in Hb.
      - intros a Ha. simpl. apply elem_of_cons in Ha as [->|Ha].
        + split; [done|by apply kids_before].
        + destruct (Hanc a Ha) as [? ?]. split; [done|].
          eapply before_trans; [done|by apply kids_before].
      - simpl. by eapply kids_in.
      - simpl. lia. }
    rewrite Hcs. simpl. by eexists.
Qed.

(** The unfolded tree keeps the edge at its root, gives every node the
    children of its edge, and holds descendants of the root only. *)
Lemma unfold_tree_spec fuel t T :
  unfold_tree fuel kids d0 t = Ok T →
  edge T = edge t
  ∧ (∀ n, n ∈ tree_nodes T → map edge (children n) = kids (edge n))
  ∧ (∀ y, y ∈ tree_edges T → descends kids (edge t) y).
Proof.
  revert t T. induction fuel as [|fuel IH]; intros t T; simpl; [done|].
  destruct (result_mapM _ _) as [cs| |] eqn:Hcs; simpl; [|done..].
  intros [= <-]. apply result_mapM_Ok in Hcs.
  split; [done|].
  assert (∀ ys, (∀ y, y ∈ ys → y ∈ kids (edge t)) →
            Forall2 (λ a b, unfold_tree fuel kids d0 a = Ok b)
                    (map (λ e', MT e' d0 []) ys) cs →
            map edge cs = ys
            ∧ (∀ c, c ∈ cs →
                 (∀ n, n ∈ tree_nodes c → map edge (children n) = kids (edge n))
                 ∧ (∀ y, y ∈ tree_edges c → descends kids (edge t) y)))
    as Hgen.
  { clear Hcs. intros ys. revert cs.
    induction ys as [|y ys IHys]; intros cs Hys Hcs; simpl in Hcs.
    - apply Forall2_nil_inv_l in Hcs as ->.
      split; [done|]. by intros c ?%not_elem_of_nil.
    - apply Forall2_cons_inv_l in Hcs as (c & cs' & Hc & Hcs & ->).
      destruct (IH _ _ Hc) as (Hedge & Hnodes & Hdesc). simpl in Hedge.
      destruct (IHys cs') as [Hes Hrest]; [intros; apply Hys; by right|done|].
      split; [simpl; by rewrite Hedge, Hes|].
      intros c' Hc'. apply elem_of_cons in Hc' as [->|Hc']; [|by apply Hrest].
      split; [done|]. intros z Hz. specialize (Hdesc z Hz). simpl in Hdesc.
      assert (y ∈ kids (edge t)) as Hy by (apply Hys; by left).
      clear -Hdesc Hy. induction Hdesc as [|p z _ IHp Hz].
      + eapply descends_step; [apply descends_refl|done].
      + by eapply descends_step. }
  destruct (Hgen (kids (edge t))) as [Hedges Hsub]; [done|done|].
  split.
  - intros n Hn. rewrite tree_nodes_eq in Hn. simpl in Hn.
    apply elem_of_cons in Hn as [->|Hn]; [done|].
    apply elem_of_concat_map in Hn as (c & Hc & Hn).
    by apply (Hsub c Hc).
  - intros y Hy. rewrite tree_edges_eq in Hy. simpl in Hy.
    apply elem_of_cons in Hy as [->|Hy]; [apply descends_refl|].
    apply elem_of_concat_map in Hy as (c & Hc & Hy).
    by apply (Hsub c Hc).
Qed.

(** Every descendant of the root is in the unfolded tree. *)
Lemma descends_in_tree fuel t T y :
  unfold_tree fuel kids d0 t = Ok T →
  descends kids (edge t) y → y ∈ tree_edges T.
Proof.
  intros HT. destruct (unfold_tree_spec _ _ _ HT) as (Hroot & Hnodes & _).
  induction 1 as [|p y _ IHp Hy].
  - rewrite tree_edges_eq, Hroot. by left.
  - rewrite tree_edges_nodes in IHp |- *.
    apply list_elem_of_fmap in IHp as (n & -> & Hn).
    rewrite <- (Hnodes n Hn) in Hy.
    apply list_elem_of_fmap in Hy as (c & -> & Hc).
    apply list_elem_of_fmap. exists c. split; [done|].
    by eapply tree_nodes_child.
Qed.

(** When the children of an edge are distinct and no edge is a child of
    two edges, no edge occurs twice in the unfolded tree. *)
Hypothesis kids_nodup : ∀ x, NoDup (kids x).
Hypothesis kids_unique :
  ∀ x x' y, x ∈ E → x' ∈ E → y ∈ kids x → y ∈ kids x' → x = x'.

Lemma descends_disjoint x c c' y :
  x ∈ E → c ∈ kids x → c' ∈ kids x → c ≠ c' →
  descends kids c y → descends kids c' y → False.
Proof.
  intros Hx Hc Hc' Hne Hd. revert c' Hc' Hne.
  assert (∀ c1 c2 p, c1 ∈ kids x → c2 ∈ kids x → c1 ∈ kids p →
            descends kids c2 p → False) as Hloop.
  { intros c1 c2 p H1 H2 Hp Hd2.
    assert (p ∈ E) as HpE
      by (apply (descends_in c2); [by apply (kids_in x)|done]).
    assert (p = x) as -> by (by eapply kids_unique).
    pose proof (kids_before _ _ H2) as Hb.
    destruct (descends_before _ _ Hd2) as [->|Hb'].
    - by apply before_irrefl in Hb.
    - eapply before_irrefl, before_trans; done. }
  induction Hd as [|p y Hd IHd Hy]; intros c' Hc' Hne Hd'.
  - inversion Hd' as [|p ? Hd'' Hp]; subst; [done|].
    by apply (Hloop c c' p).
  - inversion Hd' as [|p' ? Hd'' Hp']; subst.
    + by eapply (Hloop _ c p).
    + assert (p = p') as <-.
      { apply (kids_unique p p' y); [| |done|done].
        - apply (descends_in c); [by apply (kids_in x)|done].
        - apply (descends_in c'); [by apply (kids_in x)|done]. }
      by apply (IHd c').
Qed.

Lemma unfold_tree_NoDup fuel t T :
  edge t ∈ E → unfold_tree fuel kids d0 t = Ok T → NoDup (tree_edges T).
Proof.
  revert t T. induction fuel as [|fuel IH]; intros t T Ht; simpl; [done|].
  destruct (result_mapM _ _) as [cs| |] eqn:Hcs; simpl; [|done..].
  intros [= <-]. apply result_mapM_Ok in Hcs.
  rewrite tree_edges_eq. simpl.
  assert (∀ ys, (∀ y, y ∈ ys → y ∈ kids (edge t)) → NoDup ys →
            ∀ cs, Forall2 (λ a b, unfold_tree fuel kids d0 a = Ok b)
                          (map (λ e', MT e' d0 []) ys) cs →
            NoDup (concat (map tree_edges cs))
            ∧ ∀ z, z ∈ concat (map tree_edges cs) →
                   ∃ y, y ∈ ys ∧ descends kids y z) as Hgen.
  { clear Hcs cs. induction ys as [|y ys IHys]; intros Hys Hnd cs Hcs; simpl in Hcs.
    - apply Forall2_nil_inv_l in Hcs as ->. simpl.
      split; [constructor|]. by intros z ?%not_elem_of_nil.
    - apply Forall2_cons_inv_l in Hcs as (c & cs' & Hc & Hcs & ->).
      apply NoDup_cons in Hnd as [Hy Hnd].
      destruct (IHys) with (cs := cs') as [Hnd' Hdesc'];
        [intros; apply Hys; by right|done|done|].
      assert (y ∈ kids (edge t)) as HyK by (apply Hys; by left).
      destruct (unfold_tree_spec _ _ _ Hc) as (_ & _ & Hdesc). simpl in Hdesc.
      simpl. split.
      + apply NoDup_app. split; [|split; [|done]].
        * apply (IH (MT y d0 []) c); [by apply (kids_in (edge t))|done].
        * intros z Hz Hz'. destruct (Hdesc' z Hz') as (y' & Hy' & Hd').
          apply (descends_disjoint (edge t) y y' z); try done.
          -- apply Hys. by right.
          -- intros ->. done.
          -- by apply Hdesc.
      + intros z Hz. apply elem_of_app in Hz as [Hz|Hz].
        * exists y. split; [by left|by apply Hdesc].
        * destruct (Hdesc' z Hz) as (y' & ? & ?). exists y'. split; [by right|done]. }
  destruct (Hgen (kids (edge t))) with (cs := cs) as [Hnd Hdesc];
    [done|apply kids_nodup|done|].
  constructor; [|done].
  intros Hin. destruct (Hdesc _ Hin) as (y & Hy & Hd).
  pose proof (kids_before _ _ Hy) as Hb.
  destruct (descends_before _ _ Hd) as [->|Hb'].
  - by apply before_irrefl in Hb.
  - eapply before_irrefl, before_trans; done.
Qed.

End Unfolding.

(** *** [add_children] and the root searches *)

(** With one of the two directions switched on, [add_children] unfolds
    the tree of [scope_children_of]. *)
Lemma add_children_unfold fuel state fwd t :
  children t = [] →
  add_children fuel state fwd (negb fwd) t
  = unfold_tree fuel (scope_children_of state fwd) fwd t.
Proof.
  revert t. induction fuel as [|fuel IH]; intros t Hch; [done|].
  assert (t = MT (edge t) (downwards t) []) as Ht
    by (destruct t; simpl in *; by subst).
  simpl. unfold scope_children_of. destruct fwd; simpl.
  - destruct (isinstance_EntryNode (dst (edge t)) && truthy (dst_conn (edge t))
              && conn_startswith (dst_conn (edge t)) "IN_"); simpl.
    + erewrite result_mapM_ext; [done|].
      intros c Hc. apply list_elem_of_fmap in Hc as (y & -> & _). by apply (IH _).
    + by rewrite <- Ht.
  - replace (negb (isinstance_ExitNode (src (edge t)))
             || bool_decide (src_conn (edge t) = None))
      with (negb (isinstance_ExitNode (src (edge t))
                  && bool_decide (src_conn (edge t) ≠ None))).
    2:{ destruct (isinstance_ExitNode (src (edge t))); simpl; [|done].
        destruct (src_conn (edge t)); by simpl. }
    destruct (isinstance_ExitNode (src (edge t))
              && bool_decide (src_conn (edge t) ≠ None)); simpl.
    + erewrite result_mapM_ext; [done|].
      intros c Hc. apply list_elem_of_fmap in Hc as (y & -> & _). by apply (IH _).
    + by rewrite <- Ht.
Qed.

Lemma forward_child_spec state x y :
  y ∈ scope_children_of state true x ↔
  isinstance_EntryNode (dst x) = true
  ∧ (∃ c, dst_conn x = Some c ∧ startswith c "IN_" = true
          ∧ src_conn y = Some ("OUT_" +:+ string_drop 3 c))
  ∧ y ∈ edges state ∧ src y = dst x.
Proof.
  unfold scope_children_of, forward_siblings.
  destruct (isinstance_EntryNode (dst x)); simpl.
  2:{ split; [by intros ?%not_elem_of_nil|by intros [? _]]. }
  destruct (dst_conn x) as [c|]; simpl.
  2:{ split; [by intros ?%not_elem_of_nil|by intros (_ & (c & ? & _) & _)]. }
  destruct (startswith c "IN_") eqn:Hpre.
  - assert (c ≠ "") as Hne by (intros ->; done).
    rewrite bool_decide_eq_false_2 by done. simpl.
    rewrite elem_of_List_filter, out_edges_spec, conn_is_spec.
    split.
    + intros [[? ?] ?]. split; [done|]. split; [|done]. by exists c.
    + intros (_ & (c' & [= <-] & _ & ?) & ? & ?). done.
  - rewrite andb_false_r.
    split; [by intros ?%not_elem_of_nil|].
    intros (_ & (c' & [= <-] & ? & _) & _). congruence.
Qed.

Lemma backward_child_spec state x y :
  y ∈ scope_children_of state false x ↔
  isinstance_ExitNode (src x) = true
  ∧ (∃ c, src_conn x = Some c ∧ dst_conn y = Some ("IN_" +:+ string_drop 4 c))
  ∧ y ∈ edges state ∧ dst y = src x.
Proof.
  unfold scope_children_of, backward_siblings.
  destruct (isinstance_ExitNode (src x)); simpl.
  2:{ split; [by intros ?%not_elem_of_nil|by intros [? _]]. }
  destruct (src_conn x) as [c|]; simpl.
  2:{ split; [by intros ?%not_elem_of_nil|by intros (_ & (c & ? & _) & _)]. }
  rewrite elem_of_List_filter, in_edges_spec, conn_is_spec.
  split.
  - intros [[? ?] ?]. split; [done|]. split; [|done]. by exists c.
  - intros (_ & (c' & [= <-] & ?) & ? & ?). done.
Qed.

Lemma filter_at_most_one {A} (p : A → bool) (l : list A) (a b : A) :
  length (List.filter p l) ≤ 1 →
  a ∈ l → p a = true → b ∈ l → p b = true → a = b.
Proof.
  intros Hlen Ha Hpa Hb Hpb.
  assert (a ∈ List.filter p l) as Ha' by (by apply elem_of_List_filter).
  assert (b ∈ List.filter p l) as Hb' by (by apply elem_of_List_filter).
  destruct (List.filter p l) as [|z [|z' l']]; simpl in Hlen; [|
    apply list_elem_of_singleton in Ha', Hb'; congruence | lia].
  by apply not_elem_of_nil in Ha'.
Qed.

Lemma unique_parent_of_state state fwd y :
  unique_parents state fwd = true → y ∈ edges state →
  unique_parent state fwd y = true.
Proof.
  unfold unique_parents. rewrite forallb_forall.
  intros Hall Hin. apply Hall. by apply list_elem_of_In.
Qed.

Lemma scope_children_unique state fwd x x' y :
  scope_connectors_ok state = true →
  unique_parents state fwd = true →
  x ∈ edges state → x' ∈ edges state →
  y ∈ scope_children_of state fwd x → y ∈ scope_children_of state fwd x' →
  x = x'.
Proof.
  intros Hwf Huniq Hx Hx'. destruct fwd.
  - rewrite !forward_child_spec.
    intros (Hentry & (c & Hc & Hpre & Hy) & HyE & Hsrc)
           (_ & (c' & Hc' & Hpre' & Hy') & _ & Hsrc').
    pose proof (unique_parent_of_state _ _ _ Huniq HyE) as Hu.
    unfold unique_parent in Hu. rewrite Hsrc, Hentry, Hy in Hu.
    apply bool_decide_eq_true in Hu.
    rewrite drop_OUT, (split_IN _ Hpre) in Hu.
    assert (string_drop 3 c = string_drop 3 c') as Hd
      by (rewrite Hy in Hy'; by injection Hy').
    assert (c' = c) as -> by (by rewrite <- (split_IN c), <- (split_IN c'), Hd).
    eapply filter_at_most_one; [exact Hu| | | |].
    + by apply in_edges_spec.
    + by apply conn_is_spec.
    + apply in_edges_spec. split; [done|congruence].
    + by apply conn_is_spec.
  - rewrite !backward_child_spec.
    intros (Hexit & (c & Hc & Hy) & HyE & Hdst)
           (Hexit' & (c' & Hc' & Hy') & _ & Hdst').
    pose proof (unique_parent_of_state _ _ _ Huniq HyE) as Hu.
    unfold unique_parent in Hu. rewrite Hdst, Hexit, Hy in Hu.
    apply bool_decide_eq_true in Hu.
    destruct (out_connector_ok state x c) as [Hpre _];
      [done|done|by apply exit_is_scope|done|].
    destruct (out_connector_ok state x' c') as [Hpre' _];
      [done|done|by apply exit_is_scope|done|].
    rewrite drop_IN, (split_OUT _ Hpre) in Hu.
    assert (string_drop 4 c = string_drop 4 c') as Hd
      by (rewrite Hy in Hy'; by injection Hy').
    assert (c' = c) as -> by (by rewrite <- (split_OUT c), <- (split_OUT c'), Hd).
    eapply filter_at_most_one; [exact Hu| | | |].
    + by apply out_edges_spec.
    + by apply conn_is_spec.
    + apply out_edges_spec. split; [done|congruence].
    + by apply conn_is_spec.
Qed.

Lemma scope_children_NoDup state fwd x :
  NoDup (edges state) → NoDup (scope_children_of state fwd x).
Proof.
  intros Hnd. unfold scope_children_of, forward_siblings, backward_siblings,
    out_edges, in_edges.
  repeat match goal with
         | |- NoDup (if ?b then _ else _) => destruct b
         end; try constructor;
    apply NoDup_ListNoDup, List.NoDup_filter, NoDup_ListNoDup;
    by apply NoDup_filter.
Qed.

(** The root searches come to an end. *)
Lemma find_root_forward_terminates fuel state e0 cur visited :
  NoDup visited → cur ∉ visited →
  (∀ v, v ∈ cur :: visited → v ∈ e0 :: edges state) →
  S (length (edges state)) ≤ fuel + length visited →
  find_root_forward fuel state cur visited ≠ OutOfFuel.
Proof.
  revert cur visited.
  induction fuel as [|fuel IH]; intros cur visited Hnd Hcur Hsub Hfuel; simpl.
  - destruct (_ && _); [|done].
    assert (length visited ≤ length (edges state)) as Hb
      by (eapply visited_bound; [by constructor | done]).
    exfalso. lia.
  - destruct (_ && _); [|done].
    destruct (negb _); [done|].
    destruct (next _ _) as [next_edge| |] eqn:Hnext; simpl;
      [|done|by apply next_never_out_of_fuel in Hnext].
    case_bool_decide as Hvis; [done|].
    apply IH; [by constructor|done| |simpl; lia].
    intros v Hv. apply elem_of_cons in Hv as [->|Hv]; [|by apply Hsub].
    apply next_Ok in Hnext as [Hin _]. apply in_edges_spec in Hin as [Hin _].
    by right.
Qed.

Lemma find_root_backward_terminates fuel state e0 cur visited :
  NoDup visited → cur ∉ visited →
  (∀ v, v ∈ cur :: visited → v ∈ e0 :: edges state) →
  S (length (edges state)) ≤ fuel + length visited →
  find_root_backward fuel state cur visited ≠ OutOfFuel.
Proof.
  revert cur visited.
  induction fuel as [|fuel IH]; intros cur visited Hnd Hcur Hsub Hfuel; simpl.
  - destruct (_ && _); [|done].
    assert (length visited ≤ length (edges state)) as Hb
      by (eapply visited_bound; [by constructor | done]).
    exfalso. lia.
  - destruct (_ && _); [|done].
    destruct (negb _); [done|].
    destruct (next _ _) as [next_edge| |] eqn:Hnext; simpl;
      [|done|by apply next_never_out_of_fuel in Hnext].
    case_bool_decide as Hvis; [done|].
    apply IH; [by constructor|done| |simpl; lia].
    intros v Hv. apply elem_of_cons in Hv as [->|Hv]; [|by apply Hsub].
    apply next_Ok in Hnext as [Hin _]. apply out_edges_spec in Hin as [Hin _].
    by right.
Qed.

(** On a well-formed acyclic state the forward search stops, without an
    exception, at an edge of the state that no entry node hands on and
    from which the start edge descends. *)
Lemma find_root_forward_ok fuel state rank cur visited :
  scope_connectors_ok state = true → topological rank state = true →
  cur ∈ edges state →
  (∀ v, v ∈ visited → rank (src cur) < rank (src v)) →
  find_root_forward fuel state cur visited ≠ OutOfFuel →
  ∃ r, find_root_forward fuel state cur visited = Ok r
       ∧ r ∈ edges state ∧ outermost true r
       ∧ descends (scope_children_of state true) r cur.
Proof.
  intros Hwf Htopo. revert cur visited.
  induction fuel as [|fuel IH]; intros cur visited Hin Hrank; simpl.
  - destruct (_ && _) eqn:Hcond; [done|]. intros _. exists cur.
    split; [done|]. split; [done|]. split; [done|apply descends_refl].
  - destruct (_ && _) eqn:Hcond.
    2:{ intros _. exists cur.
        split; [done|]. split; [done|]. split; [done|apply descends_refl]. }
    apply andb_true_iff in Hcond as [Hentry Hconn].
    apply bool_decide_eq_true in Hconn.
    destruct (src_conn cur) as [c|] eqn:Hc; [clear Hconn|done].
    destruct (out_connector_ok state cur c) as [Hpre Hex];
      [done|done|by apply entry_is_scope|done|].
    simpl. rewrite Hpre. simpl.
    destruct (next_of_existsb _ _ Hex) as [next_edge Hnext].
    rewrite Hnext. simpl.
    apply next_Ok in Hnext as [Hnin Hnconn].
    apply in_edges_spec in Hnin as [Hnin Hdst].
    apply conn_is_spec in Hnconn.
    pose proof (rank_of_edge _ _ _ Htopo Hnin) as Hlt. rewrite Hdst in Hlt.
    rewrite bool_decide_eq_false_2.
    2:{ intros Hv. apply elem_of_cons in Hv as [->|Hv]; [lia|].
        specialize (Hrank _ Hv). lia. }
    intros Hfuel.
    destruct (IH next_edge (cur :: visited)) as (r & Hr & HrE & Hout & Hdesc);
      [done| |done|].
    { intros v Hv. apply elem_of_cons in Hv as [->|Hv]; [done|].
      specialize (Hrank _ Hv). lia. }
    exists r. split; [done|]. split; [done|]. split; [done|].
    eapply descends_step; [done|].
    apply forward_child_spec. rewrite Hdst. split; [done|].
    split; [|done].
    exists ("IN_" +:+ string_drop 4 c). split; [done|].
    split; [apply (startswith_app "IN_")|].
    by rewrite drop_IN, (split_OUT _ Hpre).
Qed.

Lemma find_root_backward_ok fuel state rank cur visited :
  scope_connectors_ok state = true → topological rank state = true →
  cur ∈ edges state →
  (∀ v, v ∈ visited → rank (dst v) < rank (dst cur)) →
  find_root_backward fuel state cur visited ≠ OutOfFuel →
  ∃ r, find_root_backward fuel state cur visited = Ok r
       ∧ r ∈ edges state ∧ outermost false r
       ∧ descends (scope_children_of state false) r cur.
Proof.
  intros Hwf Htopo. revert cur visited.
  induction fuel as [|fuel IH]; intros cur visited Hin Hrank; simpl.
  - destruct (_ && _) eqn:Hcond; [done|]. intros _. exists cur.
    split; [done|]. split; [done|]. split; [done|apply descends_refl].
  - destruct (_ && _) eqn:Hcond.
    2:{ intros _. exists cur.
        split; [done|]. split; [done|]. split; [done|apply descends_refl]. }
    apply andb_true_iff in Hcond as [Hexit Hconn].
    apply bool_decide_eq_true in Hconn.
    destruct (dst_conn cur) as [c|] eqn:Hc; [clear Hconn|done].
    destruct (exit_connector_ok state cur c) as [Hpre Hex]; [done..|].
    simpl. rewrite Hpre. simpl.
    destruct (next_of_existsb _ _ Hex) as [next_edge Hnext].
    rewrite Hnext. simpl.
    apply next_Ok in Hnext as [Hnin Hnconn].
    apply out_edges_spec in Hnin as [Hnin Hsrc].
    apply conn_is_spec in Hnconn.
    pose proof (rank_of_edge _ _ _ Htopo Hnin) as Hlt. rewrite Hsrc in Hlt.
    rewrite bool_decide_eq_false_2.
    2:{ intros Hv. apply elem_of_cons in Hv as [->|Hv]; [lia|].
        specialize (Hrank _ Hv). lia. }
    intros Hfuel.
    destruct (IH next_edge (cur :: visited)) as (r & Hr & HrE & Hout & Hdesc);
      [done| |done|].
    { intros v Hv. apply elem_of_cons in Hv as [->|Hv]; [done|].
      specialize (Hrank _ Hv). lia. }
    exists r. split; [done|]. split; [done|]. split; [done|].
    eapply descends_step; [done|].
    apply backward_child_spec. rewrite Hsrc. split; [done|].
    split; [|done].
    exists ("OUT_" +:+ string_drop 3 c). split; [done|].
    by rewrite drop_OUT, (split_IN _ Hpre).
Qed.

(** *** The tree of an edge *)

(** The tree that [memlet_tree] builds in one direction. *)
Lemma built_tree state rank fwd r e fuel :
  scope_connectors_ok state = true → topological rank state = true →
  NoDup (edges state) → r ∈ edges state →
  S (length (edges state)) ≤ fuel →
  descends (scope_children_of state fwd) r e →
  ∃ root node,
    add_children fuel state fwd (negb fwd) (MT r fwd []) = Ok root
    ∧ traverse e root = Some node
    ∧ edge root = r
    ∧ node ∈ tree_nodes root ∧ edge node = e
    ∧ (∀ n, n ∈ tree_nodes root →
         map edge (children n) = scope_children_of state fwd (edge n)
         ∧ NoDup (map edge (children n)))
    ∧ (unique_parents state fwd = true → NoDup (tree_edges root)).
Proof.
  intros Hwf Htopo Hnd Hr Hfuel Hdesc.
  set (kids := scope_children_of state fwd).
  set (before := λ x y : Edge Subset,
         if fwd then rank (dst x) < rank (dst y) else rank (src y) < rank (src x)).
  assert (∀ x, ¬ before x x) as Hirr by (intros x; unfold before; destruct fwd; lia).
  assert (∀ x y z, before x y → before y z → before x z) as Htr
    by (intros x y z; unfold before; destruct fwd; lia).
  assert (∀ x y, y ∈ kids x → y ∈ edges state) as Hin.
  { intros x y. unfold kids. destruct fwd.
    - rewrite forward_child_spec. tauto.
    - rewrite backward_child_spec. tauto. }
  assert (∀ x y, y ∈ kids x → before x y) as Hbefore.
  { intros x y. unfold kids, before. destruct fwd.
    - rewrite forward_child_spec. intros (_ & _ & Hy & Hsrc).
      pose proof (rank_of_edge _ _ _ Htopo Hy). by rewrite <- Hsrc.
    - rewrite backward_child_spec. intros (_ & _ & Hy & Hdst).
      pose proof (rank_of_edge _ _ _ Htopo Hy). by rewrite <- Hdst. }
  rewrite add_children_unfold by done. fold kids.
  destruct (unfold_tree_returns kids fwd (edges state) before Hirr Htr Hin Hbefore
              fuel (MT r fwd []) []) as [root Hroot].
  { constructor. }
  { by intros a ?%not_elem_of_nil. }
  { done. }
  { simpl. lia. }
  destruct (unfold_tree_spec kids fwd _ _ _ Hroot) as (Hedge & Hnodes & _).
  pose proof (descends_in_tree kids fwd _ _ _ e Hroot Hdesc) as He.
  destruct (traverse_finds _ _ He) as (node & Htr' & Hnode & Hin').
  exists root, node. split; [done|]. split; [done|]. split; [done|].
  split; [done|]. split; [done|]. split.
  - intros n Hn. split; [by apply Hnodes|].
    rewrite (Hnodes n Hn). by apply scope_children_NoDup.
  - intros Huniq.
    apply (unfold_tree_NoDup kids fwd (edges state) before Hirr Htr Hin Hbefore)
      with (fuel := fuel) (t := MT r fwd []); [| |done|done].
    + intros x. by apply scope_children_NoDup.
    + intros x x' y. by apply scope_children_unique.
Qed.

(** C9: [memlet_tree] of an edge that no scope hands on is the tree of
    that edge alone.  For an edge [e] of a well-formed acyclic state that
    crosses a scope boundary in one direction, [memlet_tree] returns the
    node of [e] in a tree whose root is the outermost edge that leads to
    [e]; at every level the children of a node are exactly the sibling
    edges that share the connector id of the node's edge on the far side
    of the scope node, each of them once; and when every connector of a
    scope node is fed by one edge, no edge occurs twice in the whole
    tree. *)
Theorem memlet_tree_spec state rank e :
  (propagate_forward e = false → propagate_backward e = false →
   memlet_tree state e
   = Ok (mkTreeRef (MemletTree_of e) (Some (MemletTree_of e)))
   ∧ tree_edges (MemletTree_of e) = [e])
  ∧ (propagate_forward e ≠ propagate_backward e →
     scope_connectors_ok state = true → topological rank state = true →
     NoDup (edges state) → e ∈ edges state →
     ∃ root node,
       memlet_tree state e = Ok (mkTreeRef root (Some node))
       ∧ edge root ∈ edges state
       ∧ outermost (propagate_forward e) (edge root)
       ∧ descends (scope_children_of state (propagate_forward e)) (edge root) e
       ∧ node ∈ tree_nodes root ∧ edge node = e
       ∧ (∀ n, n ∈ tree_nodes root →
            map edge (children n)
            = scope_children_of state (propagate_forward e) (edge n)
            ∧ NoDup (map edge (children n)))
       ∧ (unique_parents state (propagate_forward e) = true →
          NoDup (tree_edges root))).
Proof.
  split.
  - intros Hf Hb. unfold memlet_tree, memlet_tree_fuel. by rewrite Hf, Hb.
  - intros Hmode Hwf Htopo Hnd He.
    unfold memlet_tree, memlet_tree_fuel.
    rewrite bool_decide_eq_false_2 by done.
    remember (S (S (length (edges state)))) as fuel eqn:Hfuel.
    assert (∀ v, v ∈ [e] → v ∈ e :: edges state) as Hsub.
    { intros v Hv. apply list_elem_of_singleton in Hv as ->. by left. }
    destruct (propagate_forward e) eqn:Hf.
    + destruct (propagate_backward e) eqn:Hb; [done|].
      destruct (find_root_forward_ok fuel state rank e [])
        as (r & Hr & HrE & Hout & Hdesc); [done|done|done| | |].
      { by intros v ?%not_elem_of_nil. }
      { apply (find_root_forward_terminates _ _ e);
          [constructor|apply not_elem_of_nil|done|simpl; lia]. }
      rewrite Hr. simpl.
      destruct (built_tree state rank true r e fuel)
        as (root & node & Hroot & Htr & Hedge & Hin & Hnode & Hkids & Huniq);
        [done|done|done|done|lia|done|].
      simpl in Hroot. rewrite Hroot. simpl. rewrite Htr.
      exists root, node. rewrite Hedge. done.
    + destruct (propagate_backward e) eqn:Hb; [|done].
      destruct (find_root_backward_ok fuel state rank e [])
        as (r & Hr & HrE & Hout & Hdesc); [done|done|done| | |].
      { by intros v ?%not_elem_of_nil. }
      { apply (find_root_backward_terminates _ _ e);
          [constructor|apply not_elem_of_nil|done|simpl; lia]. }
      rewrite Hr. simpl.
      destruct (built_tree state rank false r e fuel)
        as (root & node & Hroot & Htr & Hedge & Hin & Hnode & Hkids & Huniq);
        [done|done|done|done|lia|done|].
      simpl in Hroot. rewrite Hroot. simpl. rewrite Htr.
      exists root, node. rewrite Hedge. done.
Qed.

End WithSubsets.

Import Examples.

Lemma memlet_tree_spec_witness :
  (memlet_tree broadcast_state f_X_producer
   = Ok (mkTreeRef (MemletTree_of f_X_producer)
                   (Some (MemletTree_of f_X_producer)))
   ∧ tree_edges (MemletTree_of f_X_producer) = [f_X_producer])
  ∧ ∃ root node,
      memlet_tree broadcast_state f_entry_t2 = Ok (mkTreeRef root (Some node))
      ∧ edge root ∈ edges broadcast_state
      ∧ outermost true (edge root)
      ∧ descends (scope_children_of broadcast_state true) (edge root) f_entry_t2
      ∧ node ∈ tree_nodes root ∧ edge node = f_entry_t2
      ∧ (∀ n, n ∈ tree_nodes root →
           map edge (children n)
           = scope_children_of broadcast_state true (edge n)
           ∧ NoDup (map edge (children n)))
      ∧ (unique_parents broadcast_state true = true →
         NoDup (tree_edges root)).
Proof.
  split.
  - apply (memlet_tree_spec broadcast_state nid f_X_producer); reflexivity.
  - apply (memlet_tree_spec broadcast_state nid f_entry_t2).
    + discriminate.
    + reflexivity.
    + reflexivity.
    + apply (bool_decide_unpack (NoDup (edges broadcast_state))).
      by vm_compute.
    + apply (bool_decide_unpack (f_entry_t2 ∈ edges broadcast_state)).
      by vm_compute.
Defined.

End TreeFacts.

(** ** Read and write sets *)

Module ReadWriteFacts.
Import Dataflow CommonFacts.

Section WithSubsets.
Context {Subset : Type} `{EqDecision Subset}.
Variable covers : Subset → Subset → bool.
Variable concurrent_subgraphs : Graph Subset → list (Graph Subset).
Variable dfs_topological_sort : Graph Subset → list Node → list Node.
Implicit Types (sg self : Graph Subset) (e : Edge Subset) (n : Node)
  (d : gmap string (list Subset)).











End WithSubsets.

Import Examples.

(** The scenario of the specification, computed: the state that writes
    all of [A] and then reads it reports [A] as written only; with the
    second subgraph beside it, [A] is read as well. *)
Lemma write_masking_scenario :
  read_and_write_sets interval_covers example_subgraphs example_order
    write_then_read = (∅, {[ "A" ]})
  ∧ read_and_write_sets interval_covers example_subgraphs example_order
      two_subgraphs = ({[ "A" ]}, {[ "A"; "B" ]}).
Proof. split; by vm_compute. Qed.

End ReadWriteFacts.

(** ** Scope dictionaries and the scope caches *)

Module ScopeFacts.
Import Dataflow CommonFacts.

Section WithSubsets.
Context {Subset : Type} `{EqDecision Subset} {Cycles : Type}.
Variable _scope_dict_inner_toparent :
  Graph Subset → list Node → list Node * gmap Node (option Node).
Variable _scope_dict_inner_tochildren :
  Graph Subset → list Node → list Node * gmap (option Node) (list Node).
Variable find_cycles : Graph Subset → Cycles.
Variable cycles_list : Cycles → list (list Node).
Variable cycles_truth : Cycles → bool.
Variable str_cycles : list (list Node) → string.
Variable str_queue : list Node → string.
Variable str_nodes : gset Node → string.
Variable str_scopes : gset (option Node) → string.
Implicit Types (self : SDFGState Subset).

Abbreviation scope_dict :=
  (scope_dict _scope_dict_inner_toparent find_cycles cycles_list
              str_cycles str_queue str_nodes).

(** C3 (amended): when nothing is cached and validation is on, a
    traversal that leaves nodes in its queue, or that assigns a number of
    nodes other than the number of nodes of the state, makes [scope_dict]
    fail: with the [ValueError] that names the state and the cycles when
    the cycle search finds any, with a [RuntimeError] otherwise.  Nothing
    is returned and nothing is cached. *)
Theorem scope_dict_unresolved self :
  _scope_dict_toparent_cached self = None →
  (_scope_dict_inner_toparent (graph self) (source_nodes (graph self))).1 ≠ []
  ∨ size (_scope_dict_inner_toparent (graph self) (source_nodes (graph self))).2
    ≠ number_of_nodes (graph self) →
  (scope_dict self true).2 = self
  ∧ if bool_decide (cycles_list (find_cycles (graph self)) = [])
    then ∃ msg, (scope_dict self true).1 = Raise (RuntimeError msg)
    else (scope_dict self true).1
         = Raise (ValueError ("Found cycles in state " +:+ label self +:+ ": "
                              +:+ str_cycles (cycles_list (find_cycles (graph self))))).
Proof.
  intros Hcache Hleft. unfold Dataflow.scope_dict, found_cycles_msg.
  rewrite Hcache.
  destruct (_scope_dict_inner_toparent _ _) as [eq res]. simpl in Hleft. simpl.
  case_bool_decide as Heq.
  - (* nodes are left in the queue *)
    destruct (bool_decide (cycles_list _ = [])); simpl; [|done].
    split; [done|]. by eexists.
  - case_bool_decide as Hsize.
    + destruct (bool_decide (cycles_list _ = [])); simpl; [|done].
      split; [done|]. by eexists.
    + exfalso. destruct Hleft as [Hq|Hn]; [|done]. by destruct eq.
Qed.

(** Without validation the partial dictionary is returned and cached. *)
Lemma scope_dict_unvalidated self :
  _scope_dict_toparent_cached self = None →
  (scope_dict self false).1
  = Ok (_scope_dict_inner_toparent (graph self) (source_nodes (graph self))).2
  ∧ _scope_dict_toparent_cached (scope_dict self false).2
    = Some (_scope_dict_inner_toparent (graph self) (source_nodes (graph self))).2.
Proof.
  intros Hcache. unfold Dataflow.scope_dict. rewrite Hcache.
  by destruct (_scope_dict_inner_toparent _ _) as [eq res].
Qed.

(** A cached dictionary is handed out as it is, validated or not. *)
Lemma scope_dict_cached self validate cached :
  _scope_dict_toparent_cached self = Some cached →
  scope_dict self validate = (Ok cached, self).
Proof. intros Hcache. unfold Dataflow.scope_dict. by rewrite Hcache. Qed.

(** *** The mutation methods of a state clear the scope caches *)

Lemma state_mutations_clear_caches self (n u v : Node) uc vc
    (m : Memlet Subset) (e : Edge Subset) :
  caches_clear (add_node self n)
  ∧ caches_clear (remove_node self n)
  ∧ caches_clear (add_edge self u uc v vc m).2
  ∧ caches_clear (remove_edge self e)
  ∧ caches_clear (remove_edge_and_connectors self e).
Proof.
  unfold caches_clear, add_node, remove_node, add_edge, remove_edge,
    remove_edge_and_connectors. simpl.
  by destruct (graph_add_edge (graph self) u uc v vc m).
Qed.

(** After a mutation [scope_dict] computes its answer from the graph as
    it is now. *)
Lemma scope_dict_after_add_node self n validate :
  (scope_dict (add_node self n) validate).1
  = (scope_dict (mkState (label self) (graph_add_node (graph self) n)
                         None None None None) validate).1.
Proof. done. Qed.

End WithSubsets.

Import Examples.

Lemma scope_dict_unresolved_witness :
  (scope_dict idle_traversal example_cycles id example_str example_str example_str
              cyclic_state true).1
  = Raise (ValueError ("Found cycles in state loop: ...")).
Proof.
  apply (scope_dict_unresolved idle_traversal example_cycles id
           example_str example_str example_str cyclic_state).
  - reflexivity.
  - right. by vm_compute.
Defined.

(** C3 as stated fails: with validation switched off, the two nodes of
    the cyclic state stay unresolved, a cycle exists, and [scope_dict]
    returns the empty dictionary. *)
Lemma scope_dict_unresolved_counterexample :
  _scope_dict_toparent_cached cyclic_state = None
  ∧ size (idle_traversal (K := Node) (V := option Node) (graph cyclic_state)
            (source_nodes (graph cyclic_state))).2 = 0
  ∧ number_of_nodes (graph cyclic_state) = 2
  ∧ example_cycles (graph cyclic_state) ≠ []
  ∧ (scope_dict idle_traversal example_cycles id example_str example_str
                example_str cyclic_state false).1 = Ok ∅.
Proof. repeat split; by vm_compute. Qed.

End ScopeFacts.

(** ** Start blocks and the start-block cache *)

Module StartBlockFacts.
Import ControlFlow.

Section WithNames.
Variable find_new_name : string → gset string → string.
Implicit Types (self : Region) (b : ControlFlowBlock).


(** What [ControlFlowRegion.add_node] and [add_edge] do to the cached
    start block. *)
Lemma add_node_resets_cache self b ensure_unique_name :
  _cached_start_block (add_node find_new_name self b false ensure_unique_name None).2
  = None.
Proof.
  unfold add_node. destruct ensure_unique_name; [|done].
  by destruct (_ensure_unique_block_name find_new_name self _).
Qed.

Lemma add_edge_into_cached_start self src dst d :
  _cached_start_block self = Some dst →
  _cached_start_block (add_edge self src dst d) = None.
Proof. intros Hc. unfold add_edge. by rewrite Hc, bool_decide_eq_true_2. Qed.

(** The inherited removals leave the cached start block as it is. *)
Lemma remove_node_keeps_cache self i :
  _cached_start_block (remove_node self i) = _cached_start_block self.
Proof. done. Qed.

Lemma remove_edge_keeps_cache self e :
  _cached_start_block (remove_edge self e) = _cached_start_block self.
Proof. done. Qed.

End WithNames.

Import Examples.



(** C8, the failing input: the region holds the block [A] alone and has
    answered [start_block] with it; once [A] is removed, the region is
    empty and still answers [A], where a fresh computation fails. *)
Lemma removed_block_stays_start_block :
  (start_block region_A).1 = Ok 1
  ∧ nodes (remove_node (start_block region_A).2 1) = []
  ∧ (start_block (remove_node (start_block region_A).2 1)).1 = Ok 1
  ∧ (start_block (remove_node region_A 1)).1
    = Raise (ValueError ambiguous_start_block).
Proof. repeat split. Qed.

End StartBlockFacts.

(** ** Inlining of loop regions *)

Module InlineFacts.
Import ControlFlow.

Section WithNames.
Variable find_new_name : string → gset string → string.
Implicit Types (self parent g : Region) (b : ControlFlowBlock).



(** *** The operations on the parent graph, step by step *)

Lemma ensure_unique_same g p :
  same_graph g (_ensure_unique_block_name find_new_name g p).2.
Proof.
  unfold _ensure_unique_block_name, same_graph.
  by destruct (bool_decide _).
Qed.

Lemma add_state_spec g l id :
  ∃ l' g',
    add_state find_new_name g (Some l) false None id = (new_state id l', g')
    ∧ nodes g' = nodes g ++ [new_state id l'] ∧ edges g' = edges g
    ∧ r_bid g' = r_bid g ∧ r_cls g' = r_cls g.
Proof.
  unfold add_state.
  pose proof (ensure_unique_same g (Some l)) as (Hn & He & Hb & Hc).
  destruct (_ensure_unique_block_name find_new_name g (Some l)) as [l' g1].
  simpl in *. exists l'. eexists. split; [done|]. simpl.
  by rewrite Hn, He, Hb, Hc.
Qed.

Lemma add_node_spec g b :
  ∃ l' g',
    add_node find_new_name g b false true None = (set_label b l', g')
    ∧ nodes g' = nodes g ++ [set_label b l'] ∧ edges g' = edges g
    ∧ r_bid g' = r_bid g ∧ r_cls g' = r_cls g.
Proof.
  unfold add_node.
  pose proof (ensure_unique_same g (Some (block_label b))) as (Hn & He & Hb & Hc).
  destruct (_ensure_unique_block_name find_new_name g _) as [l' g1].
  simpl in *. exists l'. eexists. split; [done|]. simpl.
  by rewrite Hn, He, Hb, Hc.
Qed.

Lemma add_edge_spec g src dst d :
  nodes (add_edge g src dst d) = nodes g
  ∧ edge_triple <$> edges (add_edge g src dst d)
    = (edge_triple <$> edges g) ++ [(src, dst, d)]
  ∧ r_bid (add_edge g src dst d) = r_bid g
  ∧ r_cls (add_edge g src dst d) = r_cls g.
Proof.
  unfold add_edge. destruct (bool_decide _); simpl;
    by rewrite fmap_app.
Qed.

Lemma bind_run {A B} (m : M A) (k : A → M B) h a h' :
  m h = (Ok a, h') → (m ≫= k) h = k a h'.
Proof. intros Hm. unfold mbind, M_bind. by rewrite Hm. Qed.

Lemma parent_add_state_run l h :
  ∃ l' g',
    parent_add_state find_new_name l h
    = (Ok (next_id h), mkHeap g' (S (next_id h)))
    ∧ nodes g' = nodes (graph h) ++ [new_state (next_id h) l']
    ∧ edges g' = edges (graph h)
    ∧ r_bid g' = r_bid (graph h) ∧ r_cls g' = r_cls (graph h).
Proof.
  unfold parent_add_state.
  destruct (add_state_spec (graph h) l (next_id h)) as (l' & g' & -> & ?).
  by exists l', g'.
Qed.

Lemma parent_add_node_run b h :
  ∃ l' g',
    parent_add_node find_new_name b h = (Ok (set_label b l'), mkHeap g' (next_id h))
    ∧ nodes g' = nodes (graph h) ++ [set_label b l']
    ∧ edges g' = edges (graph h)
    ∧ r_bid g' = r_bid (graph h) ∧ r_cls g' = r_cls (graph h).
Proof.
  unfold parent_add_node.
  destruct (add_node_spec (graph h) b) as (l' & g' & -> & ?).
  by exists l', g'.
Qed.

Lemma parent_add_edge_run src dst d h :
  ∃ g',
    parent_add_edge src dst d h = (Ok (), mkHeap g' (next_id h))
    ∧ nodes g' = nodes (graph h)
    ∧ edge_triple <$> edges g' = (edge_triple <$> edges (graph h)) ++ [(src, dst, d)]
    ∧ r_bid g' = r_bid (graph h) ∧ r_cls g' = r_cls (graph h).
Proof.
  unfold parent_add_edge, update. eexists. split; [done|]. apply add_edge_spec.
Qed.

Lemma filter_none {A} (P : A → Prop) `{∀ x, Decision (P x)} (l : list A) :
  (∀ x, x ∈ l → ¬ P x) → filter P l = [].
Proof.
  induction l as [|x l IH]; intros Hall; [done|].
  rewrite filter_cons, decide_False by (apply Hall; by left).
  apply IH. intros; apply Hall; by right.
Qed.

Lemma filter_all {A} (P : A → Prop) `{∀ x, Decision (P x)} (l : list A) :
  (∀ x, x ∈ l → P x) → filter P l = l.
Proof.
  induction l as [|x l IH]; intros Hall; [done|].
  rewrite filter_cons, decide_True by (apply Hall; by left).
  f_equal. apply IH. intros; apply Hall; by right.
Qed.

Lemma edge_free_triples g g' i :
  edge_triple <$> edges g' = edge_triple <$> edges g →
  edge_free g i → edge_free g' i.
Proof.
  intros Heq Hfree e He.
  assert (edge_triple e ∈ edge_triple <$> edges g) as Hin.
  { rewrite <- Heq. apply list_elem_of_fmap. by exists e. }
  apply list_elem_of_fmap in Hin as (e' & Ht & He').
  destruct (Hfree e' He') as [? ?].
  injection Ht as Hs Hd _. by rewrite Hs, Hd.
Qed.

Lemma no_edges_at g i :
  edge_free g i →
  in_edges g i = [] ∧ out_edges g i = [].
Proof.
  intros Hfree. unfold in_edges, out_edges.
  split; apply filter_none; intros e He; by destruct (Hfree e He).
Qed.

Lemma remove_node_spec g i :
  edge_free g i →
  nodes (remove_node g i) = filter (λ b, block_id b ≠ i) (nodes g)
  ∧ edges (remove_node g i) = edges g
  ∧ r_bid (remove_node g i) = r_bid g ∧ r_cls (remove_node g i) = r_cls g.
Proof.
  intros Hfree. unfold remove_node. simpl. split; [done|]. split; [|done].
  by apply filter_all.
Qed.

Lemma edge_free_iff g i :
  edge_free g i ↔
  ∀ t, t ∈ edge_triple <$> edges g → t.1.1 ≠ i ∧ t.1.2 ≠ i.
Proof.
  split.
  - intros Hfree t Ht. apply list_elem_of_fmap in Ht as (e & -> & He).
    by apply Hfree.
  - intros Hfree e He. apply (Hfree (edge_triple e)).
    apply list_elem_of_fmap. by exists e.
Qed.

Lemma filter_replace_block g b :
  filter (λ b', block_id b' ≠ block_id b) (nodes (replace_block g b))
  = filter (λ b', block_id b' ≠ block_id b) (nodes g).
Proof.
  unfold replace_block. simpl.
  induction (nodes g) as [|b' l IH]; [done|].
  simpl. rewrite !filter_cons, IH.
  case_bool_decide as Hid.
  - rewrite !decide_False by (intros ?; congruence). done.
  - by rewrite !decide_True by done.
Qed.

Lemma edge_free_same_edges g g' i :
  edges g' = edges g → edge_free g i → edge_free g' i.
Proof. unfold edge_free. by intros ->. Qed.

Lemma ret_run {A B} (a : A) (k : A → M B) h : (mret a ≫= k) h = k a h.
Proof. done. Qed.

Lemma bind_assoc_run {A B C} (m : M A) (k1 : A → M B) (k2 : B → M C) h :
  ((m ≫= k1) ≫= k2) h = (m ≫= λ a, k1 a ≫= k2) h.
Proof.
  unfold mbind, M_bind. destruct (m h) as [[a| |] h']; [|done..].
  by destruct (k1 a h') as [[b| |] h''].
Qed.

Lemma get_graph_run {B} (k : Region → M B) h :
  (get_graph ≫= k) h = k (graph h) h.
Proof. done. Qed.

Lemma lift_run {A B} (a : A) (k : A → M B) h : (lift (Ok a) ≫= k) h = k a h.
Proof. done. Qed.

Lemma update_run {B} f (k : unit → M B) h :
  (update f ≫= k) h = k () (mkHeap (f (graph h)) (next_id h)).
Proof. done. Qed.

Lemma for_each_nil_run {A B} (body : A → M unit) (k : unit → M B) h :
  (for_each [] body ≫= k) h = k () h.
Proof. done. Qed.

Lemma for_each_one_run {A B} (a : A) (body : A → M unit) (k : unit → M B) h h' :
  body a h = (Ok (), h') → (for_each [a] body ≫= k) h = k () h'.
Proof.
  intros Hb. unfold mbind, M_bind, for_each. simpl. by rewrite Hb.
Qed.

Lemma counting_region_start rid rlabel inv lv sid slabel syms labels sb cached :
  (start_block (counting_region rid rlabel inv lv (SDFGState sid slabel syms)
                                labels sb cached)).1 = Ok sid.
Proof. by destruct cached. Qed.

#[local] Arguments parent_add_state : simpl never.
#[local] Arguments parent_add_node : simpl never.
#[local] Arguments parent_add_edge : simpl never.
#[local] Arguments start_block : simpl never.
#[local] Arguments remove_node : simpl never.
#[local] Arguments in_edges : simpl never.
#[local] Arguments out_edges : simpl never.
#[local] Arguments get_graph : simpl never.
#[local] Arguments for_each : simpl never.
#[local] Arguments update : simpl never.
#[local] Arguments lift : simpl never.

Lemma LoopRegion_restructure_scenario p rid rlabel inv lv sid slabel syms
    labels sb cached next :
  edge_free p rid → rid < next → sid ≠ rid →
  ∃ p' l_init l_guard l_end l_latch l_S,
    LoopRegion_restructure find_new_name
      (counting_region rid rlabel inv lv (SDFGState sid slabel syms) labels sb cached)
      (counting_loop inv lv) (mkHeap p next)
    = (Ok (true, Some (next, next + 1, next + 2)), mkHeap p' (next + 4))
    ∧ nodes p'
      = filter (λ b, block_id b ≠ rid) (nodes p)
        ++ [new_state next l_init; new_state (next + 1) l_guard;
            new_state (next + 2) l_end; new_state (next + 3) l_latch;
            SDFGState sid l_S syms]
    ∧ edge_triple <$> edges p'
      = (edge_triple <$> edges p)
        ++ [(next, if inv then sid else next + 1,
             mkInterstateEdge (Num 1) {[ "i" := Num 0 ]});
            (next + 3, next + 1,
             mkInterstateEdge (Num 1) {[ "i" := BinOp (Name "i") "+" (Num 1) ]});
            (next + 1, next + 2,
             mkInterstateEdge (UnaryNot (Compare (Name "i") "<" (Num 3))) ∅);
            (next + 1, sid, mkInterstateEdge (Compare (Name "i") "<" (Num 3)) ∅);
            (sid, next + 3, InterstateEdge_default)].
Proof.
  intros Hfree Hnext Hsid.
  set (R := counting_region rid rlabel inv lv (SDFGState sid slabel syms)
                            labels sb cached).
  unfold LoopRegion_restructure.
  destruct (parent_add_state_run (r_label R +:+ "_init") (mkHeap p next))
    as (l_init & g1 & E1 & Hn1 & He1 & Hb1 & Hc1).
  rewrite (bind_run _ _ _ _ _ E1). cbn [next_id graph] in *.
  destruct (parent_add_state_run (r_label R +:+ "_guard") (mkHeap g1 (Datatypes.S next)))
    as (l_guard & g2 & E2 & Hn2 & He2 & Hb2 & Hc2).
  rewrite (bind_run _ _ _ _ _ E2). cbn [next_id graph] in *.
  destruct (parent_add_state_run (r_label R +:+ "_end")
              (mkHeap g2 (Datatypes.S (Datatypes.S next))))
    as (l_end & g3 & E3 & Hn3 & He3 & Hb3 & Hc3).
  rewrite (bind_run _ _ _ _ _ E3). cbn [next_id graph] in *.
  destruct (parent_add_state_run (r_label R +:+ "_latch")
              (mkHeap g3 (Datatypes.S (Datatypes.S (Datatypes.S next)))))
    as (l_latch & g4 & E4 & Hn4 & He4 & Hb4 & Hc4).
  rewrite (bind_run _ _ _ _ _ E4). cbn [next_id graph] in *.
  rewrite get_graph_run. cbn [next_id graph].
  change (nodes R) with [SDFGState sid slabel syms].
  cbn [isinstance_BreakBlock isinstance_ContinueBlock isinstance_ReturnBlock
       set_label andb block_id block_label].
  rewrite bind_assoc_run.
  destruct (parent_add_node_run (SDFGState sid (r_label R +:+ "_" +:+ slabel) syms)
              (mkHeap g4 (Datatypes.S (Datatypes.S (Datatypes.S (Datatypes.S next))))))
    as (l_S & g5 & E5 & Hn5 & He5 & Hb5 & Hc5).
  rewrite (bind_run _ _ _ _ _ E5). cbn [next_id graph set_label] in *.
  rewrite ret_run.
  change (bool_decide (out_degree R sid = 0)) with true.
  change (edges R) with (@nil Edge).
  cbn beta iota.
  rewrite for_each_nil_run, get_graph_run. cbn [next_id graph].
  assert (edges g5 = edges p) as He by congruence.
  pose proof (edge_free_same_edges _ _ _ He Hfree) as Hfree5.
  destruct (no_edges_at _ _ Hfree5) as [Hin Hout].
  change (r_bid R) with rid.
  rewrite Hin, for_each_nil_run, get_graph_run. cbn [next_id graph].
  rewrite Hout, for_each_nil_run.
  change (header_edge (init_statement (counting_loop inv lv)))
    with (Ok (mkInterstateEdge (Num 1) {[ "i" := Num 0 ]})).
  rewrite lift_run.
  pose proof (counting_region_start rid rlabel inv lv sid slabel syms labels sb cached)
    as Hstart.
  fold R in Hstart. rewrite Hstart.
  set (n4 := Datatypes.S (Datatypes.S (Datatypes.S (Datatypes.S next)))).
  assert (∃ g6,
    (if inverted (counting_loop inv lv)
     then lift (Ok sid) ≫= λ sb0,
            parent_add_edge next sb0 (mkInterstateEdge (Num 1) {[ "i" := Num 0 ]})
     else parent_add_edge next (Datatypes.S next)
            (mkInterstateEdge (Num 1) {[ "i" := Num 0 ]})) (mkHeap g5 n4)
    = (Ok (), mkHeap g6 n4)
    ∧ nodes g6 = nodes g5
    ∧ edge_triple <$> edges g6
      = (edge_triple <$> edges g5)
        ++ [(next, if inv then sid else Datatypes.S next,
             mkInterstateEdge (Num 1) {[ "i" := Num 0 ]})])
    as (g6 & E6 & Hn6 & He6).
  { change (inverted (counting_loop inv lv)) with inv. destruct inv.
    - rewrite lift_run.
      destruct (parent_add_edge_run next sid
                  (mkInterstateEdge (Num 1) {[ "i" := Num 0 ]}) (mkHeap g5 n4))
        as (g6 & E & Hn & He' & _). by exists g6.
    - destruct (parent_add_edge_run next (Datatypes.S next)
                  (mkInterstateEdge (Num 1) {[ "i" := Num 0 ]}) (mkHeap g5 n4))
        as (g6 & E & Hn & He' & _). by exists g6. }
  rewrite (bind_run _ _ _ _ _ E6).
  change (header_edge (update_statement (counting_loop inv lv)))
    with (Ok (mkInterstateEdge (Num 1) {[ "i" := BinOp (Name "i") "+" (Num 1) ]})).
  rewrite lift_run.
  destruct (parent_add_edge_run (Datatypes.S (Datatypes.S (Datatypes.S next)))
              (Datatypes.S next)
              (mkInterstateEdge (Num 1) {[ "i" := BinOp (Name "i") "+" (Num 1) ]})
              (mkHeap g6 n4)) as (g7 & E7 & Hn7 & He7 & _).
  rewrite (bind_run _ _ _ _ _ E7). cbn [next_id graph] in *.
  change (negate_expr (loop_condition (counting_loop inv lv)))
    with (UnaryNot (Compare (Name "i") "<" (Num 3))).
  change (loop_condition (counting_loop inv lv))
    with (Compare (Name "i") "<" (Num 3)).
  destruct (parent_add_edge_run (Datatypes.S next) (Datatypes.S (Datatypes.S next))
              (mkInterstateEdge (UnaryNot (Compare (Name "i") "<" (Num 3))) ∅)
              (mkHeap g7 n4)) as (g8 & E8 & Hn8 & He8 & _).
  rewrite (bind_run _ _ _ _ _ E8). cbn [next_id graph] in *.
  rewrite lift_run.
  destruct (parent_add_edge_run (Datatypes.S next) sid
              (mkInterstateEdge (Compare (Name "i") "<" (Num 3)) ∅)
              (mkHeap g8 n4)) as (g9 & E9 & Hn9 & He9 & _).
  rewrite (bind_run _ _ _ _ _ E9). cbn [next_id graph] in *.
  destruct (parent_add_edge_run sid (Datatypes.S (Datatypes.S (Datatypes.S next)))
              InterstateEdge_default (mkHeap g9 n4)) as (g10 & E10 & Hn10 & He10 & _).
  cbn [app]. rewrite (for_each_one_run _ _ _ _ _ E10).
  rewrite for_each_nil_run, update_run. cbn [next_id graph] in *.
  assert (edge_free g10 rid) as Hfree10.
  { apply edge_free_iff. intros t Ht.
    rewrite He10, He9, He8, He7, He6 in Ht.
    rewrite !elem_of_app, !list_elem_of_singleton in Ht.
    destruct Ht as [[[[[Ht| ->]| ->]| ->]| ->]| ->]; cbn [fst snd].
    - by apply (proj1 (edge_free_iff g5 rid) Hfree5).
    - destruct inv; split; lia.
    - split; lia.
    - split; lia.
    - split; [lia|done].
    - split; [done|lia]. }
  destruct (remove_node_spec _ _ Hfree10) as (Hn11 & He11 & _).
  exists (remove_node g10 rid), l_init, l_guard, l_end, l_latch, l_S.
  replace (next + 1) with (Datatypes.S next) by lia.
  replace (next + 2) with (Datatypes.S (Datatypes.S next)) by lia.
  replace (next + 3) with (Datatypes.S (Datatypes.S (Datatypes.S next))) by lia.
  replace (next + 4) with n4 by (unfold n4; lia).
  split; [done|]. split.
  - rewrite Hn11, Hn10, Hn9, Hn8, Hn7, Hn6, Hn5, Hn4, Hn3, Hn2, Hn1.
    rewrite <- !app_assoc. cbn [app]. rewrite filter_app. f_equal.
    apply filter_all. intros b Hb.
    rewrite !elem_of_cons, elem_of_nil in Hb.
    destruct Hb as [->|[->|[->|[->|[->|[]]]]]]; cbn [block_id new_state]; lia.
  - rewrite He11, He10, He9, He8, He7, He6, He.
    by rewrite <- !app_assoc.
Qed.

(** C2. Inlining a loop region whose header is [i = 0], [i < 3],
    [i = i + 1] and which holds the single state [S], with nothing
    connected to the region in its parent: the call answers [True] with
    the new init, guard and end states; the region has left the parent,
    which has gained four fresh states (init, guard, end, latch) and [S];
    and the parent has gained exactly the edges
    init -> guard carrying [i = 0] (init -> [S] for an inverted loop),
    latch -> guard carrying [i = i + 1],
    guard -> end under the negated condition,
    guard -> [S] under the condition, and
    [S] -> latch unconditionally. *)
Theorem LoopRegion_inline_scenario parent rid rlabel inv lv sid slabel syms
    labels sb (cached : bool) next :
  let S := SDFGState sid slabel syms in
  let R := counting_region rid rlabel inv lv S labels sb cached in
  RegionBlock R ∈ nodes parent → edge_free parent rid → rid < next → sid ≠ rid →
  ∃ parent' l_init l_guard l_end l_latch l_S,
    LoopRegion_inline find_new_name R (counting_loop inv lv) (Some parent) next
    = (Ok (true, Some (next, next + 1, next + 2)), Some parent', next + 4)
    ∧ nodes parent'
      = filter (λ b, block_id b ≠ rid) (nodes parent)
        ++ [new_state next l_init; new_state (next + 1) l_guard;
            new_state (next + 2) l_end; new_state (next + 3) l_latch;
            SDFGState sid l_S syms]
    ∧ edge_triple <$> edges parent'
      = (edge_triple <$> edges parent)
        ++ [(next, if inv then sid else next + 1,
             mkInterstateEdge (Num 1) {[ "i" := Num 0 ]});
            (next + 3, next + 1,
             mkInterstateEdge (Num 1) {[ "i" := BinOp (Name "i") "+" (Num 1) ]});
            (next + 1, next + 2,
             mkInterstateEdge (UnaryNot (Compare (Name "i") "<" (Num 3))) ∅);
            (next + 1, sid, mkInterstateEdge (Compare (Name "i") "<" (Num 3)) ∅);
            (sid, next + 3, InterstateEdge_default)].
Proof.
  intros S R HR Hfree Hnext Hsid.
  set (p0 := replace_block parent (RegionBlock R)).
  assert (edges p0 = edges parent) as He0 by done.
  destruct (LoopRegion_restructure_scenario p0 rid rlabel inv lv sid slabel syms
              labels sb cached next (edge_free_same_edges _ _ _ He0 Hfree)
              Hnext Hsid)
    as (p' & l_init & l_guard & l_end & l_latch & l_S & Hrun & Hn & He).
  exists p', l_init, l_guard, l_end, l_latch, l_S.
  split; [|split].
  - unfold LoopRegion_inline.
    change (only_assignments (init_statement (counting_loop inv lv))) with true.
    change (only_assignments (update_statement (counting_loop inv lv))) with true.
    change (recursive_inline_cf_regions find_new_name (RegionBlock R) next)
      with (Ok (), RegionBlock R, next).
    cbn [negb]. cbn beta iota zeta. fold p0.
    fold S in Hrun. fold R in Hrun. by rewrite Hrun.
  - rewrite Hn. f_equal. apply (filter_replace_block parent (RegionBlock R)).
  - by rewrite He, He0.
Qed.


End WithNames.

Import Examples.


Lemma LoopRegion_inline_scenario_witness :
  ∃ parent' l_init l_guard l_end l_latch l_S,
    LoopRegion_inline example_find_new_name (loop_R false) (counting_attrs false)
      (Some (parent_P false)) 3
    = (Ok (true, Some (3, 4, 5)), Some parent', 7)
    ∧ nodes parent'
      = [new_state 3 l_init; new_state 4 l_guard; new_state 5 l_end;
         new_state 6 l_latch; SDFGState 2 l_S (mkStateSymbols {[ "i" ]} ∅)]
    ∧ edge_triple <$> edges parent'
      = [(3, 4, mkInterstateEdge (Num 1) {[ "i" := Num 0 ]});
         (6, 4, mkInterstateEdge (Num 1) {[ "i" := BinOp (Name "i") "+" (Num 1) ]});
         (4, 5, mkInterstateEdge (UnaryNot (Compare (Name "i") "<" (Num 3))) ∅);
         (4, 2, mkInterstateEdge (Compare (Name "i") "<" (Num 3)) ∅);
         (2, 6, InterstateEdge_default)].
Proof.
  apply (LoopRegion_inline_scenario example_find_new_name (parent_P false)
           1 "R" false "i" 2 "S" (mkStateSymbols {[ "i" ]} ∅) ∅ None false 3).
  - by left.
  - intros e He. by apply elem_of_nil in He.
  - lia.
  - lia.
Defined.

(** The same call evaluated: the labels of the blocks of the parent
    afterwards, and the next free identity. *)
Lemma LoopRegion_inline_computed (inv : bool) :
  let '(res, parent', next) :=
    LoopRegion_inline example_find_new_name (loop_R inv) (counting_attrs inv)
      (Some (parent_P inv)) 3 in
  res = Ok (true, Some (3, 4, 5))
  ∧ (λ b, (block_id b, block_label b)) <$> default [] (nodes <$> parent')
    = [(3, "R_init"); (4, "R_guard"); (5, "R_end"); (6, "R_latch"); (2, "R_S")]
  ∧ (λ e, (e_src e, e_dst e)) <$> default [] (edges <$> parent')
    = [(3, if inv then 2 else 4); (6, 4); (4, 5); (4, 2); (2, 6)]
  ∧ next = 7.
Proof. destruct inv; by vm_compute. Qed.

End InlineFacts.

(** * Symbol liveness *)

Module SymbolFacts.

Section StateSymbols.
Import Dataflow.

Context {Subset : Type}.
Variable sdfg_symbols : gset string.
Variable sdfg_constants : gset string.
Variable new_symbols : Node → gset string.
Variable desc_used_symbols : Node → bool → gset string.
Variable language_is_Python : Node → bool.
Variable called_names : Node → gset string.
Variable symbols_in_code : Node → gset string → gset string.
Variable node_used_symbols : Node → bool → gset string.
Variable memlet_used_symbols : Edge Subset → bool → gset string.

#[local] Abbreviation node_syms :=
  (node_symbols sdfg_symbols new_symbols desc_used_symbols language_is_Python
                called_names symbols_in_code node_used_symbols).
#[local] Abbreviation state_used_symbols :=
  (used_symbols sdfg_symbols sdfg_constants new_symbols desc_used_symbols
                language_is_Python called_names symbols_in_code
                node_used_symbols memlet_used_symbols).

(** The loop over the nodes only ever adds to the two sets, and what a
    node adds does not depend on what is there already. *)
Lemma node_symbols_acc all n (acc : gset string * gset string) :
  node_syms all n acc
  = (acc.1 ∪ (node_syms all n (∅, ∅)).1,
     acc.2 ∪ (node_syms all n (∅, ∅)).2).
Proof.
  destruct acc as [ns fs]. unfold node_symbols.
  destruct (cls n); [| destruct (language_is_Python n) | | |]; simpl;
    f_equal; set_solver.
Qed.

Lemma fold_node_symbols all (l : list Node) (acc : gset string * gset string) v :
  (v ∈ (fold_left (λ acc n, node_syms all n acc) l acc).1
   ↔ v ∈ acc.1 ∨ ∃ n, n ∈ l ∧ v ∈ (node_syms all n (∅, ∅)).1)
  ∧ (v ∈ (fold_left (λ acc n, node_syms all n acc) l acc).2
     ↔ v ∈ acc.2 ∨ ∃ n, n ∈ l ∧ v ∈ (node_syms all n (∅, ∅)).2).
Proof.
  revert acc. induction l as [|n l IH]; intros acc.
  - simpl. split; (split; [by left|]); by intros [?|(n & Hn & _)];
      [|by apply elem_of_nil in Hn].
  - simpl. destruct (IH (node_syms all n acc)) as [IH1 IH2].
    rewrite IH1, IH2, (node_symbols_acc all n acc). simpl.
    rewrite !elem_of_union.
    split; (split; [intros [[?|?]|(n' & Hn' & ?)]
                   |intros [?|(n' & Hn' & ?)]]);
      try (by left; left); try (by left);
      try (right; exists n; split; [by left|done]);
      try (right; exists n'; split; [by right|done]).
    + apply elem_of_cons in Hn' as [->|Hn']; [by left; right|].
      right. by exists n'.
    + apply elem_of_cons in Hn' as [->|Hn']; [by left; right|].
      right. by exists n'.
Qed.

Lemma edge_symbols_acc (g : Graph Subset) all e (fs : gset string) :
  edge_symbols memlet_used_symbols g all e fs
  = fs ∪ edge_symbols memlet_used_symbols g all e ∅.
Proof.
  unfold edge_symbols. destruct (negb all && negb (is_leaf_memlet e));
    set_solver.
Qed.

Lemma fold_edge_symbols (g : Graph Subset) all (l : list (Edge Subset))
    (fs : gset string) v :
  v ∈ fold_left (λ fs e, edge_symbols memlet_used_symbols g all e fs) l fs
  ↔ v ∈ fs ∨ ∃ e, e ∈ l ∧ v ∈ edge_symbols memlet_used_symbols g all e ∅.
Proof.
  revert fs. induction l as [|e l IH]; intros fs.
  - simpl. split; [by left|]. by intros [?|(e & He & _)];
      [|by apply elem_of_nil in He].
  - simpl. rewrite IH, (edge_symbols_acc g all e fs), elem_of_union.
    split.
    + intros [[?|?]|(e' & He' & ?)]; [by left| |].
      * right. exists e. split; [by left|done].
      * right. exists e'. split; [by right|done].
    + intros [?|(e' & He' & ?)]; [by left; left|].
      apply elem_of_cons in He' as [->|He']; [by left; right|].
      right. by exists e'.
Qed.

(** The symbols a state reports are those that some node or some memlet
    contributes, less those that an entry node of the state introduces
    and less the constants of the SDFG. *)
Lemma used_symbols_spec (g : Graph Subset) all v :
  v ∈ state_used_symbols g all
  ↔ ((∃ n, n ∈ nodes g ∧ v ∈ (node_syms all n (∅, ∅)).2)
     ∨ (∃ e, e ∈ edges g ∧ v ∈ edge_symbols memlet_used_symbols g all e ∅))
    ∧ (∀ n, n ∈ nodes g → v ∉ (node_syms all n (∅, ∅)).1)
    ∧ v ∉ sdfg_constants.
Proof.
  unfold used_symbols.
  pose proof (fold_node_symbols all (nodes g) (∅, ∅) v) as [H1 H2].
  destruct (fold_left _ (nodes g) (∅, ∅)) as [ns fs] eqn:Hfold.
  simpl in H1, H2.
  rewrite elem_of_difference, fold_edge_symbols, H2, not_elem_of_union, H1.
  split.
  - intros [[[?|?]|?] [Hno ?]]; [set_solver| |];
      (split; [by auto|]); (split; [|done]);
      intros n Hn Hv; apply Hno; right; by exists n.
  - intros [Hsome [Hno ?]]. split.
    + destruct Hsome as [?|?]; [left; by right|by right].
    + split; [|done]. intros [?|(n & Hn & Hv)]; [set_solver|].
      by apply (Hno n).
Qed.

(** Only entry nodes introduce symbols. *)
Lemma node_symbols_new all n v :
  v ∈ (node_syms all n (∅, ∅)).1 → cls n = EntryNode ∧ v ∈ new_symbols n.
Proof.
  unfold node_symbols.
  destruct (cls n); [| destruct (language_is_Python n) | | |]; simpl;
    set_solver.
Qed.

(** A symbol of a memlet of the state is reported when all symbols are
    asked for, unless an entry node introduces it or it is a constant. *)
Lemma memlet_symbol_used (g : Graph Subset) e v :
  e ∈ edges g → v ∈ memlet_used_symbols e true →
  v ∉ sdfg_constants →
  (∀ n, n ∈ nodes g → cls n = EntryNode → v ∉ new_symbols n) →
  v ∈ state_used_symbols g true.
Proof.
  intros He Hv Hc Hnew. apply used_symbols_spec. split; [|split; [|done]].
  - right. exists e. split; [done|]. unfold edge_symbols. simpl. set_solver.
  - intros n Hn Hin. apply node_symbols_new in Hin as [Hcls Hin].
    by apply (Hnew n).
Qed.

End StateSymbols.

Section RegionSymbols.
Import ControlFlow.

Variable get_free_symbols : CodeBlock → gset string.
Variable condition_free_symbols : expr → gset string.
Variable edge_used_symbols : InterstateEdge → bool → gset string.
Variable sdfg_arrays : gset string.
Variable array_used_symbols : string → bool → gset string.
Variable bfs_nodes : Region → nat → list nat.

#[local] Abbreviation region_used_symbols :=
  (used_symbols get_free_symbols condition_free_symbols edge_used_symbols
                sdfg_arrays array_used_symbols bfs_nodes).
#[local] Abbreviation internal :=
  (_used_symbols_internal get_free_symbols condition_free_symbols
                          edge_used_symbols sdfg_arrays array_used_symbols
                          bfs_nodes).
#[local] Abbreviation region_syms :=
  (region_symbols edge_used_symbols sdfg_arrays array_used_symbols bfs_nodes).
#[local] Abbreviation loop_syms :=
  (loop_symbols get_free_symbols condition_free_symbols).

(** The loop variable is among the defined symbols a loop returns, and
    not among the free ones, unless the caller has seen it used before
    its assignment. *)
Lemma loop_symbols_defines attrs body s r :
  loop_syms attrs body s = Ok r →
  loop_variable attrs ∉ used_before_assignment s →
  loop_variable attrs ∈ defined_syms r
  ∧ (loop_variable attrs ∉ free_syms r)
  ∧ (loop_variable attrs ∉ used_before_assignment r).
Proof.
  unfold loop_symbols. intros Hr Hub.
  destruct (body no_symbols) as [b| |]; simpl in Hr; [|done..].
  injection Hr as <-. simpl. set_solver.
Qed.

(** Called on its own, a loop region never reports its loop variable,
    whatever its header and its body are. *)
Lemma loop_variable_not_used (R : Region) attrs all keep X :
  r_cls R = LoopRegion attrs →
  region_used_symbols R all keep = Ok X →
  loop_variable attrs ∉ X.
Proof.
  intros Hcls. unfold used_symbols. simpl. rewrite Hcls.
  destruct (loop_symbols _ _ _ _ _) as [r| |] eqn:Hr; [|done..].
  simpl. intros [= <-].
  by apply (loop_symbols_defines _ _ _ _ Hr).
Qed.

(** [start_block] fails with a [ValueError] or an [IndexError] only. *)
Lemma start_block_result (self : Region) :
  match (start_block self).1 with
  | Ok _ | Raise (ValueError _) | Raise IndexError => True
  | _ => False
  end.
Proof.
  unfold start_block.
  destruct (_cached_start_block self); [done|].
  destruct (source_nodes self) as [|? [|? ?]]; try done;
    (destruct (_start_block self); [|done]); unfold node;
    by destruct (nodes self !! _).
Qed.

(** A region of plain blocks whose start block is found or ambiguous
    yields its three sets. *)
Lemma region_symbols_plain (self : Region) all keep
    (table : list (ControlFlowBlock * (SymbolSets → result SymbolSets))) s :
  (∀ p, p ∈ table → is_region p.1 = false) →
  (start_block self).1 ≠ Raise IndexError →
  ∃ r, region_syms self all keep table s = Ok r.
Proof.
  intros Hplain Hstart. unfold region_symbols.
  assert (∃ blocks, ordered_blocks bfs_nodes self table = Ok blocks
                    ∧ ∀ p, p ∈ blocks → is_region p.1 = false)
    as (blocks & -> & Hblocks).
  { unfold ordered_blocks. pose proof (start_block_result self) as Hres.
    destruct (start_block self).1 as [b|[]|]; try done.
    - eexists. split; [done|]. intros p Hp.
      apply list_elem_of_omap in Hp as (i & _ & Hfind).
      apply List.find_some in Hfind as [Hin _].
      apply Hplain. by apply list_elem_of_In.
    - by exists table. }
  assert (∀ acc0, ∃ s',
    foldl (block_symbols edge_used_symbols sdfg_arrays array_used_symbols
                         self all) (Ok acc0) blocks = Ok s') as Hfold.
  { clear Hplain. induction blocks as [|[block nested] blocks IH]; intros acc0.
    - by exists acc0.
    - assert (is_region block = false) as Hb
        by (apply (Hblocks (block, nested)); by left).
      simpl. rewrite Hb. simpl.
      apply IH. intros p Hp. apply Hblocks. by right. }
  simpl.
  destruct (Hfold s) as (s' & ->). simpl.
  destruct (r_cls self) as [symbols mapping| |]; simpl; eauto.
Qed.

End RegionSymbols.

Section Liveness.

Context {Subset : Type}.
Variable sdfg_symbols : gset string.
Variable sdfg_constants : gset string.
Variable new_symbols : Dataflow.Node → gset string.
Variable desc_used_symbols : Dataflow.Node → bool → gset string.
Variable language_is_Python : Dataflow.Node → bool.
Variable called_names : Dataflow.Node → gset string.
Variable symbols_in_code : Dataflow.Node → gset string → gset string.
Variable node_used_symbols : Dataflow.Node → bool → gset string.
Variable memlet_used_symbols : Dataflow.Edge Subset → bool → gset string.
Variable get_free_symbols : ControlFlow.CodeBlock → gset string.
Variable condition_free_symbols : ControlFlow.expr → gset string.
Variable edge_used_symbols : ControlFlow.InterstateEdge → bool → gset string.
Variable sdfg_arrays : gset string.
Variable array_used_symbols : string → bool → gset string.
Variable bfs_nodes : ControlFlow.Region → nat → list nat.

(** C4. A loop region with loop variable [i] around a single state,
    whatever that state references and whatever the header statements
    are (in particular [i = 0], [i < 10], [i = i + 1] and a body that
    references [i]): [used_symbols] with [all_symbols = True] answers a
    set that does not hold [i].  A state outside the loop with a memlet
    that references [i] reports [i] among its used symbols (when no map
    of that state introduces [i] and [i] is not a constant). *)
Theorem loop_variable_liveness (attrs : ControlFlow.LoopAttrs)
    rid rlabel sid slabel syms labels sb cached keep
    (sibling : Dataflow.Graph Subset) (e : Dataflow.Edge Subset) :
  let i := ControlFlow.loop_variable attrs in
  let R := ControlFlow.mkRegion rid rlabel (ControlFlow.LoopRegion attrs)
             [ControlFlow.SDFGState sid slabel syms] [] labels sb cached in
  e ∈ Dataflow.edges sibling →
  i ∈ memlet_used_symbols e true →
  i ∉ sdfg_constants →
  (∀ n, n ∈ Dataflow.nodes sibling →
        Dataflow.cls n = Dataflow.EntryNode → i ∉ new_symbols n) →
  (∃ X, ControlFlow.used_symbols get_free_symbols condition_free_symbols
          edge_used_symbols sdfg_arrays array_used_symbols bfs_nodes
          R true keep = Ok X
        ∧ i ∉ X)
  ∧ i ∈ Dataflow.used_symbols sdfg_symbols sdfg_constants new_symbols
          desc_used_symbols language_is_Python called_names symbols_in_code
          node_used_symbols memlet_used_symbols sibling true.
Proof.
  intros i R He Hi Hc Hnew. split.
  - assert (∃ X, ControlFlow.used_symbols get_free_symbols
                   condition_free_symbols edge_used_symbols sdfg_arrays
                   array_used_symbols bfs_nodes R true keep = Ok X)
      as [X HX].
    { unfold ControlFlow.used_symbols. simpl.
      unfold ControlFlow.loop_symbols.
      edestruct (region_symbols_plain edge_used_symbols sdfg_arrays
                   array_used_symbols bfs_nodes R true keep) as [r ->].
      - intros p Hp. apply list_elem_of_singleton in Hp as ->. done.
      - by destruct cached.
      - simpl. eauto. }
    exists X. split; [done|].
    by apply (loop_variable_not_used get_free_symbols condition_free_symbols
                edge_used_symbols sdfg_arrays array_used_symbols bfs_nodes
                R attrs true keep X eq_refl).
  - by apply (memlet_symbol_used sdfg_symbols sdfg_constants new_symbols
                desc_used_symbols language_is_Python called_names
                symbols_in_code node_used_symbols memlet_used_symbols
                sibling e).
Qed.

End Liveness.

Import Examples.

Lemma loop_variable_liveness_witness :
  (∃ X, ControlFlow.used_symbols (λ _, {[ "i" ]}) (λ _, {[ "i" ]}) (λ _ _, ∅) ∅
          (λ _ _, ∅) (λ _ b, [b]) (loop_R false) true false = Ok X
        ∧ "i" ∉ X)
  ∧ "i" ∈ Dataflow.used_symbols ∅ ∅ (λ _, ∅) (λ _ _, ∅) (λ _, true) (λ _, ∅)
            (λ _ _, ∅) (λ _ _, ∅) example_memlet_symbols read_only true.
Proof.
  apply (loop_variable_liveness ∅ ∅ (λ _, ∅) (λ _ _, ∅) (λ _, true) (λ _, ∅)
           (λ _ _, ∅) (λ _ _, ∅) example_memlet_symbols
           (λ _, {[ "i" ]}) (λ _, {[ "i" ]}) (λ _ _, ∅) ∅ (λ _ _, ∅) (λ _ b, [b])
           (counting_attrs false) 1 "R" 2 "S" (ControlFlow.mkStateSymbols {[ "i" ]} ∅)
           ∅ None None false read_only g_read_A').
  - by left.
  - by apply elem_of_singleton.
  - apply not_elem_of_empty.
  - intros n _ _. apply not_elem_of_empty.
Defined.

End SymbolFacts.

(** * Further facts: the scope caches of a state *)

Module ScopeCacheFacts.
Import Dataflow.

Section WithSubsets.
Context {Subset : Type} `{EqDecision Subset} {Cycles : Type}.
Variable _scope_dict_inner_toparent :
  Graph Subset → list Node → list Node * gmap Node (option Node).
Variable _scope_dict_inner_tochildren :
  Graph Subset → list Node → list Node * gmap (option Node) (list Node).
Variable find_cycles : Graph Subset → Cycles.
Variable cycles_list : Cycles → list (list Node).
Variable cycles_truth : Cycles → bool.
Variable str_cycles : list (list Node) → string.
Variable str_queue : list Node → string.
Variable str_nodes : gset Node → string.
Variable str_scopes : gset (option Node) → string.
Implicit Types (self : SDFGState Subset).

#[local] Abbreviation scope_dict :=
  (scope_dict _scope_dict_inner_toparent find_cycles cycles_list
              str_cycles str_queue str_nodes).
#[local] Abbreviation scope_children :=
  (scope_children _scope_dict_inner_tochildren find_cycles cycles_list
                  cycles_truth str_cycles str_queue str_scopes).

Lemma scope_dict_Ok_cached self validate d :
  (scope_dict self validate).1 = Ok d →
  _scope_dict_toparent_cached (scope_dict self validate).2 = Some d.
Proof.
  unfold Dataflow.scope_dict.
  destruct (_scope_dict_toparent_cached self) as [c|] eqn:Hc.
  { simpl. by intros [= <-]. }
  destruct (_scope_dict_inner_toparent _ _) as [eq res].
  repeat (destruct (_ && _); [by destruct (negb _)|]).
  simpl. by intros [= <-].
Qed.

(** Once [scope_dict] has answered, every later call on the state gives
    the same answer and leaves the state as it is, whatever the
    validation flags of the two calls are: an answer that was computed
    without validation is handed out by a validating call as well. *)
Theorem scope_dict_repeatable self validate validate' d :
  (scope_dict self validate).1 = Ok d →
  scope_dict (scope_dict self validate).2 validate'
  = (Ok d, (scope_dict self validate).2).
Proof.
  intros Hd. apply scope_dict_Ok_cached in Hd.
  revert Hd. generalize (scope_dict self validate).2. intros self' Hd.
  unfold Dataflow.scope_dict. by rewrite Hd.
Qed.

(** A call of [scope_dict] that raises leaves every cache of the state
    as it was; a call that answers fills the node-to-parent cache only. *)
Theorem scope_dict_other_caches self validate :
  _scope_dict_tochildren_cached (scope_dict self validate).2
  = _scope_dict_tochildren_cached self
  ∧ _scope_tree_cached (scope_dict self validate).2 = _scope_tree_cached self
  ∧ _scope_leaves_cached (scope_dict self validate).2 = _scope_leaves_cached self
  ∧ graph (scope_dict self validate).2 = graph self
  ∧ (∀ e, (scope_dict self validate).1 = Raise e →
          (scope_dict self validate).2 = self).
Proof.
  unfold Dataflow.scope_dict.
  destruct (_scope_dict_toparent_cached self) as [c|] eqn:Hc; [done|].
  destruct (_scope_dict_inner_toparent _ _) as [eq res].
  repeat (destruct (_ && _); [by destruct (negb _)|]).
  done.
Qed.

(** [scope_children] on a state without a cached answer, with validation:
    when the traversal leaves nodes in its queue, or fills a number of
    scopes other than the number of entry nodes plus one, the call
    raises and caches nothing.  It is the [ValueError] for cycles when
    the object that [find_cycles] returns is true, even if it lists no
    cycle, and a [RuntimeError] otherwise. *)
Theorem scope_children_unresolved self :
  _scope_dict_tochildren_cached self = None →
  (_scope_dict_inner_tochildren (graph self) (source_nodes (graph self))).1 ≠ []
  ∨ size (_scope_dict_inner_tochildren (graph self) (source_nodes (graph self))).2
    ≠ size (list_to_set (C := gset (option Node))
              (map Some (filter (λ n, isinstance_EntryNode n = true)
                                (nodes (graph self)))) ∪ {[ None ]}) →
  (scope_children self true).2 = self
  ∧ if cycles_truth (find_cycles (graph self))
    then (scope_children self true).1
         = Raise (ValueError ("Found cycles in state " +:+ label self +:+ ": "
                              +:+ str_cycles (cycles_list (find_cycles (graph self)))))
    else ∃ msg, (scope_children self true).1 = Raise (RuntimeError msg).
Proof.
  intros Hcache Hleft. unfold Dataflow.scope_children, found_cycles_msg.
  rewrite Hcache.
  destruct (_scope_dict_inner_tochildren _ _) as [eq res]. simpl in Hleft. simpl.
  case_bool_decide as Heq.
  - destruct (cycles_truth _); simpl; [done|]. split; [done|]. by eexists.
  - case_bool_decide as Hsize.
    + destruct (cycles_truth _); simpl; [done|]. split; [done|]. by eexists.
    + exfalso. destruct Hleft as [Hq|Hn]; [|done]. by destruct eq.
Qed.

(** The five mutation methods of a state forget every cached scope
    answer: two states with the same label and graph give the same state
    whatever either had cached, so a [scope_dict] call after the
    mutation computes from the graph as it is then. *)
Theorem state_mutations_forget_caches self self' (n u v : Node) uc vc
    (m : Memlet Subset) (e : Edge Subset) validate :
  label self = label self' → graph self = graph self' →
  add_node self n = add_node self' n
  ∧ remove_node self n = remove_node self' n
  ∧ add_edge self u uc v vc m = add_edge self' u uc v vc m
  ∧ remove_edge self e = remove_edge self' e
  ∧ remove_edge_and_connectors self e = remove_edge_and_connectors self' e
  ∧ _scope_dict_toparent_cached (remove_node self n) = None
  ∧ (scope_dict (remove_node self n) validate).1
    = (scope_dict (mkState (label self) (graph_remove_node (graph self) n)
                           None None None None) validate).1.
Proof.
  intros Hl Hg.
  unfold add_node, remove_node, add_edge, remove_edge,
    remove_edge_and_connectors, _clear_scopedict_cache, with_graph. simpl.
  rewrite Hl, Hg. done.
Qed.

End WithSubsets.

Import Examples.

Lemma scope_dict_repeatable_witness :
  scope_dict idle_traversal example_cycles id example_str example_str example_str
    (scope_dict idle_traversal example_cycles id example_str example_str
                example_str cyclic_state false).2 true
  = (Ok ∅, (scope_dict idle_traversal example_cycles id example_str example_str
                       example_str cyclic_state false).2).
Proof.
  apply (scope_dict_repeatable idle_traversal example_cycles id
           example_str example_str example_str cyclic_state false true ∅).
  reflexivity.
Defined.

Lemma scope_children_unresolved_witness :
  (scope_children idle_traversal (λ _, true) (λ _, []) id example_str example_str
                  example_str cyclic_state true).1
  = Raise (ValueError ("Found cycles in state loop: ...")).
Proof.
  apply (scope_children_unresolved idle_traversal (λ _, true) (λ _, []) id
           example_str example_str example_str cyclic_state).
  - reflexivity.
  - right. by vm_compute.
Defined.

Lemma state_mutations_forget_caches_witness :
  _scope_dict_toparent_cached
    (remove_node (mkState "loop" cyclic_graph (Some ∅) None None None) c_t1)
  = None.
Proof.
  apply (state_mutations_forget_caches idle_traversal example_cycles id
           example_str example_str example_str
           (mkState "loop" cyclic_graph (Some ∅) None None None) cyclic_state
           c_t1 c_t1 c_t2 None None empty_memlet
           (mkEdge 0 c_t1 None c_t2 None empty_memlet) true);
    reflexivity.
Defined.

End ScopeCacheFacts.

(** * Further facts: blocks, labels and start blocks of a region *)

Module BlockFacts.
Import ControlFlow.

Section WithNames.
Variable find_new_name : string → gset string → string.
Implicit Types (self : Region) (b : ControlFlowBlock) (e : Edge).

(** The setter of [start_block] refuses an index that is negative or not
    below the number of blocks with the [ValueError] for an invalid
    state id; given the index of a block, it makes the getter answer
    with that block, whatever the sources of the graph are, and leaves
    blocks and edges alone. *)
Theorem set_start_block_spec self (i : Z) :
  ((i < 0 ∨ Z.of_nat (number_of_nodes self) ≤ i)%Z →
     set_start_block self i = Raise (ValueError "Invalid state ID"))
  ∧ ((0 ≤ i < Z.of_nat (number_of_nodes self))%Z →
     ∃ b r, nodes self !! Z.to_nat i = Some b
            ∧ set_start_block self i = Ok r
            ∧ start_block r = (Ok (block_id b), r)
            ∧ _start_block r = Some (Z.to_nat i)
            ∧ nodes r = nodes self ∧ edges r = edges self).
Proof.
  unfold set_start_block, number_of_nodes. split.
  - intros Hi.
    destruct (i <? 0)%Z eqn:Hlt; [done|].
    destruct (Z.of_nat (length (nodes self)) <=? i)%Z eqn:Hge; [done|].
    apply Z.ltb_ge in Hlt. apply Z.leb_gt in Hge. lia.
  - intros [Hlo Hhi].
    destruct (i <? 0)%Z eqn:Hlt; [apply Z.ltb_lt in Hlt; lia|].
    destruct (Z.of_nat (length (nodes self)) <=? i)%Z eqn:Hge;
      [apply Z.leb_le in Hge; lia|].
    simpl. unfold node.
    destruct (nodes self !! Z.to_nat i) as [b|] eqn:Hb.
    + exists b. eexists. split; [done|]. split; [done|]. done.
    + apply lookup_ge_None in Hb. lia.
Qed.

(** [add_node] appends the block and forgets the cached start block.
    With the start flag, the block becomes the start block, by its index
    and in the cache; the deprecated [is_start_state], when given, is the
    flag and [is_start_block] is ignored. *)
Theorem add_node_start_block self b is_start_block ensure_unique_name
    is_start_state :
  let r := add_node find_new_name self b is_start_block ensure_unique_name
                    is_start_state in
  nodes r.2 = nodes self ++ [r.1]
  ∧ edges r.2 = edges self
  ∧ block_id r.1 = block_id b
  ∧ if default is_start_block is_start_state
    then start_block r.2 = (Ok (block_id b), r.2)
         ∧ node r.2 (length (nodes self)) = Ok r.1
         ∧ _start_block r.2 = Some (length (nodes self))
    else _cached_start_block r.2 = None
         ∧ _start_block r.2 = _start_block self.
Proof.
  unfold add_node.
  assert (∀ l, block_id (set_label b l) = block_id b) as Hid
    by (intros l; by destruct b).
  destruct ensure_unique_name.
  - unfold _ensure_unique_block_name.
    set (l := find_new_name _ _).
    destruct (bool_decide (size (_labels self) ≠ number_of_nodes self));
      destruct is_start_state as [[]|]; try destruct is_start_block; simpl;
      rewrite ?Hid, ?length_app, ?Nat.add_sub; simpl;
      unfold node; simpl; rewrite ?Hid, ?list_lookup_middle by done; done.
  - destruct is_start_state as [[]|]; try destruct is_start_block; simpl;
      rewrite ?length_app, ?Nat.add_sub; simpl;
      unfold node; simpl; rewrite ?list_lookup_middle by done; done.
Qed.

(** *** Labels *)

Lemma ensure_unique_name_sync self l :
  labels_in_sync self →
  _ensure_unique_block_name find_new_name self l
  = (find_new_name (proposed_name l) (list_to_set (labels_of self)),
     with_labels self (list_to_set (labels_of self))).
Proof.
  intros Hsync. unfold _ensure_unique_block_name, proposed_name, labels_of.
  case_bool_decide as Hsize; [done|].
  destruct Hsync as [Heq|?]; [|done].
  unfold labels_of in Heq. rewrite <- Heq. by destruct self.
Qed.

Lemma add_node_plain self b is_start_block is_start_state :
  (add_node find_new_name self b is_start_block false is_start_state).1 = b
  ∧ nodes (add_node find_new_name self b is_start_block false is_start_state).2
    = nodes self ++ [b]
  ∧ edges (add_node find_new_name self b is_start_block false is_start_state).2
    = edges self
  ∧ _labels (add_node find_new_name self b is_start_block false is_start_state).2
    = _labels self.
Proof.
  unfold add_node. by destruct is_start_state as [[]|], is_start_block.
Qed.

(** [add_state] while the label cache is right (or its size gives it
    away): the new state is labelled by [find_new_name] from the proposed
    name (['block'] when none or the empty one is given) and the labels
    of the blocks present; afterwards the cache holds the labels of all
    blocks.  If that name is not among the labels present, labels that
    were pairwise distinct stay so. *)
Theorem add_state_label self l is_start_block is_start_state id :
  labels_in_sync self →
  let r := add_state find_new_name self l is_start_block is_start_state id in
  let name := find_new_name (proposed_name l) (list_to_set (labels_of self)) in
  r.1 = new_state id name
  ∧ nodes r.2 = nodes self ++ [r.1]
  ∧ edges r.2 = edges self
  ∧ _labels r.2 = list_to_set (labels_of r.2)
  ∧ (name ∉ labels_of self → NoDup (labels_of self) → NoDup (labels_of r.2)).
Proof.
  intros Hsync. unfold add_state.
  rewrite (ensure_unique_name_sync _ _ Hsync).
  set (name := find_new_name _ _).
  set (self1 := with_labels _ _).
  destruct (add_node_plain self1 (new_state id name)
              (match is_start_state with Some b => b | None => is_start_block end)
              None) as (H1 & Hn & He & Hl).
  cbn zeta. rewrite H1. unfold labels_of. rewrite Hn, He, Hl.
  split; [done|]. split; [done|]. split; [done|]. split.
  - subst self1. simpl. rewrite fmap_app, list_to_set_app_L. simpl.
    unfold labels_of. set_solver.
  - intros Hfresh Hnd. simpl. rewrite fmap_app. apply NoDup_app.
    split; [done|]. split.
    + intros x Hx Hx'. apply list_elem_of_singleton in Hx' as ->. done.
    + apply NoDup_singleton.
Qed.

(** When the label cache is stale but of the right size (a block was
    removed and another added by [add_node] since it was filled), the
    name is chosen against the stale cache: a label that a block carries
    and the cache lacks is given out again, if [find_new_name] returns a
    name that is not taken as it is. *)
Theorem add_state_stale_labels self l is_start_block is_start_state id :
  size (_labels self) = number_of_nodes self →
  l ≠ "" → l ∈ labels_of self → l ∉ _labels self →
  find_new_name l (_labels self) = l →
  let r := add_state find_new_name self (Some l) is_start_block is_start_state id in
  block_label r.1 = l ∧ labels_of r.2 = labels_of self ++ [l]
  ∧ ¬ NoDup (labels_of r.2).
Proof.
  intros Hsize Hl Hin Hout Hname. unfold add_state, _ensure_unique_block_name.
  rewrite bool_decide_eq_false_2 by (intros ?; done).
  rewrite bool_decide_eq_false_2 by done.
  rewrite Hname.
  set (self1 := with_labels _ _).
  destruct (add_node_plain self1 (new_state id l)
              (match is_start_state with Some b => b | None => is_start_block end)
              None) as (H1 & Hn & He & Hlab).
  cbn zeta. rewrite H1. unfold labels_of. rewrite Hn, fmap_app.
  split; [done|]. split; [done|].
  intros Hnd. apply NoDup_app in Hnd as (_ & Hdisj & _).
  apply (Hdisj l Hin). by left.
Qed.

(** *** Redirecting edges *)

Lemma fresh_eid_gt self e : e ∈ edges self → eid e < fresh_eid self.
Proof.
  unfold fresh_eid. induction (edges self) as [|e' es IH]; intros Hin.
  - by apply elem_of_nil in Hin.
  - simpl. apply elem_of_cons in Hin as [->|Hin]; [lia|].
    specialize (IH Hin). lia.
Qed.

Lemma eid_inj (es : list Edge) e e' :
  NoDup (eid <$> es) → e ∈ es → e' ∈ es → eid e = eid e' → e = e'.
Proof.
  intros Hnd He He' Heq.
  apply list_elem_of_lookup in He as [i Hi].
  apply list_elem_of_lookup in He' as [j Hj].
  assert (i = j) as ->.
  { apply (NoDup_lookup _ _ _ (eid e) Hnd);
      rewrite list_lookup_fmap; [by rewrite Hi|by rewrite Hj, Heq]. }
  congruence.
Qed.

Lemma NoDup_of_eids (es : list Edge) : NoDup (eid <$> es) → NoDup es.
Proof. apply NoDup_fmap_1. Qed.

Lemma filter_ext_in {A} (P Q : A → Prop) `{∀ x, Decision (P x)}
    `{∀ x, Decision (Q x)} (l : list A) :
  (∀ x, x ∈ l → P x ↔ Q x) → filter P l = filter Q l.
Proof.
  induction l as [|x l IH]; intros Hext; [done|].
  rewrite !filter_cons.
  assert (filter P l = filter Q l) as ->
    by (apply IH; intros y Hy; apply Hext; by right).
  destruct (decide (P x)) as [HP|HP], (decide (Q x)) as [HQ|HQ]; try done;
    exfalso; (pose proof (Hext x ltac:(by left)) as Hx); tauto.
Qed.

(** One round of the loop of [add_state_before] and [add_state_after]:
    remove the edge, add its copy between [s e] and [t e]. *)
Lemma redirect_edges (s t : Edge → nat) (l : list Edge) self :
  NoDup (eid <$> edges self) → NoDup l → (∀ e, e ∈ l → e ∈ edges self) →
  let r := foldl (λ self e, add_edge (remove_edge self e) (s e) (t e) (e_data e))
                 self l in
  nodes r = nodes self
  ∧ _labels r = _labels self
  ∧ _start_block r = _start_block self
  ∧ NoDup (eid <$> edges r)
  ∧ edge_triple <$> edges r
    = (edge_triple <$> filter (λ e, e ∉ l) (edges self))
      ++ ((λ e, (s e, t e, e_data e)) <$> l).
Proof.
  revert self. induction l as [|e l IH]; intros self Hnd Hl Hsub; simpl.
  - repeat split; [done|]. rewrite app_nil_r. f_equal.
    symmetry. apply InlineFacts.filter_all. intros x _. apply not_elem_of_nil.
  - apply NoDup_cons in Hl as [Hel Hl].
    set (self1 := add_edge (remove_edge self e) (s e) (t e) (e_data e)).
    assert (edges self1
            = filter (λ e', eid e' ≠ eid e) (edges self)
              ++ [mkEdge (fresh_eid (remove_edge self e)) (s e) (t e) (e_data e)])
      as He1.
    { unfold self1, add_edge. by destruct (bool_decide _). }
    assert (nodes self1 = nodes self ∧ _labels self1 = _labels self
            ∧ _start_block self1 = _start_block self) as (Hn1 & Hlab1 & Hsb1).
    { unfold self1, add_edge. by destruct (bool_decide _). }
    assert (∀ x, x ∈ edges self → eid x ≠ eid e ↔ x ≠ e) as Hone.
    { intros x Hx. split; [by intros ? ->|].
      intros Hne Heq. apply Hne. apply (eid_inj (edges self)); try done.
      apply Hsub. by left. }
    assert (∀ x, x ∈ filter (λ e', eid e' ≠ eid e) (edges self) →
                 eid x < fresh_eid (remove_edge self e)) as Hfresh.
    { intros x Hx. by apply fresh_eid_gt. }
    destruct (IH self1) as (Hn & Hlab & Hsb & Hnd' & Ht).
    + rewrite He1, fmap_app. apply NoDup_app. split; [|split].
      * apply (NoDup_fmap_2_strong eid).
        -- intros x y Hx Hy. apply list_elem_of_filter in Hx as [_ Hx].
           apply list_elem_of_filter in Hy as [_ Hy].
           by apply (eid_inj (edges self)).
        -- apply NoDup_filter. by apply NoDup_of_eids.
      * intros i Hi Hi'. apply list_elem_of_singleton in Hi'.
        apply list_elem_of_fmap in Hi as (x & -> & Hx).
        apply Hfresh in Hx. simpl in Hi'. lia.
      * apply NoDup_singleton.
    + done.
    + intros x Hx. rewrite He1. apply elem_of_app. left.
      apply list_elem_of_filter. split.
      * apply Hone; [apply Hsub; by right|]. by intros ->.
      * apply Hsub. by right.
    + fold self1. rewrite Hn, Hlab, Hsb. repeat split; [done..|].
      rewrite Ht, He1, filter_app, fmap_app, <- app_assoc.
      assert (filter (λ e0, e0 ∉ l) (filter (λ e', eid e' ≠ eid e) (edges self))
              = filter (λ e0, e0 ∉ e :: l) (edges self)) as ->.
      { rewrite list_filter_filter. apply filter_ext_in. intros x Hx.
        rewrite not_elem_of_cons, (Hone x Hx). tauto. }
      f_equal.
      rewrite filter_cons, decide_True.
      2:{ intros Hin. specialize (Hsub _ (list_elem_of_further _ _ _ Hin)).
          assert (mkEdge (fresh_eid (remove_edge self e)) (s e) (t e) (e_data e)
                  ∈ filter (λ e', eid e' ≠ eid e) (edges self)) as Hin'.
          { apply list_elem_of_filter. split; [|done].
            apply Hone; [done|]. intros Heq. apply Hel. by rewrite <- Heq. }
          apply Hfresh in Hin'. simpl in Hin'. lia. }
      done.
Qed.

Lemma fmap_filter_triple (P : nat * nat * InterstateEdge → Prop)
    `{∀ x, Decision (P x)} (es : list Edge) :
  edge_triple <$> filter (λ e, P (edge_triple e)) es
  = filter P (edge_triple <$> es).
Proof.
  induction es as [|e es IH]; [done|].
  rewrite fmap_cons, !filter_cons.
  destruct (decide (P (edge_triple e))); [rewrite fmap_cons|]; by rewrite IH.
Qed.

Lemma in_edges_triples self state :
  edge_triple <$> in_edges self state
  = filter (λ t, t.1.2 = state) (edge_triple <$> edges self).
Proof. unfold in_edges. exact (fmap_filter_triple (λ t, t.1.2 = state) (edges self)). Qed.

Lemma out_edges_triples self state :
  edge_triple <$> out_edges self state
  = filter (λ t, t.1.1 = state) (edge_triple <$> edges self).
Proof. unfold out_edges. exact (fmap_filter_triple (λ t, t.1.1 = state) (edges self)). Qed.

Lemma add_state_sets self l is_start_block is_start_state id :
  ∃ l', (add_state find_new_name self l is_start_block is_start_state id).1
        = new_state id l'
        ∧ nodes (add_state find_new_name self l is_start_block is_start_state id).2
          = nodes self ++ [new_state id l']
        ∧ edges (add_state find_new_name self l is_start_block is_start_state id).2
          = edges self.
Proof.
  unfold add_state, _ensure_unique_block_name.
  set (l' := find_new_name _ _). exists l'.
  unfold add_node.
  destruct (bool_decide (size (_labels self) ≠ number_of_nodes self));
    destruct (match is_start_state with Some b => b | None => is_start_block end);
    done.
Qed.

(** [add_state_before] on a graph whose edges are distinct objects, for a
    new state (no edge knows it yet) other than [state]: the new state is appended; the edges
    that do not enter [state] stay, each edge that entered [state] is
    replaced by an edge from the same source under the same condition
    into the new state, and one edge leads from the new state to
    [state] under the given condition and assignments.  Afterwards that
    edge is the only one that enters [state] and the only one that
    leaves the new state. *)
Theorem add_state_before_spec self state l is_start_block condition assignments
    is_start_state id :
  NoDup (eid <$> edges self) → id ≠ state → edge_free self id →
  let r := add_state_before find_new_name self state l is_start_block condition
                            assignments is_start_state id in
  let link := (id, state, InterstateEdge_new condition assignments) in
  (∃ l', r.1 = new_state id l') ∧ nodes r.2 = nodes self ++ [r.1]
  ∧ edge_triple <$> edges r.2
    = (edge_triple <$> filter (λ e, e_dst e ≠ state) (edges self))
      ++ ((λ e, (e_src e, id, e_data e)) <$> in_edges self state)
      ++ [link]
  ∧ edge_triple <$> in_edges r.2 state = [link]
  ∧ edge_triple <$> out_edges r.2 id = [link].
Proof.
  intros Hnd Hid Hfree. unfold add_state_before.
  destruct (add_state_sets self l is_start_block is_start_state id)
    as (l' & H1 & Hn & He).
  destruct (add_state find_new_name self l is_start_block is_start_state id)
    as [new self0]. simpl in H1, Hn, He. subst new.
  assert (in_edges self0 state = in_edges self state) as Hin
    by (unfold in_edges; by rewrite He).
  rewrite Hin. cbn [block_id new_state].
  destruct (redirect_edges e_src (λ _, id) (in_edges self state) self0)
    as (Hn' & _ & _ & Hnd' & Ht).
  { by rewrite He. }
  { apply NoDup_filter. by apply NoDup_of_eids. }
  { intros e Hin'. rewrite He. unfold in_edges in Hin'.
    by apply list_elem_of_filter in Hin' as [_ ?]. }
  set (self1 := foldl _ self0 (in_edges self state)) in *.
  assert (edge_triple <$> edges (add_edge self1 id state
                                   (InterstateEdge_new condition assignments))
          = (edge_triple <$> filter (λ e, e_dst e ≠ state) (edges self))
            ++ ((λ e, (e_src e, id, e_data e)) <$> in_edges self state)
            ++ [(id, state, InterstateEdge_new condition assignments)]) as Hall.
  { assert (edges (add_edge self1 id state
                     (InterstateEdge_new condition assignments))
            = edges self1 ++ [mkEdge (fresh_eid self1) id state
                                (InterstateEdge_new condition assignments)])
      as -> by (unfold add_edge; by destruct (bool_decide _)).
    rewrite fmap_app, Ht, He, <- app_assoc. f_equal. f_equal.
    apply filter_ext_in. intros x Hx. unfold in_edges.
    rewrite list_elem_of_filter. tauto. }
  simpl. split; [by exists l'|]. split.
  { unfold add_edge. destruct (bool_decide _); simpl; by rewrite Hn', Hn. }
  split; [done|].
  rewrite in_edges_triples, out_edges_triples, Hall.
  pose proof (proj1 (InlineFacts.edge_free_iff self id) Hfree) as Hfree'.
  rewrite !filter_app. split.
  - rewrite (InlineFacts.filter_none _ (edge_triple <$> _)),
            (InlineFacts.filter_none _ (_ <$> in_edges self state)).
    + by rewrite filter_cons, decide_True.
    + intros t Ht'. apply list_elem_of_fmap in Ht' as (e & -> & _). simpl. done.
    + intros t Ht'. apply list_elem_of_fmap in Ht' as (e & -> & He').
      apply list_elem_of_filter in He' as [He' _]. exact He'.
  - rewrite (InlineFacts.filter_none _ (edge_triple <$> _)),
            (InlineFacts.filter_none _ (_ <$> in_edges self state)).
    + by rewrite filter_cons, decide_True.
    + intros t Ht'. apply list_elem_of_fmap in Ht' as (e & -> & He').
      unfold in_edges in He'. apply list_elem_of_filter in He' as [_ He'].
      apply (Hfree' (edge_triple e)). apply list_elem_of_fmap. by exists e.
    + intros t Ht'. apply (Hfree' t).
      apply list_elem_of_fmap in Ht' as (e & -> & He').
      apply list_elem_of_filter in He' as [_ He'].
      apply list_elem_of_fmap. by exists e.
Qed.

(** [add_state_after], likewise: each edge that left [state] is replaced
    by an edge from the new state to the same destination, and one edge
    leads from [state] to the new state; it is the only edge that leaves
    [state] and the only one that enters the new state. *)
Theorem add_state_after_spec self state l is_start_block condition assignments
    is_start_state id :
  NoDup (eid <$> edges self) → id ≠ state → edge_free self id →
  let r := add_state_after find_new_name self state l is_start_block condition
                           assignments is_start_state id in
  let link := (state, id, InterstateEdge_new condition assignments) in
  (∃ l', r.1 = new_state id l') ∧ nodes r.2 = nodes self ++ [r.1]
  ∧ edge_triple <$> edges r.2
    = (edge_triple <$> filter (λ e, e_src e ≠ state) (edges self))
      ++ ((λ e, (id, e_dst e, e_data e)) <$> out_edges self state)
      ++ [link]
  ∧ edge_triple <$> out_edges r.2 state = [link]
  ∧ edge_triple <$> in_edges r.2 id = [link].
Proof.
  intros Hnd Hid Hfree. unfold add_state_after.
  destruct (add_state_sets self l is_start_block is_start_state id)
    as (l' & H1 & Hn & He).
  destruct (add_state find_new_name self l is_start_block is_start_state id)
    as [new self0]. simpl in H1, Hn, He. subst new.
  assert (out_edges self0 state = out_edges self state) as Hout
    by (unfold out_edges; by rewrite He).
  rewrite Hout. cbn [block_id new_state].
  destruct (redirect_edges (λ _, id) e_dst (out_edges self state) self0)
    as (Hn' & _ & _ & Hnd' & Ht).
  { by rewrite He. }
  { apply NoDup_filter. by apply NoDup_of_eids. }
  { intros e Hin'. rewrite He. unfold out_edges in Hin'.
    by apply list_elem_of_filter in Hin' as [_ ?]. }
  set (self1 := foldl _ self0 (out_edges self state)) in *.
  assert (edge_triple <$> edges (add_edge self1 state id
                                   (InterstateEdge_new condition assignments))
          = (edge_triple <$> filter (λ e, e_src e ≠ state) (edges self))
            ++ ((λ e, (id, e_dst e, e_data e)) <$> out_edges self state)
            ++ [(state, id, InterstateEdge_new condition assignments)]) as Hall.
  { assert (edges (add_edge self1 state id
                     (InterstateEdge_new condition assignments))
            = edges self1 ++ [mkEdge (fresh_eid self1) state id
                                (InterstateEdge_new condition assignments)])
      as -> by (unfold add_edge; by destruct (bool_decide _)).
    rewrite fmap_app, Ht, He, <- app_assoc. f_equal. f_equal.
    apply filter_ext_in. intros x Hx. unfold out_edges.
    rewrite list_elem_of_filter. tauto. }
  simpl. split; [by exists l'|]. split.
  { unfold add_edge. destruct (bool_decide _); simpl; by rewrite Hn', Hn. }
  split; [done|].
  rewrite in_edges_triples, out_edges_triples, Hall.
  pose proof (proj1 (InlineFacts.edge_free_iff self id) Hfree) as Hfree'.
  rewrite !filter_app. split.
  - rewrite (InlineFacts.filter_none _ (edge_triple <$> _)),
            (InlineFacts.filter_none _ (_ <$> out_edges self state)).
    + by rewrite filter_cons, decide_True.
    + intros t Ht'. apply list_elem_of_fmap in Ht' as (e & -> & _). simpl. done.
    + intros t Ht'. apply list_elem_of_fmap in Ht' as (e & -> & He').
      apply list_elem_of_filter in He' as [He' _]. exact He'.
  - rewrite (InlineFacts.filter_none _ (edge_triple <$> _)),
            (InlineFacts.filter_none _ (_ <$> out_edges self state)).
    + by rewrite filter_cons, decide_True.
    + intros t Ht'. apply list_elem_of_fmap in Ht' as (e & -> & He').
      unfold out_edges in He'. apply list_elem_of_filter in He' as [_ He'].
      apply (Hfree' (edge_triple e)). apply list_elem_of_fmap. by exists e.
    + intros t Ht'. apply (Hfree' t).
      apply list_elem_of_fmap in Ht' as (e & -> & He').
      apply list_elem_of_filter in He' as [_ He'].
      apply list_elem_of_fmap. by exists e.
Qed.

End WithNames.

Import Examples.

Lemma add_state_label_witness :
  (add_state example_find_new_name region_A_to_B (Some "A") false None 3).1
  = new_state 3 "A_0".
Proof.
  apply (add_state_label example_find_new_name region_A_to_B (Some "A")
           false None 3).
  right. by vm_compute.
Defined.

Lemma add_state_stale_labels_witness :
  block_label (add_state example_find_new_name stale_region (Some "X") false None 3).1
  = "X"
  ∧ labels_of (add_state example_find_new_name stale_region (Some "X") false None 3).2
    = labels_of stale_region ++ ["X"]
  ∧ ¬ NoDup (labels_of (add_state example_find_new_name stale_region (Some "X")
                                  false None 3).2).
Proof.
  apply (add_state_stale_labels example_find_new_name stale_region "X" false None 3).
  - reflexivity.
  - discriminate.
  - by left.
  - apply (bool_decide_unpack _). by vm_compute.
  - reflexivity.
Defined.

Lemma add_state_before_spec_witness :
  edge_triple <$> in_edges
    (add_state_before example_find_new_name region_A_to_B 2 (Some "C") false
                      None None None 3).2 2
  = [(3, 2, InterstateEdge_default)].
Proof.
  apply (add_state_before_spec example_find_new_name region_A_to_B 2 (Some "C")
           false None None None 3).
  - apply (bool_decide_unpack _). by vm_compute.
  - lia.
  - intros e He. apply list_elem_of_singleton in He as ->. simpl. lia.
Defined.

Lemma add_state_after_spec_witness :
  edge_triple <$> out_edges
    (add_state_after example_find_new_name region_A_to_B 1 (Some "C") false
                     None None None 3).2 1
  = [(1, 3, InterstateEdge_default)].
Proof.
  apply (add_state_after_spec example_find_new_name region_A_to_B 1 (Some "C")
           false None None None 3).
  - apply (bool_decide_unpack _). by vm_compute.
  - lia.
  - intros e He. apply list_elem_of_singleton in He as ->. simpl. lia.
Defined.

End BlockFacts.

(** * Further facts: traversals of nested regions *)

Module TraversalFacts.
Import ControlFlow.

(** Induction over blocks and the blocks of their regions. *)
Lemma ControlFlowBlock_nested_ind (P : ControlFlowBlock → Prop) :
  (∀ b, isinstance_SDFGState b = true → P b) →
  (∀ b, isinstance_BreakBlock b = true → P b) →
  (∀ b, isinstance_ContinueBlock b = true → P b) →
  (∀ b, isinstance_ReturnBlock b = true → P b) →
  (∀ r, Forall P (nodes r) → P (RegionBlock r)) →
  ∀ b, P b.
Proof.
  intros Hs Hb Hc Hr Hreg. fix IH 1. intros [i l s|i l|i l|i l|r].
  - by apply Hs.
  - by apply Hb.
  - by apply Hc.
  - by apply Hr.
  - apply Hreg. destruct r as [? ? ? ns ? ? ? ?]. simpl.
    induction ns as [|n ns IHns]; constructor; [apply IH|apply IHns].
Qed.

Lemma filter_flat_map {A B} (P : B → Prop) `{∀ x, Decision (P x)}
    (f : A → list B) (l : list A) :
  filter P (flat_map f l) = flat_map (λ a, filter P (f a)) l.
Proof.
  induction l as [|a l IH]; [done|]. simpl. by rewrite filter_app, IH.
Qed.

Lemma states_of_blocks (l : list ControlFlowBlock) :
  Forall (λ b, match b with
               | RegionBlock r =>
                 all_states r
                 ≡ₚ filter (λ b, isinstance_SDFGState b = true)
                           (all_control_flow_blocks r)
               | _ => True
               end) l →
  flat_map block_states l
  ≡ₚ filter (λ b, isinstance_SDFGState b = true) l
     ++ filter (λ b, isinstance_SDFGState b = true)
               (flat_map nodes (flat_map block_regions l)).
Proof.
  induction 1 as [|b l Hb _ IH]; [done|].
  destruct b as [i lb s|i lb|i lb|i lb|r]; simpl;
    rewrite ?filter_cons; simpl.
  - by rewrite IH.
  - by rewrite IH.
  - by rewrite IH.
  - by rewrite IH.
  - change (flat_map block_states (nodes r)) with (all_states r).
    rewrite Hb, IH. unfold all_control_flow_blocks, all_control_flow_regions.
    simpl. rewrite !flat_map_app, !filter_app.
    set (a := filter _ l). set (b := filter _ (nodes r)).
    set (c := filter _ (flat_map nodes (flat_map block_regions (nodes r)))).
    set (d := filter _ (flat_map nodes (flat_map block_regions l))).
    rewrite (assoc (++) (b ++ c) a d), (Permutation_app_comm (b ++ c) a).
    by rewrite <- !(assoc (++)).
Qed.

(** [all_states] yields the states among [all_control_flow_blocks], each
    as often as it is there, in another order: depth first through the
    blocks rather than region by region. *)
Theorem all_states_blocks (self : Region) :
  all_states self
  ≡ₚ filter (λ b, isinstance_SDFGState b = true) (all_control_flow_blocks self).
Proof.
  enough (∀ b, match b with
               | RegionBlock r =>
                 all_states r
                 ≡ₚ filter (λ b, isinstance_SDFGState b = true)
                           (all_control_flow_blocks r)
               | _ => True
               end) as Hall by apply (Hall (RegionBlock self)).
  apply ControlFlowBlock_nested_ind; try by intros [].
  intros r Hnodes.
  unfold all_states, all_control_flow_blocks, all_control_flow_regions. simpl.
  rewrite filter_app. by apply states_of_blocks.
Qed.

(** Every block that [all_control_flow_blocks] yields and that is a
    region is itself among [all_control_flow_regions], and so are the
    edges of every such region among [all_interstate_edges]. *)
Theorem nested_regions_listed (self r : Region) e :
  RegionBlock r ∈ all_control_flow_blocks self →
  r ∈ all_control_flow_regions self
  ∧ (e ∈ edges r → e ∈ all_interstate_edges self).
Proof.
  intros Hin.
  assert (r ∈ all_control_flow_regions self) as Hr.
  { unfold all_control_flow_blocks in Hin.
    apply list_elem_of_In, in_flat_map in Hin as (r0 & Hr0 & Hin).
    apply list_elem_of_In in Hr0, Hin.
    enough (∀ b r0, r0 ∈ block_regions b → RegionBlock r ∈ nodes r0 →
                    r ∈ block_regions b) as Hall
      by apply (Hall (RegionBlock self) r0 Hr0 Hin).
    clear. intros b. induction b as [| | | |r1 IH] using ControlFlowBlock_nested_ind;
      try (destruct b; try done; intros r0 Hr0; by apply elem_of_nil in Hr0).
    intros r0 Hr0 Hin. simpl in *.
    apply elem_of_cons in Hr0 as [->|Hr0].
    - right. apply list_elem_of_In, in_flat_map. exists (RegionBlock r).
      split; [by apply list_elem_of_In|]. by left.
    - right. apply list_elem_of_In, in_flat_map in Hr0 as (b & Hb & Hr0).
      apply list_elem_of_In in Hb, Hr0.
      apply list_elem_of_In, in_flat_map. exists b.
      split; [by apply list_elem_of_In|]. apply list_elem_of_In.
      rewrite Forall_forall in IH. by apply (IH b Hb r0). }
  split; [done|]. intros He. unfold all_interstate_edges.
  apply list_elem_of_In, in_flat_map. exists r.
  split; by apply list_elem_of_In.
Qed.

(** *** [has_break] and [has_continue] *)

Lemma existsb_flat_map {A B} (p : B → bool) (f : A → list B) (l : list A) :
  existsb p (flat_map f l) = existsb (λ a, existsb p (f a)) l.
Proof.
  induction l as [|a l IH]; [done|]. simpl. by rewrite existsb_app, IH.
Qed.

(** A loop directly inside the region is not searched: when every block
    is a state or a loop, [has_break] and [has_continue] are false
    whatever the inner loops hold.  A loop inside a block that is a
    region but not a loop is searched: a break or continue block of such
    an inner loop counts for the outer region. *)
Theorem has_break_nested_loops (self : Region) :
  ((∀ n, n ∈ nodes self →
         isinstance_SDFGState n = true ∨ isinstance_LoopRegion_block n = true) →
   has_break self = false ∧ has_continue self = false)
  ∧ (∀ c inner b,
       RegionBlock c ∈ nodes self → isinstance_LoopRegion c = false →
       RegionBlock inner ∈ nodes c → isinstance_LoopRegion inner = true →
       b ∈ nodes inner →
       (isinstance_BreakBlock b = true → has_break self = true)
       ∧ (isinstance_ContinueBlock b = true → has_continue self = true)).
Proof.
  unfold has_break, has_continue, all_nodes_recursive. split.
  - intros Hall. rewrite !existsb_flat_map.
    split; apply not_true_iff_false; intros Hex;
      apply existsb_exists in Hex as (n & Hn & Hex);
      apply list_elem_of_In in Hn;
      (destruct (Hall n Hn) as [Hs|Hl];
       [destruct n; try done|
        unfold not_loop_or_state in Hex; rewrite Hl in Hex; simpl in Hex;
        destruct n; try done]).
  - intros c inner b Hc Hnl Hinner Hl Hb.
    assert (b ∈ block_nodes_recursive (RegionBlock c)) as Hin.
    { simpl. apply list_elem_of_In, in_flat_map. exists (RegionBlock inner).
      split; [by apply list_elem_of_In|]. right. simpl.
      apply in_flat_map. exists b. split; [by apply list_elem_of_In|by left]. }
    split; intros Hb'; rewrite existsb_flat_map; apply existsb_exists;
      exists (RegionBlock c); (split; [by apply list_elem_of_In|]);
      unfold not_loop_or_state; simpl; rewrite Hnl; simpl;
      apply existsb_exists; exists b; (split; [by apply list_elem_of_In|done]).
Qed.

Import Examples.

Lemma nested_regions_listed_witness :
  loop_R false ∈ all_control_flow_regions (parent_P false).
Proof.
  apply (nested_regions_listed (parent_P false) (loop_R false)
           (mkEdge 0 0 0 InterstateEdge_default)).
  by left.
Defined.

End TraversalFacts.

(** * Further facts: the map-dimension shuffle *)

Module ShuffleFacts.
Import MapDimShuffle.

Section WithRanges.
Context {Range TileSize Offset : Type}.
Implicit Types (m : Map Range TileSize) (scope : list (ScopeMemlet Offset))
  (ps : list string).

Lemma index_spec (x : string) (l : list string) :
  match index x l with
  | Ok i => l !! i = Some x
  | Raise (ValueError _) => x ∉ l
  | _ => False
  end.
Proof.
  induction l as [|y l IH]; simpl; [apply not_elem_of_nil|].
  case_bool_decide as Hy; [by subst|].
  destruct (index x l) as [i|[]|]; simpl; try done.
  apply not_elem_of_cons. split; [by intros ->|done].
Qed.

Lemma index_elem_of (x : string) (l : list string) :
  x ∈ l → ∃ i, index x l = Ok i ∧ l !! i = Some x.
Proof.
  intros Hin. pose proof (index_spec x l) as Hs.
  destruct (index x l) as [i|[]|]; try done. by exists i.
Qed.

Lemma index_NoDup (x : string) (l : list string) i :
  NoDup l → l !! i = Some x → index x l = Ok i.
Proof.
  intros Hnd Hi.
  destruct (index_elem_of x l) as (j & -> & Hj).
  { by apply list_elem_of_lookup_2 in Hi. }
  f_equal. by apply (NoDup_lookup l j i x).
Qed.

Lemma comprehension_spec {A B} (f : A → result B) (l : list A) :
  (∀ a, a ∈ l → ∃ b, f a = Ok b) →
  ∃ bs, comprehension f l = Ok bs ∧ Forall2 (λ a b, f a = Ok b) l bs.
Proof.
  induction l as [|a l IH]; intros Hall; simpl.
  - exists []. by split.
  - destruct (Hall a) as [b Hb]; [by left|]. rewrite Hb. simpl.
    destruct IH as (bs & -> & Hbs); [intros; apply Hall; by right|].
    simpl. exists (b :: bs). split; [done|]. by constructor.
Qed.

Lemma getitem_spec {A} (l : list A) i a : getitem l i = Ok a ↔ l !! i = Some a.
Proof.
  unfold getitem. destruct (l !! i); split; intros H; by simplify_eq.
Qed.

(** [[l[i] for i in order]] for positions that are all in range. *)
Lemma pick_spec {A} (l : list A) (order : list nat) :
  (∀ i, i ∈ order → i < length l) →
  ∃ rs, comprehension (getitem l) order = Ok rs
        ∧ length rs = length order
        ∧ ∀ k i, order !! k = Some i → rs !! k = l !! i.
Proof.
  intros Hin.
  destruct (comprehension_spec (getitem l) order) as (rs & Hrs & Hall).
  { intros i Hi. destruct (lookup_lt_is_Some_2 l i (Hin i Hi)) as [a Ha].
    exists a. by apply getitem_spec. }
  exists rs. split; [done|]. split; [symmetry; by eapply Forall2_length|].
  intros k i Hk.
  destruct (Forall2_lookup_l _ _ _ _ _ Hall Hk) as (r & Hr & Hget).
  apply getitem_spec in Hget. by rewrite Hr, Hget.
Qed.

Lemma can_be_applied_spec ps m :
  can_be_applied (Some ps) m = true
  ↔ length ps = length (params m)
    ∧ (list_to_set ps : gset string) = list_to_set (params m).
Proof.
  unfold can_be_applied.
  repeat case_bool_decide; split; try done; intros [? ?]; done.
Qed.

(** The positions [[params.index(p) for p in ps]] when every [p] is a
    parameter. *)
Lemma new_map_order_spec ps (l : list string) :
  (∀ p, p ∈ ps → p ∈ l) →
  ∃ order, comprehension (λ param, index param l) ps = Ok order
           ∧ length order = length ps
           ∧ (∀ i, i ∈ order → i < length l)
           ∧ ∀ k p, ps !! k = Some p →
                    ∃ j, order !! k = Some j ∧ index p l = Ok j ∧ l !! j = Some p.
Proof.
  intros Hsub.
  destruct (comprehension_spec (λ param, index param l) ps) as (order & Ho & Hall).
  { intros p Hp. destruct (index_elem_of p l (Hsub p Hp)) as (i & Hi & _).
    by exists i. }
  exists order. split; [done|]. split; [symmetry; by eapply Forall2_length|].
  split.
  - intros i Hi. apply list_elem_of_lookup in Hi as [k Hk].
    destruct (Forall2_lookup_r _ _ _ _ _ Hall Hk) as (p & Hp & Hidx).
    pose proof (index_spec p l) as Hs. rewrite Hidx in Hs.
    by apply lookup_lt_Some in Hs.
  - intros k p Hk.
    destruct (Forall2_lookup_l _ _ _ _ _ Hall Hk) as (j & Hj & Hidx).
    exists j. split; [done|]. split; [done|].
    pose proof (index_spec p l) as Hs. by rewrite Hidx in Hs.
Qed.

Lemma shuffle_offsets_spec (order : list nat) scope n :
  (∀ i, i ∈ order → i < n) →
  (∀ memlet, memlet ∈ scope → schedule_is_doacross_sink memlet = true →
             length (doacross_dependency_offset memlet) = n) →
  ∃ scope', shuffle_offsets order scope = (Ok (), scope')
            ∧ Forall2 (shuffled order true) scope scope'.
Proof.
  intros Horder. induction scope as [|memlet scope IH]; intros Hlen; simpl.
  - exists []. by split.
  - destruct IH as (scope' & -> & Hall); [intros; apply Hlen; [by right|done]|].
    destruct (schedule_is_doacross_sink memlet) eqn:Hsink.
    + destruct (pick_spec (doacross_dependency_offset memlet) order)
        as (rs & -> & Hlrs & Hrs).
      { intros i Hi. rewrite (Hlen memlet); [by apply Horder|by left|done]. }
      eexists. split; [done|]. constructor; [|done].
      unfold shuffled. simpl. rewrite Hsink. done.
    + eexists. split; [done|]. constructor; [|done].
      unfold shuffled. by rewrite Hsink.
Qed.

Lemma shuffle_offsets_id (order : list nat) scope :
  (∀ memlet, memlet ∈ scope → schedule_is_doacross_sink memlet = true →
             comprehension (getitem (doacross_dependency_offset memlet)) order
             = Ok (doacross_dependency_offset memlet)) →
  shuffle_offsets order scope = (Ok (), scope).
Proof.
  induction scope as [|memlet scope IH]; intros Hid; simpl; [done|].
  rewrite IH by (intros; apply Hid; [by right|done]).
  destruct (schedule_is_doacross_sink memlet) eqn:Hsink; [|done].
  rewrite Hid by (by left || done). destruct memlet. simpl in *. by rewrite Hsink.
Qed.

(** The map after a shuffle into the order [ps]. *)
Lemma apply_run ps m scope :
  can_be_applied (Some ps) m = true → well_sized m scope →
  ∃ order rs ts scope',
    apply (Some ps) m scope
    = (Ok (), (mkMap ps rs ts (schedule_is_doacross m), scope'))
    ∧ length order = length ps ∧ length rs = length ps ∧ length ts = length ps
    ∧ (∀ k p, ps !! k = Some p →
         ∃ j, order !! k = Some j ∧ index p (params m) = Ok j
              ∧ params m !! j = Some p
              ∧ rs !! k = ranges m !! j ∧ ts !! k = tile_sizes m !! j)
    ∧ Forall2 (shuffled order (schedule_is_doacross m)) scope scope'.
Proof.
  intros Happ (Hlr & Hlt & Hlo). apply can_be_applied_spec in Happ as [Hlen Hset].
  assert (∀ p, p ∈ ps → p ∈ params m) as Hsub.
  { intros p Hp.
    apply (elem_of_list_to_set (C := gset string)). rewrite <- Hset.
    by apply elem_of_list_to_set. }
  unfold apply.
  destruct (new_map_order_spec ps (params m) Hsub)
    as (order & -> & Hlo' & Hrange & Horder).
  destruct (pick_spec (ranges m) order) as (rs & -> & Hlrs & Hrs).
  { intros i Hi. rewrite Hlr. by apply Hrange. }
  cbn [tile_sizes params ranges schedule_is_doacross].
  destruct (pick_spec (tile_sizes m) order) as (ts & -> & Hlts & Hts).
  { intros i Hi. rewrite Hlt. by apply Hrange. }
  cbn [tile_sizes params ranges schedule_is_doacross].
  destruct (pick_spec (params m) order) as (ps' & -> & Hlps & Hps).
  { intros i Hi. by apply Hrange. }
  cbn [tile_sizes params ranges schedule_is_doacross].
  assert (ps' = ps) as ->.
  { apply list_eq. intros k.
    destruct (ps !! k) as [p|] eqn:Hk.
    - destruct (Horder k p Hk) as (j & Hj & _ & Hpj). by rewrite (Hps k j Hj).
    - apply lookup_ge_None in Hk. apply lookup_ge_None. lia. }
  assert (∀ k p, ps !! k = Some p →
            ∃ j, order !! k = Some j ∧ index p (params m) = Ok j
                 ∧ params m !! j = Some p
                 ∧ rs !! k = ranges m !! j ∧ ts !! k = tile_sizes m !! j) as Hdims.
  { intros k p Hk. destruct (Horder k p Hk) as (j & Hj & Hidx & Hpj).
    exists j. repeat split; [done..| |]; [by apply Hrs|by apply Hts]. }
  destruct (schedule_is_doacross m) eqn:Hdo.
  - destruct (shuffle_offsets_spec order scope (length (params m)))
      as (scope' & -> & Hall); [done|by apply Hlo|].
    exists order, rs, ts, scope'. repeat split; try done; lia.
  - exists order, rs, ts, scope. repeat split; try done; try lia.
    apply Forall2_same_length_lookup_2; [done|].
    intros k old new Ho Hn. rewrite Ho in Hn. injection Hn as <-.
    by split.
Qed.

(** When the transformation can be applied and ranges, tile sizes and
    sink offsets have an entry for each parameter, [apply] succeeds: the
    parameters come in the order asked for, and every parameter has kept
    its range and its tile size; the offset of every doacross sink of a
    doacross map is reordered in the same way, and nothing else in the
    scope changes. *)
Theorem apply_shuffles ps m scope :
  can_be_applied (Some ps) m = true → well_sized m scope →
  ∃ m' scope',
    apply (Some ps) m scope = (Ok (), (m', scope'))
    ∧ params m' = ps
    ∧ schedule_is_doacross m' = schedule_is_doacross m
    ∧ well_sized m' scope'
    ∧ (∀ k p, ps !! k = Some p →
         ∃ j, index p (params m) = Ok j
              ∧ ranges m' !! k = ranges m !! j
              ∧ tile_sizes m' !! k = tile_sizes m !! j)
    ∧ ∃ order,
        (∀ k p, ps !! k = Some p →
           ∃ j, order !! k = Some j ∧ index p (params m) = Ok j)
        ∧ Forall2 (shuffled order (schedule_is_doacross m)) scope scope'.
Proof.
  intros Happ Hws.
  destruct (apply_run ps m scope Happ Hws)
    as (order & rs & ts & scope' & Hrun & Hlo & Hlrs & Hlts & Hdims & Hall).
  exists (mkMap ps rs ts (schedule_is_doacross m)), scope'.
  split; [done|]. split; [done|]. split; [done|]. split; [|split].
  - split; [done|]. split; [done|]. simpl. intros Hdo memlet Hin Hsink.
    apply list_elem_of_lookup in Hin as [k Hk].
    destruct (Forall2_lookup_r _ _ _ _ _ Hall Hk) as (old & Hold & Hsh & Hoff).
    rewrite Hdo, <- Hsh, Hsink in Hoff. simpl in Hoff. lia.
  - intros k p Hk. destruct (Hdims k p Hk) as (j & _ & ? & _ & ? & ?).
    by exists j.
  - exists order. split; [|done].
    intros k p Hk. destruct (Hdims k p Hk) as (j & ? & ? & _).
    by exists j.
Qed.

(** A parameter that the map does not have makes [apply] raise the
    [ValueError] of [list.index] before anything is rewritten;
    [can_be_applied] answers [False] for such parameters. *)
Theorem apply_unknown_parameter ps m scope p :
  p ∈ ps → p ∉ params m →
  can_be_applied (Some ps) m = false
  ∧ ∃ msg, apply (Some ps) m scope = (Raise (ValueError msg), (m, scope)).
Proof.
  intros Hin Hout. split.
  - apply not_true_iff_false. intros Happ.
    apply can_be_applied_spec in Happ as [_ Hset]. apply Hout.
    apply (elem_of_list_to_set (C := gset string)). rewrite <- Hset.
    by apply elem_of_list_to_set.
  - unfold apply.
    assert (∃ msg, comprehension (λ param, index param (params m)) ps
                   = Raise (ValueError msg)) as [msg ->]; [|by exists msg].
    induction ps as [|q ps IH]; [by apply elem_of_nil in Hin|]. simpl.
    pose proof (index_spec q (params m)) as Hq.
    destruct (index q (params m)) as [i|[]|] eqn:Hidx; simpl; try done;
      [|by eexists].
    apply elem_of_cons in Hin as [->|Hin].
    + exfalso. apply Hout. by apply list_elem_of_lookup_2 in Hq.
    + destruct (IH Hin) as [msg ->]. by exists msg.
Qed.

(** Shuffling back: after a shuffle of a map with pairwise distinct
    parameters, the shuffle into the old order of the parameters can be
    applied and gives the map and the scope memlets back as they were. *)
Theorem apply_round_trip ps m scope :
  can_be_applied (Some ps) m = true → well_sized m scope → NoDup (params m) →
  ∃ m' scope',
    apply (Some ps) m scope = (Ok (), (m', scope'))
    ∧ can_be_applied (Some (params m)) m' = true
    ∧ apply (Some (params m)) m' scope' = (Ok (), (m, scope)).
Proof.
  intros Happ Hws Hnd.
  destruct (apply_run ps m scope Happ Hws)
    as (order & rs & ts & scope' & Hrun & Hlo & Hlrs & Hlts & Hdims & Hall).
  set (m' := mkMap ps rs ts (schedule_is_doacross m)) in *.
  exists m', scope'. split; [done|].
  pose proof Happ as Happ0. apply can_be_applied_spec in Happ0 as [Hlen Hset].
  assert (can_be_applied (Some (params m)) m' = true) as Happ'.
  { apply can_be_applied_spec. by split. }
  split; [done|].
  assert (well_sized m' scope') as Hws'.
  { destruct Hws as (Hlr & Hlt & Hloff).
    split; [done|]. split; [done|]. simpl. intros Hdo memlet Hin Hsink.
    apply list_elem_of_lookup in Hin as [k Hk].
    destruct (Forall2_lookup_r _ _ _ _ _ Hall Hk) as (old & Hold & Hsh & Hoff).
    rewrite Hdo, <- Hsh, Hsink in Hoff. simpl in Hoff. lia. }
  destruct (apply_run (params m) m' scope' Happ' Hws')
    as (order' & rs' & ts' & scope'' & Hrun' & Hlo' & Hlrs' & Hlts' & Hdims' & Hall').
  rewrite Hrun'.
  (* the position of the k-th old parameter in [ps] leads back to [k] *)
  assert (∀ k p, params m !! k = Some p →
            ∃ j, order' !! k = Some j ∧ order !! j = Some k
                 ∧ rs' !! k = ranges m !! k ∧ ts' !! k = tile_sizes m !! k)
    as Hback.
  { intros k p Hk.
    destruct (Hdims' k p Hk) as (j & Hj & _ & Hpj & Hr & Ht). simpl in Hpj, Hr, Ht.
    destruct (Hdims j p Hpj) as (k' & Hk' & Hidx & _ & Hr' & Ht').
    rewrite (index_NoDup p (params m) k Hnd Hk) in Hidx. injection Hidx as <-.
    exists j. split; [done|]. split; [done|]. by rewrite Hr, Ht. }
  destruct Hws as (Hlr & Hlt & Hloff).
  assert (rs' = ranges m) as ->.
  { apply list_eq. intros k.
    destruct (params m !! k) as [p|] eqn:Hk.
    - by destruct (Hback k p Hk) as (j & _ & _ & ? & _).
    - apply lookup_ge_None in Hk.
      rewrite (proj2 (lookup_ge_None _ _)), (proj2 (lookup_ge_None _ _)); [done|lia..]. }
  assert (ts' = tile_sizes m) as ->.
  { apply list_eq. intros k.
    destruct (params m !! k) as [p|] eqn:Hk.
    - by destruct (Hback k p Hk) as (j & _ & _ & _ & ?).
    - apply lookup_ge_None in Hk.
      rewrite (proj2 (lookup_ge_None _ _)), (proj2 (lookup_ge_None _ _)); [done|lia..]. }
  assert (scope'' = scope) as ->.
  { apply list_eq_same_length with (length scope).
    - done.
    - rewrite <- (Forall2_length _ _ _ Hall'). by rewrite <- (Forall2_length _ _ _ Hall).
    - intros i new old _ Hnew Hold.
      destruct (Forall2_lookup_l _ _ _ _ _ Hall Hold) as (mid & Hmid & Hs1 & Ho1).
      destruct (Forall2_lookup_l _ _ _ _ _ Hall' Hmid) as (new' & Hnew' & Hs2 & Ho2).
      rewrite Hnew in Hnew'. injection Hnew' as <-. simpl in Ho2.
      rewrite Hs1 in Ho2.
      destruct (schedule_is_doacross m && schedule_is_doacross_sink old) eqn:Hcase.
      + apply andb_true_iff in Hcase as [Hdo Hsink].
        destruct Ho1 as [Hl1 Ho1]. destruct Ho2 as [Hl2 Ho2].
        destruct new as [s off], old as [s' off']. simpl in *.
        rewrite Hs1 in Hs2. subst s. f_equal.
        assert (length off' = length (params m)) as Hoff'.
        { apply (Hloff Hdo (mkScopeMemlet s' off')); [|done].
          by apply list_elem_of_lookup_2 in Hold. }
        apply list_eq. intros k.
        destruct (params m !! k) as [p|] eqn:Hk.
        * destruct (Hback k p Hk) as (j & Hj & Hjk & _).
          by rewrite (Ho2 k j Hj), (Ho1 j k Hjk).
        * apply lookup_ge_None in Hk.
          rewrite (proj2 (lookup_ge_None _ _)), (proj2 (lookup_ge_None _ _));
            [done|lia..].
      + by rewrite Ho2, Ho1. }
  by destruct m.
Qed.

End WithRanges.

Import Examples.

Lemma apply_shuffles_witness :
  ∃ m' scope',
    apply (Some ["k"; "i"; "j"]) map_ijk scope_ijk = (Ok (), (m', scope'))
    ∧ params m' = ["k"; "i"; "j"].
Proof.
  destruct (apply_shuffles ["k"; "i"; "j"] map_ijk scope_ijk)
    as (m' & scope' & Hrun & Hps & _).
  - reflexivity.
  - split; [reflexivity|]. split; [reflexivity|].
    intros _ memlet Hin Hsink.
    apply elem_of_cons in Hin as [->|Hin]; [reflexivity|].
    apply list_elem_of_singleton in Hin as ->. discriminate.
  - by exists m', scope'.
Defined.

Lemma apply_unknown_parameter_witness :
  can_be_applied (Some ["i"; "j"; "n"]) map_ijk = false
  ∧ ∃ msg, apply (Some ["i"; "j"; "n"]) map_ijk scope_ijk
           = (Raise (ValueError msg), (map_ijk, scope_ijk)).
Proof.
  apply (apply_unknown_parameter ["i"; "j"; "n"] map_ijk scope_ijk "n").
  - apply (bool_decide_unpack _). by vm_compute.
  - apply (bool_decide_unpack _). by vm_compute.
Defined.

Lemma apply_round_trip_witness :
  ∃ m' scope',
    apply (Some ["k"; "i"; "j"]) map_ijk scope_ijk = (Ok (), (m', scope'))
    ∧ can_be_applied (Some ["i"; "j"; "k"]) m' = true
    ∧ apply (Some ["i"; "j"; "k"]) m' scope' = (Ok (), (map_ijk, scope_ijk)).
Proof.
  apply (apply_round_trip ["k"; "i"; "j"] map_ijk scope_ijk).
  - reflexivity.
  - split; [reflexivity|]. split; [reflexivity|].
    intros _ memlet Hin Hsink.
    apply elem_of_cons in Hin as [->|Hin]; [reflexivity|].
    apply list_elem_of_singleton in Hin as ->. discriminate.
  - apply (bool_decide_unpack _). by vm_compute.
Defined.

(** The shuffle of the example, evaluated. *)
Lemma apply_computed :
  apply (Some ["k"; "i"; "j"]) map_ijk scope_ijk
  = (Ok (), (mkMap ["k"; "i"; "j"] [30; 10; 20] [4; 1; 2] true,
             [mkScopeMemlet true [(-1)%Z; 1%Z; 0%Z]; mkScopeMemlet false []])).
Proof. reflexivity. Qed.

End ShuffleFacts.

(** * Further facts: memlet paths on arbitrary states *)

Module PathMoreFacts.
Import Dataflow CommonFacts.

#[local] Arguments string_drop : simpl never.
#[local] Arguments startswith : simpl never.

Section WithSubsets.
Context {Subset : Type} `{EqDecision Subset}.
Implicit Types (state : Graph Subset) (e cur : Edge Subset)
  (visited path : list (Edge Subset)).

(** More fuel does not change an answer. *)
Lemma trace_to_source_more_fuel fuel fuel' state cur visited path :
  trace_to_source fuel state cur visited path ≠ OutOfFuel → fuel ≤ fuel' →
  trace_to_source fuel' state cur visited path
  = trace_to_source fuel state cur visited path.
Proof.
  revert fuel' cur visited path.
  induction fuel as [|fuel IH]; intros fuel' cur visited path Hres Hle.
  - simpl in *. destruct fuel'; simpl; by destruct (is_code_or_access (src cur)).
  - destruct fuel' as [|fuel']; [lia|]. simpl in *.
    destruct (is_code_or_access (src cur)); [done|].
    destruct (is_scope_node (src cur)); [|apply IH; [done|lia]].
    destruct (src_conn cur) as [c|]; [|done].
    destruct (negb (startswith c "OUT_")); [done|].
    destruct (next _ _) as [next_edge| |]; simpl in *; [|done..].
    destruct (bool_decide _); [done|]. apply IH; [done|lia].
Qed.

Lemma trace_to_sink_more_fuel fuel fuel' state cur visited path :
  trace_to_sink fuel state cur visited path ≠ OutOfFuel → fuel ≤ fuel' →
  trace_to_sink fuel' state cur visited path
  = trace_to_sink fuel state cur visited path.
Proof.
  revert fuel' cur visited path.
  induction fuel as [|fuel IH]; intros fuel' cur visited path Hres Hle.
  - simpl in *. destruct fuel'; simpl; by destruct (is_code_or_access (dst cur)).
  - destruct fuel' as [|fuel']; [lia|]. simpl in *.
    destruct (is_code_or_access (dst cur)); [done|].
    destruct (is_scope_node (dst cur)); [|apply IH; [done|lia]].
    destruct (dst_conn cur) as [c|]; [|done].
    destruct (negb (startswith c "IN_")); [done|].
    destruct (next _ _) as [next_edge| |]; simpl in *; [|done..].
    destruct (bool_decide _); [done|]. apply IH; [done|lia].
Qed.

(** Both loops of [memlet_path] come to an end on every state, cyclic
    ones included, with a path or with an exception: one round more
    than the state has edges is never exceeded, and letting the loops
    run longer gives the same answer. *)
Theorem memlet_path_fuel_enough state e fuel :
  S (length (edges state)) ≤ fuel →
  memlet_path_fuel fuel state e = memlet_path state e
  ∧ ((∃ path, memlet_path state e = Ok path)
     ∨ (∃ ex, memlet_path state e = Raise ex)).
Proof.
  intros Hfuel. split.
  - unfold memlet_path, memlet_path_fuel.
    destruct (is_bare_empty e); [done|].
    assert (∀ v, v ∈ [e] → v ∈ e :: edges state) as Hsub.
    { intros v Hv. apply list_elem_of_singleton in Hv as ->. by left. }
    remember (S (length (edges state))) as F eqn:HF.
    rewrite (trace_to_source_more_fuel F fuel);
      [|apply (PathFacts.trace_to_source_terminates _ _ e);
        [constructor|apply not_elem_of_nil|done|simpl; lia]|done].
    destruct (trace_to_source F _ _ _ _) as [p| |]; [|done..].
    change (trace_to_sink fuel state e [] p = trace_to_sink F state e [] p).
    apply trace_to_sink_more_fuel; [|done].
    apply (PathFacts.trace_to_sink_terminates _ _ e);
      [constructor|apply not_elem_of_nil|done|simpl; lia].
  - pose proof (PathFacts.memlet_path_terminates state e) as Hterm.
    destruct (memlet_path state e) as [p|ex|]; [left|right|done]; by eexists.
Qed.

Lemma chained_snoc path cur nxt :
  chained path → last path = Some cur → linked cur nxt →
  chained (path ++ [nxt]).
Proof.
  induction path as [|a [|b path] IH]; intros Hch Hlast Hlink; [done| |].
  - simpl in *. injection Hlast as ->. done.
  - destruct Hch as [Hab Hch]. split; [done|].
    apply IH; [done| |done]. done.
Qed.

Lemma trace_to_source_chained fuel state cur visited path path' :
  head path = Some cur → chained path →
  trace_to_source fuel state cur visited path = Ok path' →
  chained path'
  ∧ ∃ pre, path' = pre ++ path ∧ ∀ x, x ∈ pre → x ∈ edges state.
Proof.
  revert cur visited path.
  induction fuel as [|fuel IH]; intros cur visited path Hhead Hch; simpl.
  - destruct (is_code_or_access (src cur)); [|done]. intros [= <-].
    split; [done|]. exists []. split; [done|]. intros x Hx.
    by apply elem_of_nil in Hx.
  - destruct (is_code_or_access (src cur)).
    { intros [= <-]. split; [done|]. exists []. split; [done|]. intros x Hx.
      by apply elem_of_nil in Hx. }
    destruct (is_scope_node (src cur)) eqn:Hscope; [|by apply IH].
    destruct (src_conn cur) as [c|] eqn:Hc; [|done].
    destruct (startswith c "OUT_") eqn:Hpre; [|done]. simpl.
    destruct (next _ _) as [next_edge| |] eqn:Hnext; simpl; [|done..].
    apply next_Ok in Hnext as [Hnin Hconn].
    apply in_edges_spec in Hnin as [Hnin Hdst]. apply conn_is_spec in Hconn.
    destruct (bool_decide _); [done|]. intros Hres.
    destruct (IH next_edge (cur :: visited) (next_edge :: path) eq_refl)
      as (Hch' & pre & -> & Hpre'); [|done|].
    + destruct path as [|p0 path]; [done|]. injection Hhead as ->.
      split; [|done]. split; [done|]. split; [by rewrite Hdst|].
      exists (string_drop 4 c). split; [done|]. by rewrite split_OUT.
    + split; [done|]. exists (pre ++ [next_edge]).
      split; [by rewrite <- app_assoc|].
      intros x Hx. apply elem_of_app in Hx as [Hx|Hx]; [by apply Hpre'|].
      by apply list_elem_of_singleton in Hx as ->.
Qed.

Lemma trace_to_sink_chained fuel state cur visited path path' :
  last path = Some cur → chained path →
  trace_to_sink fuel state cur visited path = Ok path' →
  chained path'
  ∧ ∃ suf, path' = path ++ suf ∧ ∀ x, x ∈ suf → x ∈ edges state.
Proof.
  revert cur visited path.
  induction fuel as [|fuel IH]; intros cur visited path Hlast Hch; simpl.
  - destruct (is_code_or_access (dst cur)); [|done]. intros [= <-].
    split; [done|]. exists []. split; [by rewrite app_nil_r|]. intros x Hx.
    by apply elem_of_nil in Hx.
  - destruct (is_code_or_access (dst cur)).
    { intros [= <-]. split; [done|]. exists [].
      split; [by rewrite app_nil_r|]. intros x Hx. by apply elem_of_nil in Hx. }
    destruct (is_scope_node (dst cur)) eqn:Hscope; [|by apply IH].
    destruct (dst_conn cur) as [c|] eqn:Hc; [|done].
    destruct (startswith c "IN_") eqn:Hpre; simpl.
    2:{ intros [= <-]. split; [done|]. exists [].
        split; [by rewrite app_nil_r|]. intros x Hx. by apply elem_of_nil in Hx. }
    destruct (next _ _) as [next_edge| |] eqn:Hnext; simpl; [|done..].
    apply next_Ok in Hnext as [Hnin Hconn].
    apply out_edges_spec in Hnin as [Hnin Hsrc]. apply conn_is_spec in Hconn.
    destruct (bool_decide _); [done|]. intros Hres.
    destruct (IH next_edge (cur :: visited) (path ++ [next_edge]))
      as (Hch' & suf & -> & Hsuf); [by rewrite last_snoc| |done|].
    + apply (chained_snoc path cur); [done..|].
      split; [done|]. split; [done|].
      exists (string_drop 3 c). split; [|done]. by rewrite split_IN.
    + split; [done|]. exists (next_edge :: suf).
      split; [by rewrite <- app_assoc|].
      intros x Hx. apply elem_of_cons in Hx as [->|Hx]; [done|by apply Hsuf].
Qed.

(** Whatever the state is: a path that [memlet_path] returns for an edge
    holds that edge; every other edge of the path is an edge of the
    state; and two consecutive edges meet at a scope node, which the
    first enters through [IN_<k>] and the second leaves through
    [OUT_<k>] for the same [k]. *)
Theorem memlet_path_chained state e path :
  memlet_path state e = Ok path →
  e ∈ path ∧ (∀ x, x ∈ path → x = e ∨ x ∈ edges state) ∧ chained path.
Proof.
  unfold memlet_path, memlet_path_fuel.
  destruct (is_bare_empty e).
  { intros [= <-]. split; [by left|]. split; [|done].
    intros x Hx. apply list_elem_of_singleton in Hx. by left. }
  remember (S (length (edges state))) as F eqn:HF.
  destruct (trace_to_source F _ _ _ _) as [p1| |] eqn:Hsrc; [|done..].
  change (trace_to_sink F state e [] p1 = Ok path → e ∈ path
          ∧ (∀ x, x ∈ path → x = e ∨ x ∈ edges state) ∧ chained path).
  intros Hsnk.
  destruct (trace_to_source_chained F state e [] [e] p1 eq_refl I Hsrc)
    as (Hch1 & pre & -> & Hpre).
  destruct (trace_to_sink_chained F state e [] _ _ (last_snoc _ _) Hch1 Hsnk)
    as (Hch2 & suf & -> & Hsuf).
  split; [|split; [|done]].
  - rewrite !elem_of_app. left. right. by left.
  - intros x Hx. rewrite !elem_of_app in Hx.
    destruct Hx as [[Hx|Hx]|Hx]; [right; by apply Hpre| |right; by apply Hsuf].
    left. by apply list_elem_of_singleton in Hx.
Qed.

End WithSubsets.

Import Examples.

Lemma memlet_path_fuel_enough_witness :
  memlet_path_fuel 100 cyclic_graph (mkEdge 0 c_t1 None c_t2 None (mem "A"))
  = memlet_path cyclic_graph (mkEdge 0 c_t1 None c_t2 None (mem "A")).
Proof.
  apply (memlet_path_fuel_enough cyclic_graph
           (mkEdge 0 c_t1 None c_t2 None (mem "A")) 100).
  simpl. lia.
Defined.

Lemma memlet_path_chained_witness :
  e_A_entry ∈ [e_A_entry; e_entry_t1] ∧ chained [e_A_entry; e_entry_t1].
Proof.
  destruct (memlet_path_chained map_state e_A_entry [e_A_entry; e_entry_t1])
    as (Hin & _ & Hch).
  - reflexivity.
  - by split.
Defined.

End PathMoreFacts.

(** * Further facts: used symbols of states and of regions with loops *)

Module SymbolMoreFacts.

Section StateSymbols.
Import Dataflow.

Context {Subset : Type}.
Variable sdfg_symbols : gset string.
Variable sdfg_constants : gset string.
Variable new_symbols : Node → gset string.
Variable desc_used_symbols : Node → bool → gset string.
Variable language_is_Python : Node → bool.
Variable called_names : Node → gset string.
Variable symbols_in_code : Node → gset string → gset string.
Variable node_used_symbols : Node → bool → gset string.
Variable memlet_used_symbols : Edge Subset → bool → gset string.

(** [SDFGState.used_symbols] reports a symbol exactly when a node or a
    memlet of the state contributes it and neither an entry node of the
    state introduces it nor is it a constant of the SDFG.  An access
    node contributes the symbols of its descriptor and its own; a Python
    tasklet the names it calls that are symbols of the SDFG, and its
    own; a tasklet in another language only the symbols found in its
    code; any other node its own.  A memlet contributes its symbols,
    but when only the arguments are asked for, only if it is a leaf of
    its memlet tree. *)
Theorem state_used_symbols_spec (g : Graph Subset) (all_symbols : bool) (v : string) :
  v ∈ used_symbols sdfg_symbols sdfg_constants new_symbols desc_used_symbols
        language_is_Python called_names symbols_in_code node_used_symbols
        memlet_used_symbols g all_symbols
  ↔ ((∃ n, n ∈ nodes g
          ∧ match cls n with
            | AccessNode =>
              v ∈ desc_used_symbols n all_symbols ∪ node_used_symbols n all_symbols
            | Tasklet =>
              if language_is_Python n
              then v ∈ (called_names n ∩ sdfg_symbols) ∪ node_used_symbols n all_symbols
              else v ∈ symbols_in_code n sdfg_symbols
            | _ => v ∈ node_used_symbols n all_symbols
            end)
     ∨ (∃ e, e ∈ edges g
             ∧ (all_symbols = true ∨ is_leaf_memlet e = true)
             ∧ v ∈ memlet_used_symbols e all_symbols))
    ∧ (∀ n, n ∈ nodes g → cls n = EntryNode → v ∉ new_symbols n)
    ∧ v ∉ sdfg_constants.
Proof.
  rewrite SymbolFacts.used_symbols_spec.
  assert (∀ n,
    v ∈ (node_symbols sdfg_symbols new_symbols desc_used_symbols
           language_is_Python called_names symbols_in_code node_used_symbols
           all_symbols n (∅, ∅)).2
    ↔ match cls n with
      | AccessNode =>
        v ∈ desc_used_symbols n all_symbols ∪ node_used_symbols n all_symbols
      | Tasklet =>
        if language_is_Python n
        then v ∈ (called_names n ∩ sdfg_symbols) ∪ node_used_symbols n all_symbols
        else v ∈ symbols_in_code n sdfg_symbols
      | _ => v ∈ node_used_symbols n all_symbols
      end) as Hnode.
  { intros n. unfold node_symbols.
    destruct (cls n); [|destruct (language_is_Python n)| | |]; simpl; set_solver. }
  assert (∀ n,
    v ∈ (node_symbols sdfg_symbols new_symbols desc_used_symbols
           language_is_Python called_names symbols_in_code node_used_symbols
           all_symbols n (∅, ∅)).1
    ↔ cls n = EntryNode ∧ v ∈ new_symbols n) as Hnew.
  { intros n. unfold node_symbols.
    destruct (cls n); [|destruct (language_is_Python n)| | |]; simpl; set_solver. }
  assert (∀ e,
    v ∈ edge_symbols memlet_used_symbols g all_symbols e ∅
    ↔ (all_symbols = true ∨ is_leaf_memlet e = true)
      ∧ v ∈ memlet_used_symbols e all_symbols) as Hedge.
  { intros e. unfold edge_symbols.
    destruct all_symbols, (is_leaf_memlet e); simpl; set_solver. }
  split.
  - intros [Hsome [Hno Hc]]. split; [|split; [|done]].
    + destruct Hsome as [(n & Hn & Hv)|(e & He & Hv)].
      * left. exists n. split; [done|]. by apply Hnode.
      * right. exists e. split; [done|]. by apply Hedge.
    + intros n Hn Hcls Hv. apply (Hno n Hn). by apply Hnew.
  - intros [Hsome [Hno Hc]]. split; [|split; [|done]].
    + destruct Hsome as [(n & Hn & Hv)|(e & He & Hv)].
      * left. exists n. split; [done|]. by apply Hnode.
      * right. exists e. split; [done|]. by apply Hedge.
    + intros n Hn Hv. apply Hnew in Hv as [Hcls Hv]. by apply (Hno n).
Qed.

End StateSymbols.

Section RegionSymbols.
Import ControlFlow.

Variable get_free_symbols : CodeBlock → gset string.
Variable condition_free_symbols : expr → gset string.
Variable edge_used_symbols : InterstateEdge → bool → gset string.
Variable sdfg_arrays : gset string.
Variable array_used_symbols : string → bool → gset string.
Variable bfs_nodes : Region → nat → list nat.

#[local] Abbreviation region_used_symbols :=
  (used_symbols get_free_symbols condition_free_symbols edge_used_symbols
                sdfg_arrays array_used_symbols bfs_nodes).
#[local] Abbreviation internal :=
  (_used_symbols_internal get_free_symbols condition_free_symbols
                          edge_used_symbols sdfg_arrays array_used_symbols
                          bfs_nodes).
#[local] Abbreviation region_syms :=
  (region_symbols edge_used_symbols sdfg_arrays array_used_symbols bfs_nodes).
#[local] Abbreviation loop_syms :=
  (loop_symbols get_free_symbols condition_free_symbols).
#[local] Abbreviation block_syms :=
  (block_symbols edge_used_symbols sdfg_arrays array_used_symbols).
#[local] Abbreviation edge_syms :=
  (edge_symbols edge_used_symbols sdfg_arrays array_used_symbols).
#[local] Abbreviation interstate_syms :=
  (interstate_symbols edge_used_symbols sdfg_arrays array_used_symbols).

Implicit Types (s : SymbolSets) (v : string).

(** The loop over the outgoing edges keeps what is defined, and puts
    nothing among the symbols used before their assignment that the
    edges do not use. *)
Lemma edge_symbols_keep all ss (es : list Edge) s v :
  (∀ e, e ∈ es → v ∉ interstate_syms all e) →
  (v ∈ defined_syms s → v ∈ defined_syms (foldl (edge_syms all ss) s es))
  ∧ (v ∉ used_before_assignment s →
     v ∉ used_before_assignment (foldl (edge_syms all ss) s es)).
Proof.
  revert s. induction es as [|e es IH]; intros s Hes; [done|]. simpl.
  assert (v ∉ interstate_syms all e) as He by (apply Hes; by left).
  destruct (IH (edge_syms all ss s e)) as [IHd IHu];
    [intros; apply Hes; by right|].
  unfold ControlFlow.interstate_symbols in He.
  split; intros Hs; [apply IHd|apply IHu];
    unfold ControlFlow.edge_symbols; simpl; set_solver.
Qed.

(** One block of the walk: a plain block, or a loop over [v]. *)
Lemma block_symbols_keep (self : Region) all v
    (p : ControlFlowBlock * (SymbolSets → result SymbolSets)) s s' :
  (∀ e, e ∈ edges self → v ∉ interstate_syms all e) →
  (if is_region p.1
   then ∃ attrs body, loop_variable attrs = v ∧ p.2 = loop_syms attrs body
   else True) →
  block_syms self all (Ok s) p = Ok s' →
  v ∉ used_before_assignment s →
  (v ∉ used_before_assignment s')
  ∧ (v ∈ defined_syms s ∨ is_region p.1 = true → v ∈ defined_syms s').
Proof.
  intros Hedges Hp. unfold ControlFlow.block_symbols. simpl.
  destruct p as [block nested]. simpl in Hp.
  assert (∀ e, e ∈ out_edges self (block_id block) → v ∉ interstate_syms all e)
    as Hout.
  { intros e He. apply Hedges. unfold out_edges in He.
    by apply list_elem_of_filter in He as [_ ?]. }
  destruct (is_region block) eqn:Hreg.
  - destruct Hp as (attrs & body & Hv & ->).
    destruct (loop_syms attrs body s) as [s1| |] eqn:Hloop; simpl; [|done..].
    intros [= <-] Hub.
    destruct (SymbolFacts.loop_symbols_defines _ _ _ _ _ _ Hloop) as (Hd & _ & Hu);
      [by rewrite Hv|]. rewrite Hv in Hd, Hu.
    destruct (edge_symbols_keep all SameAsFree _ s1 v Hout) as [Hkd Hku].
    split; [by apply Hku|]. intros _. by apply Hkd.
  - simpl. intros [= <-] Hub.
    destruct (edge_symbols_keep all (OwnSet (plain_block_symbols block all)) _
                (mkSets (free_syms s ∪ plain_block_symbols block all)
                        (defined_syms s) (used_before_assignment s))
                v Hout) as [Hkd Hku].
    split; [by apply Hku|]. intros [Hd|Hr]; [|simpl in Hr; congruence].
    by apply Hkd.
Qed.

(** Once a block has raised, the walk is over. *)
Lemma blocks_fold_fails (self : Region) all
    (blocks : list (ControlFlowBlock * (SymbolSets → result SymbolSets)))
    (acc : result SymbolSets) :
  (∀ s, acc ≠ Ok s) → foldl (block_syms self all) acc blocks = acc.
Proof.
  revert acc. induction blocks as [|q blocks IH]; intros acc Hacc; [done|].
  simpl. assert (block_syms self all acc q = acc) as ->.
  { destruct acc as [s| |]; [by destruct (Hacc s)|done..]. }
  by apply IH.
Qed.

Lemma blocks_fold_keep (self : Region) all v
    (blocks : list (ControlFlowBlock * (SymbolSets → result SymbolSets))) s s' :
  (∀ e, e ∈ edges self → v ∉ interstate_syms all e) →
  (∀ p, p ∈ blocks →
        if is_region p.1
        then ∃ attrs body, loop_variable attrs = v ∧ p.2 = loop_syms attrs body
        else True) →
  foldl (block_syms self all) (Ok s) blocks = Ok s' →
  v ∉ used_before_assignment s →
  (v ∉ used_before_assignment s')
  ∧ (v ∈ defined_syms s ∨ (∃ p, p ∈ blocks ∧ is_region p.1 = true) →
     v ∈ defined_syms s').
Proof.
  intros Hedges. revert s.
  induction blocks as [|p blocks IH]; intros s Hblocks; cbn [foldl].
  - intros [= <-] Hub. split; [done|].
    intros [?|(p & Hp & _)]; [done|]. by apply elem_of_nil in Hp.
  - destruct (block_syms self all (Ok s) p) as [s1| |] eqn:Hstep.
    2,3: (rewrite blocks_fold_fails by (intros ?; discriminate); discriminate).
    intros Hfold Hub.
    destruct (block_symbols_keep self all v p s s1 Hedges
                (Hblocks p ltac:(by left)) Hstep Hub) as [Hub1 Hd1].
    destruct (IH s1 (λ q Hq, Hblocks q ltac:(by right)) Hfold Hub1)
      as [Hub' Hd'].
    split; [done|]. intros [Hd|(q & Hq & Hreg)].
    + apply Hd'. left. apply Hd1. by left.
    + apply elem_of_cons in Hq as [->|Hq].
      * apply Hd'. left. apply Hd1. by right.
      * apply Hd'. right. by exists q.
Qed.

(** The entries of the walk are entries of the table. *)
Lemma ordered_blocks_table {X} (self : Region)
    (table blocks : list (ControlFlowBlock * X)) :
  ordered_blocks bfs_nodes self table = Ok blocks →
  ∀ p, p ∈ blocks → p ∈ table.
Proof.
  unfold ordered_blocks.
  destruct (start_block self).1 as [b|[]|]; try done; intros [= <-]; [|done].
  intros p Hp. apply list_elem_of_omap in Hp as (i & _ & Hfind).
  apply List.find_some in Hfind as [Hin _]. by apply list_elem_of_In.
Qed.

(** A block of the region with an identity of its own is walked when
    the walk starts nowhere, or reaches its identity. *)
Lemma ordered_blocks_reached {X} (self : Region) (f : ControlFlowBlock → X) c blocks :
  NoDup (block_id <$> nodes self) → c ∈ nodes self →
  (∀ b, (start_block self).1 = Ok b → block_id c ∈ bfs_nodes self b) →
  ordered_blocks bfs_nodes self (map (λ c, (c, f c)) (nodes self)) = Ok blocks →
  (c, f c) ∈ blocks.
Proof.
  intros Hnd Hc Hwalk. unfold ordered_blocks.
  destruct (start_block self).1 as [b|[]|]; try done; intros [= <-].
  - apply list_elem_of_omap. exists (block_id c). split; [by apply Hwalk|].
    clear Hwalk. induction (nodes self) as [|c' cs IH]; [by apply elem_of_nil in Hc|].
    simpl. rewrite fmap_cons in Hnd. apply NoDup_cons in Hnd as [Hc' Hnd].
    case_bool_decide as Hid.
    + apply elem_of_cons in Hc as [->|Hc]; [done|].
      exfalso. apply Hc'. rewrite Hid. apply list_elem_of_fmap. by exists c.
    + apply elem_of_cons in Hc as [->|Hc]; [done|]. by apply IH.
  - apply list_elem_of_fmap. by exists c.
Qed.

(** A region, of any class, whose nested regions are all loops over
    [v], one of which the walk reaches, and whose inter-state edges do
    not use [v]: [used_symbols] (with [keep_defined_in_mapping] off)
    never reports [v], not even when a state of the region that comes
    before the loop uses it.  The loop has put [v] into the set of
    defined symbols that it shares with the region, and all of that set
    is taken off the free symbols in the end. *)
Theorem loop_variable_masked_in_region (self loop : Region) attrs all v X :
  (∀ b, b ∈ nodes self → is_region b = true →
        ∃ r attrs', b = RegionBlock r ∧ r_cls r = LoopRegion attrs'
                    ∧ loop_variable attrs' = v) →
  RegionBlock loop ∈ nodes self → r_cls loop = LoopRegion attrs →
  NoDup (block_id <$> nodes self) →
  (∀ b, (start_block self).1 = Ok b → r_bid loop ∈ bfs_nodes self b) →
  (∀ e, e ∈ edges self → v ∉ interstate_syms all e) →
  region_used_symbols self all false = Ok X →
  v ∉ X.
Proof.
  intros Hblocks Hloop Hcls Hnd Hwalk Hedges.
  unfold used_symbols. simpl.
  set (table := map (λ c, (c, internal c all false)) (nodes self)).
  assert (∀ s r, region_syms self all false table s = Ok r →
                 v ∉ used_before_assignment s →
                 v ∈ defined_syms r ∧ (v ∉ free_syms r)
                 ∧ (v ∉ used_before_assignment r)) as Hregion.
  { intros s r Hr Hub. unfold ControlFlow.region_symbols in Hr.
    destruct (ordered_blocks bfs_nodes self table) as [blocks| |] eqn:Hord;
      [|done..]. simpl in Hr.
    destruct (foldl _ (Ok s) blocks) as [s'| |] eqn:Hfold; [|done..].
    simpl in Hr.
    destruct (blocks_fold_keep self all v blocks s s' Hedges) as [Hub' Hd'];
      [|done|done|].
    { intros p Hp. apply (ordered_blocks_table _ _ _ Hord) in Hp.
      apply list_elem_of_fmap in Hp as (c & -> & Hc). simpl.
      destruct (is_region c) eqn:Hreg; [|done].
      destruct (Hblocks c Hc Hreg) as (r' & attrs' & -> & Hcls' & Hv).
      exists attrs'. eexists. split; [done|].
      simpl. rewrite Hcls'. reflexivity. }
    assert (v ∈ defined_syms s') as Hd.
    { apply Hd'. right. exists (RegionBlock loop, internal (RegionBlock loop) all false).
      split; [|done].
      apply (ordered_blocks_reached self (λ c, internal c all false)
               (RegionBlock loop) blocks); done. }
    destruct (r_cls self) as [symbols mapping| |]; simpl in Hr.
    - destruct mapping; injection Hr as <-; simpl; set_solver.
    - injection Hr as <-. simpl. set_solver.
    - injection Hr as <-. simpl. set_solver. }
  destruct (r_cls self) as [symbols mapping| |attrs0] eqn:Hself.
  - destruct (region_syms self all false table no_symbols) as [r| |] eqn:Hr;
      [|done..]. simpl. intros [= <-].
    by destruct (Hregion _ _ Hr) as (_ & ? & _); [set_solver|].
  - destruct (region_syms self all false table no_symbols) as [r| |] eqn:Hr;
      [|done..]. simpl. intros [= <-].
    by destruct (Hregion _ _ Hr) as (_ & ? & _); [set_solver|].
  - unfold ControlFlow.loop_symbols.
    destruct (region_syms self all false table no_symbols) as [r| |] eqn:Hr;
      [|done..]. simpl. intros [= <-].
    destruct (Hregion _ _ Hr) as (Hd & _ & Hu); [set_solver|].
    set_solver.
Qed.

(** The loop over the outgoing edges defines assigned symbols only. *)
Lemma edge_symbols_defined all ss (es : list Edge) s v :
  (∀ e, e ∈ es → v ∉ dom (assignments (e_data e))) →
  v ∉ defined_syms s →
  (v ∉ defined_syms (foldl (edge_syms all ss) s es))
  ∧ (v ∈ free_syms s → v ∈ free_syms (foldl (edge_syms all ss) s es)).
Proof.
  revert s. induction es as [|e es IH]; intros s Hes Hd; [done|]. simpl.
  assert (v ∉ dom (assignments (e_data e))) as He by (apply Hes; by left).
  destruct (IH (edge_syms all ss s e)) as [IHd IHf].
  { intros; apply Hes; by right. }
  { unfold ControlFlow.edge_symbols. simpl. set_solver. }
  split; [done|]. intros Hf. apply IHf.
  unfold ControlFlow.edge_symbols. simpl. set_solver.
Qed.

Lemma plain_blocks_defined (self : Region) all v
    (blocks : list (ControlFlowBlock * (SymbolSets → result SymbolSets))) s s' :
  (∀ e, e ∈ edges self → v ∉ dom (assignments (e_data e))) →
  (∀ p, p ∈ blocks → is_region p.1 = false) →
  foldl (block_syms self all) (Ok s) blocks = Ok s' →
  v ∉ defined_syms s → v ∉ defined_syms s'.
Proof.
  intros Hedges. revert s.
  induction blocks as [|[block nested] blocks IH]; intros s Hplain; cbn [foldl].
  - by intros [= <-].
  - assert (is_region block = false) as Hb
      by (apply (Hplain (block, nested)); by left).
    unfold ControlFlow.block_symbols at 2. simpl. rewrite Hb. simpl.
    intros Hfold Hd. apply (IH _ (λ q Hq, Hplain q ltac:(by right)) Hfold).
    apply edge_symbols_defined; [|done].
    intros e He. apply Hedges. unfold out_edges in He.
    by apply list_elem_of_filter in He as [_ ?].
Qed.

(** A symbol of the header of a loop that is not the loop variable and
    that no inter-state edge of the body assigns is reported by
    [used_symbols] of the loop, for a body of plain blocks whose walk
    starts without an [IndexError]. *)
Theorem loop_header_symbol_used (R : Region) attrs all keep v :
  r_cls R = LoopRegion attrs →
  (∀ b, b ∈ nodes R → is_region b = false) →
  (start_block R).1 ≠ Raise IndexError →
  v ∈ statement_free_symbols get_free_symbols (init_statement attrs)
      ∪ statement_free_symbols get_free_symbols (update_statement attrs)
      ∪ condition_free_symbols (loop_condition attrs) →
  v ≠ loop_variable attrs →
  (∀ e, e ∈ edges R → v ∉ dom (assignments (e_data e))) →
  ∃ X, region_used_symbols R all keep = Ok X ∧ v ∈ X.
Proof.
  intros Hcls Hplain Hstart Hv Hlv Hedges.
  unfold used_symbols. simpl. rewrite Hcls.
  set (table := map (λ c, (c, internal c all keep)) (nodes R)).
  assert (∀ p, p ∈ table → is_region p.1 = false) as Htable.
  { intros p Hp. apply list_elem_of_fmap in Hp as (c & -> & Hc). by apply Hplain. }
  destruct (SymbolFacts.region_symbols_plain edge_used_symbols sdfg_arrays
              array_used_symbols bfs_nodes R all keep table no_symbols Htable Hstart)
    as [r Hr].
  assert (v ∉ defined_syms r) as Hd.
  { unfold ControlFlow.region_symbols in Hr.
    destruct (ordered_blocks bfs_nodes R table) as [blocks| |] eqn:Hord;
      [|done..]. simpl in Hr.
    destruct (foldl _ (Ok no_symbols) blocks) as [s'| |] eqn:Hfold; [|done..].
    simpl in Hr. rewrite Hcls in Hr. injection Hr as <-. simpl.
    assert (v ∉ defined_syms s') as Hd'.
    { apply (plain_blocks_defined R all v blocks no_symbols s' Hedges); [|done|].
      - intros p Hp. apply Htable. by apply (ordered_blocks_table _ _ _ Hord).
      - apply not_elem_of_empty. }
    set_solver. }
  unfold ControlFlow.loop_symbols. rewrite Hr. simpl.
  eexists. split; [done|]. set_solver.
Qed.

End RegionSymbols.

Import Examples.

Lemma loop_header_symbol_used_witness :
  ∃ X, ControlFlow.used_symbols (λ _, {[ "i" ]}) (λ _, {[ "i"; "N" ]}) (λ _ _, ∅) ∅
         (λ _ _, ∅) example_bfs_nodes (loop_R false) true false = Ok X
       ∧ "N" ∈ X.
Proof.
  apply (loop_header_symbol_used (λ _, {[ "i" ]}) (λ _, {[ "i"; "N" ]})
           (λ _ _, ∅) ∅ (λ _ _, ∅) example_bfs_nodes (loop_R false)
           (counting_attrs false) true false "N").
  - reflexivity.
  - intros b Hb. by apply list_elem_of_singleton in Hb as ->.
  - discriminate.
  - apply (bool_decide_unpack _). by vm_compute.
  - discriminate.
  - intros e He. by apply elem_of_nil in He.
Defined.


Lemma loop_variable_masked_in_region_witness :
  "i" ∈ ControlFlow.plain_block_symbols block_before true
  ∧ ∃ X, ControlFlow.used_symbols (λ _, {[ "i" ]}) (λ _, {[ "i" ]}) (λ _ _, ∅) ∅
           (λ _ _, ∅) example_bfs_nodes region_before_loop true false = Ok X
         ∧ ¬ ("i" ∈ X).
Proof.
  split; [apply (bool_decide_unpack _); by vm_compute|].
  exists ∅. split; [by vm_compute|].
  apply (loop_variable_masked_in_region (λ _, {[ "i" ]}) (λ _, {[ "i" ]})
           (λ _ _, ∅) ∅ (λ _ _, ∅) example_bfs_nodes region_before_loop
           (loop_R false) (counting_attrs false) true "i" ∅).
  - intros b Hb Hreg.
    apply elem_of_cons in Hb as [->|Hb]; [done|].
    apply list_elem_of_singleton in Hb as ->.
    by exists (loop_R false), (counting_attrs false).
  - right. by left.
  - reflexivity.
  - apply (bool_decide_unpack _). by vm_compute.
  - intros b _. right. by left.
  - intros e _. apply (bool_decide_unpack _). by vm_compute.
  - by vm_compute.
Defined.

End SymbolMoreFacts.

(** * Further facts: inlining a control flow region *)

Module RegionInlineFacts.
Import ControlFlow.

Section WithNames.
Variable find_new_name : string → gset string → string.
Implicit Types (self parent g : Region) (b : ControlFlowBlock) (e : Edge) (h : Heap).

Lemma for_each_cons_run {A} (a : A) (l : list A) (body : A → M unit) h h' :
  body a h = (Ok (), h') → for_each (a :: l) body h = for_each l body h'.
Proof. intros Hb. unfold for_each. simpl. by rewrite Hb. Qed.

Lemma add_edge_edges g src dst d :
  edges (add_edge g src dst d) = edges g ++ [mkEdge (fresh_eid g) src dst d]
  ∧ nodes (add_edge g src dst d) = nodes g
  ∧ r_bid (add_edge g src dst d) = r_bid g
  ∧ r_cls (add_edge g src dst d) = r_cls g.
Proof. unfold add_edge. by destruct (bool_decide _). Qed.

Lemma NoDup_eid_snoc g src dst d :
  NoDup (eid <$> edges g) →
  NoDup (eid <$> (edges g ++ [mkEdge (fresh_eid g) src dst d])).
Proof.
  intros Hnd. rewrite fmap_app. apply NoDup_app. split; [done|]. split.
  - intros i Hi Hi'. apply list_elem_of_singleton in Hi'. simpl in Hi'.
    apply list_elem_of_fmap in Hi as (x & -> & Hx).
    apply BlockFacts.fresh_eid_gt in Hx. lia.
  - apply NoDup_singleton.
Qed.

(** A loop that adds one edge for each element of a list. *)
Lemma for_each_add_edges {A} (l : list A) (s t : A → nat)
    (d : A → InterstateEdge) h :
  NoDup (eid <$> edges (graph h)) →
  ∃ g' added,
    for_each l (λ a, parent_add_edge (s a) (t a) (d a)) h
    = (Ok (), mkHeap g' (next_id h))
    ∧ nodes g' = nodes (graph h)
    ∧ edges g' = edges (graph h) ++ added
    ∧ edge_triple <$> added = (λ a, (s a, t a, d a)) <$> l
    ∧ NoDup (eid <$> edges g')
    ∧ r_bid g' = r_bid (graph h) ∧ r_cls g' = r_cls (graph h).
Proof.
  revert h. induction l as [|a l IH]; intros h Hnd.
  - exists (graph h), []. destruct h. rewrite app_nil_r. by repeat split.
  - destruct (add_edge_edges (graph h) (s a) (t a) (d a)) as (He & Hn & Hb & Hc).
    rewrite (for_each_cons_run a l _ h
               (mkHeap (add_edge (graph h) (s a) (t a) (d a)) (next_id h)))
      by done.
    destruct (IH (mkHeap (add_edge (graph h) (s a) (t a) (d a)) (next_id h)))
      as (g' & added & Hrun & Hn' & He' & Ht & Hnd' & Hb' & Hc').
    { cbn [graph]. rewrite He. by apply NoDup_eid_snoc. }
    cbn [graph next_id] in *.
    exists g', (mkEdge (fresh_eid (graph h)) (s a) (t a) (d a) :: added).
    split; [done|]. split; [congruence|]. split.
    { rewrite He', He, <- app_assoc. done. }
    split; [by rewrite fmap_cons, Ht|]. split; [done|]. split; congruence.
Qed.

(** A loop that replaces each edge of a list by an edge between [s e]
    and [t e]: the new edge is added, then the old one removed. *)
Lemma for_each_redirect (s t : Edge → nat) (l : list Edge) h :
  NoDup (eid <$> edges (graph h)) → NoDup l →
  (∀ e, e ∈ l → e ∈ edges (graph h)) →
  ∃ g' added,
    for_each l (λ e, _ ← parent_add_edge (s e) (t e) (e_data e);
                     update (λ g, remove_edge g e)) h
    = (Ok (), mkHeap g' (next_id h))
    ∧ nodes g' = nodes (graph h)
    ∧ edges g' = filter (λ e, e ∉ l) (edges (graph h)) ++ added
    ∧ edge_triple <$> added = (λ e, (s e, t e, e_data e)) <$> l
    ∧ NoDup (eid <$> edges g')
    ∧ r_bid g' = r_bid (graph h) ∧ r_cls g' = r_cls (graph h).
Proof.
  revert h. induction l as [|e l IH]; intros h Hnd Hl Hsub.
  - exists (graph h), []. destruct h. rewrite app_nil_r. simpl.
    repeat split; try done.
    symmetry. apply InlineFacts.filter_all. intros x _. apply not_elem_of_nil.
  - apply NoDup_cons in Hl as [Hel Hl].
    destruct (add_edge_edges (graph h) (s e) (t e) (e_data e)) as (He & Hn & Hb & Hc).
    set (new := mkEdge (fresh_eid (graph h)) (s e) (t e) (e_data e)) in *.
    set (g1 := remove_edge (add_edge (graph h) (s e) (t e) (e_data e)) e).
    assert (e ∈ edges (graph h)) as Hein by (apply Hsub; by left).
    assert (∀ x, x ∈ edges (graph h) → eid x ≠ eid e ↔ x ≠ e) as Hone.
    { intros x Hx. split; [by intros ? ->|].
      intros Hne Heq. apply Hne. by apply (BlockFacts.eid_inj (edges (graph h))). }
    assert (edges g1 = filter (λ x, x ≠ e) (edges (graph h)) ++ [new]) as He1.
    { unfold g1, remove_edge, with_nodes_edges. cbn [edges].
      rewrite He, filter_app. f_equal.
      - apply BlockFacts.filter_ext_in. intros x Hx. by apply Hone.
      - rewrite filter_cons, decide_True; [done|]. simpl.
        apply BlockFacts.fresh_eid_gt in Hein. lia. }
    rewrite (for_each_cons_run e l _ h (mkHeap g1 (next_id h))) by done.
    destruct (IH (mkHeap g1 (next_id h)))
      as (g' & added & Hrun & Hn' & He' & Ht & Hnd' & Hb' & Hc').
    { cbn [graph]. rewrite He1, fmap_app. apply NoDup_app. split; [|split].
      - apply (NoDup_fmap_2_strong eid).
        + intros x y Hx Hy. apply list_elem_of_filter in Hx as [_ Hx].
          apply list_elem_of_filter in Hy as [_ Hy].
          by apply (BlockFacts.eid_inj (edges (graph h))).
        + apply NoDup_filter. by apply BlockFacts.NoDup_of_eids.
      - intros i Hi Hi'. apply list_elem_of_singleton in Hi'. simpl in Hi'.
        apply list_elem_of_fmap in Hi as (x & -> & Hx).
        apply list_elem_of_filter in Hx as [_ Hx].
        apply BlockFacts.fresh_eid_gt in Hx. lia.
      - apply NoDup_singleton. }
    { done. }
    { intros x Hx. cbn [graph]. rewrite He1. apply elem_of_app. left.
      apply list_elem_of_filter. split; [by intros ->|]. apply Hsub. by right. }
    cbn [graph next_id] in *. exists g', (new :: added).
    split; [done|]. split; [by rewrite Hn'|]. split.
    { rewrite He', He1, filter_app, <- app_assoc. f_equal.
      - rewrite list_filter_filter. apply BlockFacts.filter_ext_in.
        intros x Hx. rewrite not_elem_of_cons. tauto.
      - rewrite filter_cons, decide_True; [done|].
        intros Hin. specialize (Hsub new (list_elem_of_further _ _ _ Hin)).
        apply BlockFacts.fresh_eid_gt in Hsub. simpl in Hsub. lia. }
    split; [by rewrite !fmap_cons, Ht|]. split; [done|].
    unfold g1, remove_edge in *. simpl in *. split; congruence.
Qed.

Lemma set_label_twice b l l' : set_label (set_label b l) l' = set_label b l'.
Proof. by destruct b. Qed.

Lemma set_label_same b l :
  block_id (set_label b l) = block_id b
  ∧ isinstance_ReturnBlock (set_label b l) = isinstance_ReturnBlock b.
Proof. by destruct b. Qed.

Lemma triples_forall {A} (P : nat * nat * InterstateEdge → Prop)
    (added : list Edge) (g : A → nat * nat * InterstateEdge) (l : list A) :
  edge_triple <$> added = g <$> l → (∀ a, a ∈ l → P (g a)) →
  ∀ x, x ∈ added → P (edge_triple x).
Proof.
  intros Heq Hall x Hx.
  assert (edge_triple x ∈ g <$> l) as Hin.
  { rewrite <- Heq. apply list_elem_of_fmap. by exists x. }
  apply list_elem_of_fmap in Hin as (a & -> & Ha). by apply Hall.
Qed.

Lemma mapped_empty bid : mapped ∅ bid = bid.
Proof. unfold mapped. by rewrite lookup_empty. Qed.

#[local] Arguments parent_add_state : simpl never.
#[local] Arguments parent_add_node : simpl never.
#[local] Arguments parent_add_edge : simpl never.
#[local] Arguments start_block : simpl never.
#[local] Arguments remove_node : simpl never.
#[local] Arguments remove_edge : simpl never.
#[local] Arguments in_edges : simpl never.
#[local] Arguments out_edges : simpl never.
#[local] Arguments out_degree : simpl never.
#[local] Arguments get_graph : simpl never.
#[local] Arguments for_each : simpl never.
#[local] Arguments update : simpl never.
#[local] Arguments lift : simpl never.

(** [ControlFlowRegion.inline] into the parent graph [p], whose edges
    are distinct objects, for a region with start block [sb]; no block
    and no edge of the region carries the identity of the region, the
    parent has no edge from the region to itself, and no return block
    has to be turned into a state.  The call answers [True] and the new
    end state.  In the parent the region is gone, and the end state and
    the blocks of the region, relabelled, have been appended.  The edges
    that did not touch the region stay and the edges of the region
    follow; each edge into the region now enters the start block, each
    edge out of the region now leaves the end state, and every block of
    the region without a successor has an edge to the end state. *)
Theorem ControlFlowRegion_inline_spec (p self : Region) next sb :
  (∀ n, n ∈ nodes self → isinstance_ReturnBlock n && isinstance_SDFG p = false) →
  NoDup (eid <$> edges p) →
  (start_block self).1 = Ok sb → sb ≠ r_bid self → r_bid self < next →
  (∀ n, n ∈ nodes self → block_id n ≠ r_bid self) →
  (∀ e, e ∈ edges self → e_src e ≠ r_bid self ∧ e_dst e ≠ r_bid self) →
  (∀ e, e ∈ edges p → ¬ (e_src e = r_bid self ∧ e_dst e = r_bid self)) →
  ∃ p' l_end added,
    ControlFlowRegion_inline find_new_name self (mkHeap p next)
    = (Ok (true, Some next), mkHeap p' (S next))
    ∧ nodes p'
      = filter (λ b, block_id b ≠ r_bid self) (nodes p)
        ++ [new_state next l_end] ++ added
    ∧ Forall2 (λ n n', ∃ l, n' = set_label n l) (nodes self) added
    ∧ edge_triple <$> edges p'
      = (edge_triple <$> filter (λ e, e_src e ≠ r_bid self ∧ e_dst e ≠ r_bid self)
                                (edges p))
        ++ (edge_triple <$> edges self)
        ++ ((λ e, (e_src e, sb, e_data e)) <$> in_edges p (r_bid self))
        ++ ((λ e, (next, e_dst e, e_data e)) <$> out_edges p (r_bid self))
        ++ ((λ n, (block_id n, next, InterstateEdge_default))
              <$> filter (λ n, out_degree self (block_id n) = 0) (nodes self)).
Proof.
  intros Hret Hnd Hstart Hsb Hnext Hids Hinner Hloopfree.
  unfold ControlFlowRegion_inline.
  destruct (InlineFacts.parent_add_state_run find_new_name
              (r_label self +:+ "_end") (mkHeap p next))
    as (l_end & g1 & E1 & Hn1 & He1 & Hb1 & Hc1).
  rewrite (InlineFacts.bind_run _ _ _ _ _ E1). cbn [next_id graph] in *.
  rewrite InlineFacts.get_graph_run. cbn [next_id graph].
  assert (isinstance_SDFG g1 = isinstance_SDFG p) as Hsdfg
    by (unfold isinstance_SDFG; by rewrite Hc1).
  rewrite Hsdfg.
  match goal with
  | |- context [?f (nodes self) [] ∅] => set (loop := f)
  end.
  assert (∀ ns tc m h,
    (∀ n, n ∈ ns → isinstance_ReturnBlock n && isinstance_SDFG p = false) →
    ∃ g' added,
      loop ns tc m h
      = (Ok (tc ++ (block_id <$> filter (λ n, out_degree self (block_id n) = 0) ns),
             m), mkHeap g' (next_id h))
      ∧ nodes g' = nodes (graph h) ++ added
      ∧ Forall2 (λ n n', ∃ l, n' = set_label n l) ns added
      ∧ edges g' = edges (graph h)
      ∧ r_bid g' = r_bid (graph h) ∧ r_cls g' = r_cls (graph h)) as Hloop.
  { induction ns as [|n ns IH]; intros tc m h Hr.
    - exists (graph h), []. destruct h. simpl. rewrite !app_nil_r.
      by repeat split.
    - unfold loop. cbn fix. fold loop. cbn beta iota.
      destruct (InlineFacts.parent_add_node_run find_new_name
                  (set_label n (r_label self +:+ "_" +:+ block_label n)) h)
        as (l' & g2 & E2 & Hn2 & He2 & Hb2 & Hc2).
      rewrite (InlineFacts.bind_run _ _ _ _ _ E2).
      rewrite set_label_twice in *.
      destruct (set_label_same n l') as [Hid Hisret]. rewrite Hid, Hisret.
      rewrite (Hr n) by (by left). cbn iota.
      destruct (IH (if bool_decide (out_degree self (block_id n) = 0)
                    then tc ++ [block_id n] else tc) m (mkHeap g2 (next_id h)))
        as (g' & added & Hrun & Hn' & Hall & He' & Hb' & Hc').
      { intros; apply Hr; by right. }
      cbn [graph next_id] in *.
      exists g', (set_label n l' :: added).
      rewrite filter_cons.
      case_bool_decide as Hdeg.
      + rewrite decide_True by done. rewrite Hrun, fmap_cons, <- app_assoc.
        split; [done|]. split; [by rewrite Hn', Hn2, <- app_assoc|].
        split; [constructor; [by exists l'|done]|].
        split; [congruence|]. split; congruence.
      + rewrite decide_False by done. rewrite Hrun.
        split; [done|]. split; [by rewrite Hn', Hn2, <- app_assoc|].
        split; [constructor; [by exists l'|done]|].
        split; [congruence|]. split; congruence. }
  destruct (Hloop (nodes self) [] ∅ (mkHeap g1 (S next)) Hret)
    as (g2 & added & E2 & Hn2 & Hall & He2 & Hb2 & Hc2).
  rewrite (InlineFacts.bind_run _ _ _ _ _ E2). cbn [next_id graph app] in *.
  clear Hloop E2.
  (* the edges of the region *)
  destruct (for_each_add_edges (edges self) (λ e, mapped ∅ (e_src e))
              (λ e, mapped ∅ (e_dst e)) e_data (mkHeap g2 (S next)))
    as (g3 & added3 & E3 & Hn3 & He3 & Ht3 & Hnd3 & Hb3 & Hc3).
  { cbn [graph]. by rewrite He2, He1. }
  rewrite (InlineFacts.bind_run _ _ _ _ _ E3). cbn [next_id graph] in *.
  rewrite InlineFacts.get_graph_run. cbn [next_id graph].
  set (rid := r_bid self) in *.
  assert (edges g3 = edges p ++ added3) as Hg3 by (by rewrite He3, He2, He1).
  assert (∀ x, x ∈ added3 → e_src x ≠ rid ∧ e_dst x ≠ rid) as Hadded3.
  { apply (triples_forall (λ t, t.1.1 ≠ rid ∧ t.1.2 ≠ rid) _ _ _ Ht3).
    intros e He. simpl. rewrite !mapped_empty. by apply Hinner. }
  (* the edges into the region *)
  assert (in_edges g3 rid = in_edges p rid) as Hin3.
  { unfold in_edges. rewrite Hg3, filter_app.
    rewrite (InlineFacts.filter_none _ added3), app_nil_r; [done|].
    intros x Hx. by destruct (Hadded3 x Hx). }
  rewrite Hin3, Hstart.
  destruct (for_each_redirect e_src (λ _, sb) (in_edges p rid) (mkHeap g3 (S next)))
    as (g4 & added4 & E4 & Hn4 & He4 & Ht4 & Hnd4 & Hb4 & Hc4).
  { done. }
  { apply NoDup_filter. by apply BlockFacts.NoDup_of_eids. }
  { intros e He. cbn [graph]. rewrite Hg3. apply elem_of_app. left.
    unfold in_edges in He. by apply list_elem_of_filter in He as [_ ?]. }
  match goal with
  | |- context [(?m ≫= ?k) (mkHeap g3 (S next))] =>
    assert (m (mkHeap g3 (S next)) = (Ok (), mkHeap g4 (S next))) as E4'
      by exact E4;
    rewrite (InlineFacts.bind_run m k _ _ _ E4')
  end.
  clear E4 E4'. cbn [next_id graph] in *.
  rewrite InlineFacts.get_graph_run. cbn [next_id graph].
  assert (∀ x, x ∈ added4 → e_src x ≠ rid ∧ e_dst x ≠ rid) as Hadded4.
  { apply (triples_forall (λ t, t.1.1 ≠ rid ∧ t.1.2 ≠ rid) _ _ _ Ht4).
    intros e He. simpl. split; [|done].
    unfold in_edges in He. apply list_elem_of_filter in He as [Hdst He].
    intros Hsrc. by apply (Hloopfree e He). }
  assert (edges g4
          = filter (λ e, e_dst e ≠ rid) (edges p) ++ added3 ++ added4) as Hg4.
  { rewrite He4, Hg3, filter_app, <- app_assoc. f_equal; [|f_equal].
    - apply BlockFacts.filter_ext_in. intros x Hx. unfold in_edges.
      rewrite list_elem_of_filter. tauto.
    - apply InlineFacts.filter_all. intros x Hx Hin.
      unfold in_edges in Hin. apply list_elem_of_filter in Hin as [Hdst _].
      by destruct (Hadded3 x Hx). }
  (* the edges out of the region *)
  assert (out_edges g4 rid = out_edges p rid) as Hout4.
  { unfold out_edges. rewrite Hg4, !filter_app.
    rewrite (InlineFacts.filter_none _ added3), (InlineFacts.filter_none _ added4),
      !app_nil_r.
    - rewrite list_filter_filter. apply BlockFacts.filter_ext_in.
      intros x Hx. split; [tauto|]. intros Hsrc. split; [done|].
      intros Hdst. by apply (Hloopfree x Hx).
    - intros x Hx. by destruct (Hadded4 x Hx).
    - intros x Hx. by destruct (Hadded3 x Hx). }
  rewrite Hout4.
  destruct (for_each_redirect (λ _, next) e_dst (out_edges p rid) (mkHeap g4 (S next)))
    as (g5 & added5 & E5 & Hn5 & He5 & Ht5 & Hnd5 & Hb5 & Hc5).
  { done. }
  { apply NoDup_filter. by apply BlockFacts.NoDup_of_eids. }
  { intros e He. cbn [graph]. rewrite Hg4. apply elem_of_app. left.
    unfold out_edges in He. apply list_elem_of_filter in He as [Hsrc He].
    apply list_elem_of_filter. split; [|done].
    intros Hdst. by apply (Hloopfree e He). }
  rewrite (InlineFacts.bind_run _ _ _ _ _ E5). clear E5.
  cbn [next_id graph] in *.
  assert (∀ x, x ∈ added5 → e_src x ≠ rid ∧ e_dst x ≠ rid) as Hadded5.
  { apply (triples_forall (λ t, t.1.1 ≠ rid ∧ t.1.2 ≠ rid) _ _ _ Ht5).
    intros e He. simpl. split; [unfold rid; lia|].
    unfold out_edges in He. apply list_elem_of_filter in He as [Hsrc He].
    intros Hdst. by apply (Hloopfree e He). }
  assert (edges g5
          = filter (λ e, e_src e ≠ rid ∧ e_dst e ≠ rid) (edges p)
            ++ added3 ++ added4 ++ added5) as Hg5.
  { rewrite He5, Hg4, !filter_app, <- !app_assoc. f_equal; [|f_equal; [|f_equal]].
    - rewrite list_filter_filter. apply BlockFacts.filter_ext_in.
      intros x Hx. unfold out_edges. rewrite list_elem_of_filter. tauto.
    - apply InlineFacts.filter_all. intros x Hx Hin.
      unfold out_edges in Hin. apply list_elem_of_filter in Hin as [Hsrc _].
      by destruct (Hadded3 x Hx).
    - apply InlineFacts.filter_all. intros x Hx Hin.
      unfold out_edges in Hin. apply list_elem_of_filter in Hin as [Hsrc _].
      by destruct (Hadded4 x Hx). }
  (* the blocks without a successor *)
  set (sinks := filter (λ n, out_degree self (block_id n) = 0) (nodes self)) in *.
  destruct (for_each_add_edges (block_id <$> sinks) id (λ _, next)
              (λ _, InterstateEdge_default) (mkHeap g5 (S next)))
    as (g6 & added6 & E6 & Hn6 & He6 & Ht6 & Hnd6 & Hb6 & Hc6); [done|].
  match goal with
  | |- context [(?m ≫= ?k) (mkHeap g5 (S next))] =>
    assert (m (mkHeap g5 (S next)) = (Ok (), mkHeap g6 (S next))) as E6'
      by exact E6;
    rewrite (InlineFacts.bind_run m k _ _ _ E6')
  end.
  clear E6 E6'. cbn [next_id graph] in *.
  rewrite InlineFacts.update_run. cbn [next_id graph].
  assert (∀ x, x ∈ added6 → e_src x ≠ rid ∧ e_dst x ≠ rid) as Hadded6.
  { apply (triples_forall (λ t, t.1.1 ≠ rid ∧ t.1.2 ≠ rid) _ _ _ Ht6).
    intros i Hi. simpl. split; [|unfold rid; lia].
    apply list_elem_of_fmap in Hi as (n & -> & Hn).
    apply Hids. unfold sinks in Hn. by apply list_elem_of_filter in Hn as [_ ?]. }
  assert (edge_free g6 rid) as Hfree.
  { intros x Hx. rewrite He6, Hg5, !elem_of_app in Hx.
    destruct Hx as [[Hx|[Hx|[Hx|Hx]]]|Hx];
      [by apply list_elem_of_filter in Hx as [? _]
      |by apply Hadded3|by apply Hadded4|by apply Hadded5|by apply Hadded6]. }
  destruct (InlineFacts.remove_node_spec g6 rid Hfree) as (Hn7 & He7 & _).
  exists (remove_node g6 rid), l_end, added.
  split; [done|]. split; [|split; [done|]].
  - rewrite Hn7, Hn6, Hn5, Hn4, Hn3, Hn2, Hn1, <- app_assoc, !filter_app.
    f_equal. rewrite filter_cons, decide_True by (simpl; unfold rid; lia).
    rewrite filter_nil. simpl. f_equal.
    apply InlineFacts.filter_all. intros b Hb.
    apply list_elem_of_lookup in Hb as [i Hi].
    destruct (Forall2_lookup_r _ _ _ _ _ Hall Hi) as (n & Hn & l & ->).
    destruct (set_label_same n l) as [-> _]. apply Hids.
    by apply list_elem_of_lookup_2 in Hn.
  - rewrite He7, He6, Hg5, !fmap_app, Ht3, Ht4, Ht5, Ht6, <- !app_assoc.
    f_equal.
    assert (((λ a : Edge, (mapped ∅ (e_src a), mapped ∅ (e_dst a), e_data a))
               <$> edges self) = edge_triple <$> edges self) as ->.
    { apply list_fmap_ext. intros i e _. by rewrite !mapped_empty. }
    by rewrite <- list_fmap_compose.
Qed.

End WithNames.

Import Examples.

Lemma ControlFlowRegion_inline_spec_witness :
  ∃ p' l_end added,
    ControlFlowRegion_inline example_find_new_name inner_region
      (mkHeap outer_region 5)
    = (Ok (true, Some 5), mkHeap p' 6)
    ∧ nodes p' = [block_A; block_B] ++ [new_state 5 l_end] ++ added
    ∧ Forall2 (λ n n', ∃ l, n' = set_label n l) (nodes inner_region) added
    ∧ edge_triple <$> edges p'
      = [(1, 4, InterstateEdge_default); (5, 2, InterstateEdge_default);
         (4, 5, InterstateEdge_default)].
Proof.
  apply (ControlFlowRegion_inline_spec example_find_new_name outer_region
           inner_region 5 4).
  - intros n _. apply andb_false_r.
  - apply (bool_decide_unpack _). by vm_compute.
  - reflexivity.
  - simpl. lia.
  - simpl. lia.
  - intros n Hn. apply list_elem_of_singleton in Hn as ->. simpl. lia.
  - intros e He. by apply elem_of_nil in He.
  - intros e He [Hs Hd].
    apply elem_of_cons in He as [->|He]; [simpl in Hs; lia|].
    apply list_elem_of_singleton in He as ->. simpl in Hd. lia.
Defined.

(** The same call evaluated: the labels of the blocks of the parent
    afterwards. *)
Lemma ControlFlowRegion_inline_computed :
  let '(res, h) := ControlFlowRegion_inline example_find_new_name inner_region
                     (mkHeap outer_region 5) in
  res = Ok (true, Some 5)
  ∧ (λ b, (block_id b, block_label b)) <$> nodes (graph h)
    = [(1, "A"); (2, "B"); (5, "C_end"); (4, "C_S")]
  ∧ (λ e, (e_src e, e_dst e)) <$> edges (graph h) = [(1, 4); (5, 2); (4, 5)].
Proof. by vm_compute. Qed.

End RegionInlineFacts.
